(** * Aleph: cover tree and Vietoris--Rips expander

    A shallow embedding of [include/aleph/geometry/CoverTree.hh] (the
    class [CoverTree] and, in the same file, the class [RipsExpander]),
    together with the properties of these two classes.

    Conventions of the embedding:
    - the value a [Metric] returns and [std::pow( coveringConstant, level )]
      are exact rationals ([Q]); [_level] is a [long], taken as [Z];
    - a [std::unique_ptr<Node>] tree is a rose tree; a [Node*] into the
      tree is the path of child indices that leads to the node;
    - a [while] loop or a recursion that is not structural is a [Fixpoint]
      on a fuel argument that ends in [OutOfFuel] when the fuel is used up;
      the callers pass a bound and the theorems show that the bound is never
      reached;
    - a [std::unordered_map] is a [gmap], a [std::unordered_set] a [gset]
      whose order of iteration is a parameter, a [std::set] an increasing
      list, a [std::vector] or [std::list] a list;
    - the order of iteration of an unordered set can change from loop to
      loop: [expand_in] takes the order of every single loop from a
      schedule;
    - for what a call does to the objects of its caller, the complexes and
      lists of simplices live in a memory: a reference is an address, a copy
      is a new object, and [setData] writes at a place;
    - an index past the end of a vector is undefined behaviour: the
      embedding stops there with [OutOfRange] and says nothing about what a
      build of the code does next;
    - a [std::map] is a [gmap] as well, a [std::multimap] the list of its
      entries in the order of their keys, and [std::sort] is a parameter;
    - the loop of [isHarmonic] that lowers the level need not end, so the
      fuel of [isHarmonic] is an argument, and the theorems say for which
      inputs some fuel is enough and for which none is;
    - trace output to [std::cerr] is left out. *)

From Stdlib Require Import ZArith QArith Qpower QExtra Qminmax Lia Lqa.
From stdpp Require Import base option list gmap sets sorting.

(** Result of running a piece of code. *)
Inductive outcome (A : Type) : Type :=
  | Done (a : A)          (* the code returns [a] *)
  | NullDeref             (* the code dereferences a null pointer *)
  | OutOfRange            (* the code indexes a vector past its end *)
  | OutOfFuel.            (* the model ran out of fuel *)
Arguments Done {A} a.
Arguments NullDeref {A}.
Arguments OutOfRange {A}.
Arguments OutOfFuel {A}.

#[global] Instance outcome_bind : MBind outcome := λ A B k m,
  match m with
  | Done a => k a
  | NullDeref => NullDeref
  | OutOfRange => OutOfRange
  | OutOfFuel => OutOfFuel
  end.

#[local] Set Warnings "-register-all,-clear-no-such-hyp".

Module CoverTree.

#[local] Open Scope Q_scope.

(** Integer points with the absolute difference as metric. *)
Definition absdiff (x y : Z) : Q := inject_Z (Z.abs (x - y)).

(** An insertion sort, to stand for [std::sort] in the examples. *)
Fixpoint insert_sorted (comp : Z → Z → bool) (x : Z) (l : list Z) : list Z :=
  match l with
  | [] => [x]
  | y :: l' => if comp x y then x :: y :: l' else y :: insert_sorted comp x l'
  end.

Definition insertion_sort (comp : Z → Z → bool) (l : list Z) : list Z :=
  foldr (insert_sorted comp) [] l.

Section WithMetric.

Context {Point : Type}.
Variable Metric : Point → Point → Q.

(** [class Node]: [_point], [_level], [_children]. *)
Inductive Node : Type :=
  mkNode { _point : Point; _level : Z; _children : list Node }.

(** [std::unique_ptr<Node> _root]; [None] is the null pointer, the empty tree. *)
Definition CoverTree : Type := option Node.

Definition coveringConstant : Q := 2.

Definition coveringDistance (n : Node) : Q := coveringConstant ^ (_level n).

Definition separatingDistance (n : Node) : Q := coveringConstant ^ (_level n - 1).

Definition isLeaf (n : Node) : bool :=
  match _children n with [] => true | _ => false end.

(** [d > x] on exact rationals. *)
Definition Qgt_bool (d x : Q) : bool := negb (Qle_bool d x).

(** Number of nodes and the points stored, in pre-order. *)
Fixpoint size (n : Node) : nat :=
  match n with
  | mkNode _ _ cs => S ((fix go (l : list Node) : nat :=
                           match l with [] => O | c :: l' => (size c + go l')%nat end) cs)
  end.

Fixpoint points (n : Node) : list Point :=
  match n with
  | mkNode p _ cs => p :: (fix go (l : list Node) : list Point :=
                             match l with [] => [] | c :: l' => points c ++ go l' end) cs
  end.

Definition sizes (l : list Node) : nat := foldr (λ c k, (size c + k)%nat) O l.

Definition points_of (l : list Node) : list Point := foldr (λ c k, points c ++ k) [] l.

(** ** [Node::insert_] *)

(** The [for] loop over [_children] is the inner [fix]: it returns the
    updated children when some child took the point ([return] inside the
    loop) and [None] when the loop ran to its end. *)
Fixpoint insert_ (this : Node) (p : Point) {struct this} : Node :=
  match this with
  | mkNode pt lvl cs =>
      match (fix loop (l : list Node) : option (list Node) :=
               match l with
               | [] => None
               | child :: l' =>
                   let d := Metric (_point child) p in
                   if Qle_bool d (coveringDistance child)
                   then Some (insert_ child p :: l')
                   else match loop l' with
                        | Some r => Some (child :: r)
                        | None => None
                        end
               end) cs with
      | Some cs' => mkNode pt lvl cs'
      | None => mkNode pt lvl (cs ++ [mkNode p (lvl - 1) []])
      end
  end.

(** ** Leaf search and root promotion of [Node::insert] *)

(** A [Node*] below [this]: the child indices from [this] down to the node. *)
Definition path : Type := list nat.

Fixpoint get (n : Node) (pth : path) {struct pth} : option Node :=
  match pth with
  | [] => Some n
  | i :: pth' => match _children n !! i with
                 | Some c => get c pth'
                 | None => None
                 end
  end.

(** [leaf] and [parent] of the search: the path of [parent], the index of
    [leaf] among the children of [parent], and the node [leaf] points to. *)
Definition found : Type := option (path * nat * Node).

(** [for( auto&& child : node->_children )] of the search: a leaf child
    sets [leaf] and [parent] and leaves the [for] loop; any other child is
    pushed on the stack. *)
Fixpoint scan (pth : path) (i : nat) (cs : list Node)
    (nodes : list (path * Node)) (lf : found) : list (path * Node) * found :=
  match cs with
  | [] => (nodes, lf)
  | child :: cs' =>
      if isLeaf child then (nodes, Some (pth, i, child))
      else scan pth (S i) cs' ((pth ++ [i], child) :: nodes) lf
  end.

(** [while( !nodes.empty() )] of the search. *)
Fixpoint search (fuel : nat) (nodes : list (path * Node)) (lf : found) : outcome found :=
  match nodes with
  | [] => Done lf
  | (pth, node) :: rest =>
      match fuel with
      | O => OutOfFuel
      | S fuel' =>
          let '(nodes', lf') := scan pth 0 (_children node) rest lf in
          search fuel' nodes' lf'
      end
  end.

Definition findLeaf (this : Node) : outcome found :=
  search (size this) [([], this)] None.

(** [parent->_children.erase( std::remove_if( ... child.get() == leaf ... ) )]:
    the child with index [i] of the node at [pth] is taken out. *)
Fixpoint remove_at (n : Node) (pth : path) (i : nat) {struct pth} : Node :=
  match pth with
  | [] => mkNode (_point n) (_level n) (delete i (_children n))
  | j :: pth' =>
      mkNode (_point n) (_level n) (alter (λ c, remove_at c pth' i) j (_children n))
  end.

(** [while( d > 2 * this->coveringDistance() )]; the state of the loop is
    [this] and [d].  When the search finds no leaf, [leaf->_point] is read
    for the trace output before [leaf] is tested. *)
Fixpoint raise (fuel : nat) (this : Node) (p : Point) (d : Q) : outcome Node :=
  if Qgt_bool d (2 * coveringDistance this) then
    match fuel with
    | O => OutOfFuel
    | S fuel' =>
        if isLeaf this then
          raise fuel' (mkNode (_point this) (_level this + 1) (_children this)) p d
        else
          lf ← findLeaf this;
          match lf with
          | None => NullDeref
          | Some (pth, i, leaf) =>
              let rest := remove_at this pth i in
              let oldRoot := mkNode (_point rest) (_level rest) (_children rest) in
              let this' := mkNode (_point leaf) (_level rest + 1) [oldRoot] in
              raise fuel' this' p (Metric (_point this') p)
          end
    end
  else Done this.

(** A bound on the number of rounds of [raise]: the level rises by one in
    every round and a round starts only while [2 * 2 ^ level] is below the
    distance of [p] to the root, which is the distance of [p] to a point of
    the tree. *)
Definition farthest (this : Node) (p : Point) : Q :=
  foldr (λ x m, Qmax (Metric x p) m) 0 (points this).

Definition raise_fuel (this : Node) (p : Point) : nat :=
  Z.to_nat (Qbound_lt_ZExp2 (farthest this p) - _level this).

(** [Node::insert]. *)
Definition insert (this : Node) (p : Point) : outcome Node :=
  let d := Metric (_point this) p in
  if Qgt_bool d (coveringDistance this) then
    this' ← raise (raise_fuel this p) this p d;
    let oldRoot := mkNode (_point this') (_level this') (_children this') in
    Done (mkNode p (_level this' + 1) [oldRoot])
  else Done (insert_ this p).

(** [CoverTree::insert( const Point& )]. *)
Definition tree_insert (t : CoverTree) (p : Point) : outcome CoverTree :=
  match t with
  | None => Done (Some (mkNode p 0 []))
  | Some root => root' ← insert root p; Done (Some root')
  end.

(** [CoverTree::insert( begin, end )]. *)
Fixpoint tree_insert_range (t : CoverTree) (ps : list Point) : outcome CoverTree :=
  match ps with
  | [] => Done t
  | p :: ps' => t' ← tree_insert t p; tree_insert_range t' ps'
  end.

(** ** Validity checks *)

(** [for( decltype(n) i = 0; i < n; i++ )] of the four traversals: the
    front node is visited, what the visit pushes goes to the back of the
    queue, the front node is popped.  [visit] is the body of the loop; it
    answers [None] when the body executes [return false]. *)
Fixpoint wave (visit : Node → option (list Node)) (n : nat) (nodes : list Node)
    : option (list Node) :=
  match n, nodes with
  | S n', node :: rest =>
      match visit node with
      | None => None
      | Some pushed => wave visit n' (rest ++ pushed)
      end
  | _, _ => Some nodes
  end.

(** [while( !nodes.empty() )] of the traversals; [level] is the local
    variable of [checkLevelInvariant], which the other checks do not have. *)
Fixpoint scan_levels (visit : Z → Node → option (list Node)) (fuel : nat)
    (nodes : list Node) (level : Z) : outcome bool :=
  match nodes with
  | [] => Done true
  | _ :: _ =>
      match fuel with
      | O => OutOfFuel
      | S fuel' =>
          match wave (visit level) (length nodes) nodes with
          | None => Done false
          | Some nodes' => scan_levels visit fuel' nodes' (level - 1)
          end
      end
  end.

(** Body of the loop of [checkLevelInvariant]. *)
Definition visit_level (level : Z) (node : Node) : option (list Node) :=
  if negb (_level node =? level - 1)%Z then None else Some (_children node).

(** Body of the loop of [checkCoveringInvariant]: the children of [parent]
    are tested and pushed one after the other. *)
Fixpoint visit_covering (parent : Node) (cs : list Node) (pushed : list Node)
    : option (list Node) :=
  match cs with
  | [] => Some pushed
  | child :: cs' =>
      let d := Metric (_point parent) (_point child) in
      if Qgt_bool d (coveringDistance parent) then None
      else visit_covering parent cs' (pushed ++ [child])
  end.

(** Body of the loop of [checkSeparatingInvariant]: [it1] runs over the
    children, [it2] over the children after [it1]. *)
Fixpoint visit_separating (parent : Node) (cs : list Node) (pushed : list Node)
    : option (list Node) :=
  match cs with
  | [] => Some pushed
  | c1 :: cs' =>
      if existsb (λ c2, Qle_bool (Metric (_point c1) (_point c2))
                                 (separatingDistance parent)) cs'
      then None
      else visit_separating parent cs' (pushed ++ [c1])
  end.

Definition checkLevelInvariant (t : CoverTree) : outcome bool :=
  match t with
  | None => NullDeref
  | Some root => scan_levels visit_level (size root) [root] (_level root + 1)
  end.

Definition checkCoveringInvariant (t : CoverTree) : outcome bool :=
  match t with
  | None => NullDeref
  | Some root =>
      scan_levels (λ _ parent, visit_covering parent (_children parent) [])
                  (size root) [root] 0
  end.

Definition checkSeparatingInvariant (t : CoverTree) : outcome bool :=
  match t with
  | None => NullDeref
  | Some root =>
      scan_levels (λ _ parent, visit_separating parent (_children parent) [])
                  (size root) [root] 0
  end.

(** [isValid]: the three checks joined by the short-circuit [&&]. *)
Definition isValid (t : CoverTree) : outcome bool :=
  checkLevelInvariant t ≫= λ b1 : bool,
  if b1 then
    checkCoveringInvariant t ≫= λ b2 : bool,
    if b2 then checkSeparatingInvariant t else Done false
  else Done false.

(** ** Tree access: [getNodesByLevel], [nodesToLevel], [points], [level] *)

(** [for( decltype(n) i = 0; i < n; i++ )] of the three traversals that
    collect: [act] is what the body does with the front node and with what
    it has collected so far; the children of the front node then go to the
    back of the queue and the front node is popped. *)
Fixpoint collect_wave {Acc : Type} (act : Acc → Node → Acc) (n : nat)
    (nodes : list Node) (acc : Acc) : list Node * Acc :=
  match n, nodes with
  | S n', node :: rest => collect_wave act n' (rest ++ _children node) (act acc node)
  | _, _ => (nodes, acc)
  end.

(** [while( !nodes.empty() )] of the three traversals. *)
Fixpoint collect {Acc : Type} (act : Acc → Node → Acc) (fuel : nat)
    (nodes : list Node) (acc : Acc) : outcome Acc :=
  match nodes with
  | [] => Done acc
  | _ :: _ =>
      match fuel with
      | O => OutOfFuel
      | S fuel' =>
          let '(nodes', acc') := collect_wave act (length nodes) nodes acc in
          collect act fuel' nodes' acc'
      end
  end.

(** [std::multimap<long, Point>::insert]: the entries are kept in the order
    of their keys, and a new entry goes behind the entries that have its
    key. *)
Fixpoint multimap_insert (k : Z) (v : Point) (m : list (Z * Point)) : list (Z * Point) :=
  match m with
  | [] => [(k, v)]
  | e :: m' =>
      if (k <? e.1)%Z then (k, v) :: e :: m' else e :: multimap_insert k v m'
  end.

(** [getNodesByLevel]; the first node that is read is [_root.get()]. *)
Definition getNodesByLevel (t : CoverTree) : outcome (list (Z * Point)) :=
  match t with
  | None => NullDeref
  | Some root =>
      collect (λ levelMap node, multimap_insert (_level node) (_point node) levelMap)
              (size root) [root] []
  end.

(** [points]. *)
Definition tree_points (t : CoverTree) : outcome (list Point) :=
  match t with
  | None => NullDeref
  | Some root => collect (λ result node, result ++ [_point node]) (size root) [root] []
  end.

(** [level]. *)
Definition tree_level (t : CoverTree) : Z :=
  match t with
  | Some root => _level root
  | None => 0
  end.

Section Ordered.

(** [std::map<Point, long>] needs an order on [Point]; the map is a [gmap],
    whose keys are compared by equality. *)
Context `{Countable Point}.

(** [std::map<Point, long>::insert]: a key that is in the map keeps its
    entry. *)
Definition map_insert (m : gmap Point Z) (k : Point) (v : Z) : gmap Point Z :=
  match m !! k with
  | Some _ => m
  | None => <[k := v]> m
  end.

(** [nodesToLevel]. *)
Definition nodesToLevel (t : CoverTree) : outcome (gmap Point Z) :=
  match t with
  | None => NullDeref
  | Some root =>
      collect (λ levelMap node, map_insert levelMap (_point node) (_level node))
              (size root) [root] ∅
  end.

End Ordered.

(** ** [isHarmonic] *)

(** [while( current )] of [isHarmonic]: the distance of [p] to [current] is
    stored when it is within the covering distance of [current]; the first
    child within whose covering distance [p] lies becomes [current]; the
    loop is left at the node none of whose children is such a child.  The
    result is that node and the vector [distances].  The vector
    [ancestorDistances] only goes to the trace output. *)
Fixpoint descent (p : Point) (current : Node) (distances : list Q) {struct current}
    : Node * list Q :=
  match current with
  | mkNode pt lvl cs =>
      let d := Metric p pt in
      let distances :=
        if Qle_bool d (coveringDistance (mkNode pt lvl cs)) then distances ++ [d]
        else distances in
      (fix loop (l : list Node) : Node * list Q :=
         match l with
         | [] => (mkNode pt lvl cs, distances)
         | child :: l' =>
             if Qle_bool (Metric p (_point child)) (coveringDistance child)
             then descent p child distances
             else loop l'
         end) cs
  end.

(** [std::is_sorted( first, last, comp )]: no element is followed directly
    by an element that [comp] puts before it. *)
Fixpoint is_sorted (comp : Q → Q → bool) (l : list Q) : bool :=
  match l with
  | a :: l' =>
      match l' with
      | b :: _ => negb (comp b a) && is_sorted comp l'
      | [] => true
      end
  | [] => true
  end.

(** [*std::max_element( begin, end )] on a vector that starts with [first]:
    a later element replaces the largest one so far when it is greater. *)
Definition max_element (first : Q) (rest : list Q) : Q :=
  foldl (λ largest x, if Qgt_bool x largest then x else largest) first rest.

(** [CoverTree::coveringDistance( long level )]. *)
Definition coveringDistance_at (level : Z) : Q := coveringConstant ^ level.

(** [while( maxDistance <= this->coveringDistance( l ) ) --l;] *)
Fixpoint lower (fuel : nat) (maxDistance : Q) (l : Z) : outcome Z :=
  if Qle_bool maxDistance (coveringDistance_at l) then
    match fuel with
    | O => OutOfFuel
    | S fuel' => lower fuel' maxDistance (l - 1)
    end
  else Done l.

Section Harmonic.

(** [std::remove] compares points with [==]; of [std::sort] the embedding
    fixes no more than the standard does: it is a function of the
    comparison and the vector, and the facts below say what they need of
    it. *)
Context `{EqDecision Point}.
Variable sort : (Point → Point → bool) → list Point → list Point.

(** [isHarmonic( p )] returns the flag [harmonic] and may replace the tree;
    [fuel] bounds the rounds of the loop that lowers [l]. *)
Definition isHarmonic (fuel : nat) (t : CoverTree) (p : Point)
    : outcome (CoverTree * bool) :=
  let '(current, distances) :=
    match t with
    | None => (None, [])
    | Some root => let '(c, ds) := descent p root [] in (Some c, ds)
    end in
  let harmonic := is_sorted Qle_bool (rev distances) in
  match distances with
  | first :: (_ :: _) as rest =>
      let maxDistance := max_element first rest in
      l ← lower fuel maxDistance (tree_level t);
      let l := (l + 1)%Z in
      if (l <? tree_level t)%Z then
        match current with
        | None => NullDeref
        | Some current =>
            allPoints ← tree_points t;
            let allPoints := filter (λ x, x ≠ _point current) allPoints in
            let allPoints :=
              sort (λ x y, Qgt_bool (Metric (_point current) x) (Metric (_point current) y))
                   allPoints in
            t' ← tree_insert_range (Some (mkNode (_point current) l [])) allPoints;
            Done (t', harmonic)
        end
      else Done (t, harmonic)
  | _ => Done (t, harmonic)
  end.

End Harmonic.

(** ** The invariants *)

(** [every P n]: [P] holds of [n] and of every node below it. *)
Fixpoint every (P : Node → Prop) (n : Node) : Prop :=
  match n with
  | mkNode pt lvl cs =>
      P (mkNode pt lvl cs) ∧
      (fix go (l : list Node) : Prop :=
         match l with [] => True | c :: l' => every P c ∧ go l' end) cs
  end.

(** Level invariant at one node: a child is one level below. *)
Definition levelOk (n : Node) : Prop :=
  ∀ c, c ∈ _children n → _level c = (_level n - 1)%Z.

(** Covering invariant at one node. *)
Definition coveringOk (n : Node) : Prop :=
  ∀ c, c ∈ _children n → Metric (_point n) (_point c) <= coveringDistance n.

(** Separating invariant at one node, for any two children. *)
Definition separatingOk (n : Node) : Prop :=
  ∀ i j ci cj, i ≠ j → _children n !! i = Some ci → _children n !! j = Some cj →
    separatingDistance n < Metric (_point ci) (_point cj).

(** What [checkSeparatingInvariant] tests at one node: the earlier child
    is the first argument of the metric. *)
Definition separatingFwd (n : Node) : Prop :=
  ∀ i j ci cj, (i < j)%nat → _children n !! i = Some ci → _children n !! j = Some cj →
    separatingDistance n < Metric (_point ci) (_point cj).

Definition local (n : Node) : Prop := levelOk n ∧ coveringOk n ∧ separatingOk n.

Definition levelInvariant (t : CoverTree) : Prop :=
  match t with None => True | Some root => every levelOk root end.

Definition coveringInvariant (t : CoverTree) : Prop :=
  match t with None => True | Some root => every coveringOk root end.

Definition separatingInvariant (t : CoverTree) : Prop :=
  match t with None => True | Some root => every separatingOk root end.

(** ** Notions used in the statements and proofs *)

(** The [for] loop of [insert_], with the recursive call as a parameter. *)
Fixpoint descend (rec : Node → Node) (p : Point) (l : list Node) : option (list Node) :=
  match l with
  | [] => None
  | child :: l' =>
      if Qle_bool (Metric (_point child) p) (coveringDistance child)
      then Some (rec child :: l')
      else match descend rec p l' with
           | Some r => Some (child :: r)
           | None => None
           end
  end.

(** [takes c p]: the test of [insert_] on the child [c]. *)
Definition takes (c : Node) (p : Point) : Prop :=
  Metric (_point c) p <= coveringDistance c.

(** [located this (pth, i, leaf)]: [pth] leads from [this] to a node whose
    child number [i] is [leaf], and [leaf] has no children. *)
Definition located (this : Node) (loc : path * nat * Node) : Prop :=
  ∃ parent, get this loc.1.1 = Some parent ∧
            _children parent !! loc.1.2 = Some loc.2 ∧ isLeaf loc.2 = true.

Definition located_opt (this : Node) (lf : found) : Prop :=
  match lf with Some loc => located this loc | None => True end.

(** An entry of the stack: a node of the tree that is not a leaf. *)
Definition on_stack (this : Node) (e : path * Node) : Prop :=
  get this e.1 = Some e.2 ∧ isLeaf e.2 = false.

(** The number of nodes in the subtrees on the stack. *)
Definition stack_size (nodes : list (path * Node)) : nat := sizes (nodes.*2).

(** The three invariants hold at [n] and at every node below it. *)
Definition valid (n : Node) : Prop := every local n.

(** [deep ok level n]: [ok level] holds of [n], [ok (level - 1)] of its
    children, and so on down the tree. *)
Fixpoint deep (ok : Z → Node → Prop) (level : Z) (n : Node) : Prop :=
  match n with
  | mkNode pt lvl cs =>
      ok level (mkNode pt lvl cs) ∧
      (fix go (l : list Node) : Prop :=
         match l with [] => True | c :: l' => deep ok (level - 1) c ∧ go l' end) cs
  end.

(** The queue after one round of the traversal: the children of the nodes. *)
Definition next_wave (nodes : list Node) : list Node := nodes ≫= _children.

(** The separating test on a list of children, earlier child first. *)
Definition apart (sd : Q) (cs : list Node) : Prop :=
  ∀ i j ci cj, (i < j)%nat → cs !! i = Some ci → cs !! j = Some cj →
    sd < Metric (_point ci) (_point cj).

(** The nodes at and below [n], in pre-order. *)
Fixpoint nodes_of (n : Node) : list Node :=
  match n with
  | mkNode pt lvl cs =>
      mkNode pt lvl cs ::
      (fix go (l : list Node) : list Node :=
         match l with [] => [] | c :: l' => nodes_of c ++ go l' end) cs
  end.

(** The nodes [k] edges below [n], from the first child to the last. *)
Fixpoint at_depth (k : nat) (n : Node) : list Node :=
  match k with
  | O => [n]
  | S k' => _children n ≫= at_depth k'
  end.

(** The order in which a traversal takes the nodes out of its queue. *)
Fixpoint bfs (fuel : nat) (nodes : list Node) : list Node :=
  match fuel, nodes with
  | S fuel', _ :: _ => nodes ++ bfs fuel' (next_wave nodes)
  | _, _ => []
  end.

(** The points a tree stores. *)
Definition stored (t : CoverTree) : list Point :=
  match t with
  | Some root => points root
  | None => []
  end.

(** ** Basic facts on nodes *)

Lemma Node_induction (P : Node → Prop) :
  (∀ pt lvl cs, Forall P cs → P (mkNode pt lvl cs)) → ∀ n, P n.
Proof.
  intros H. fix IH 1. intros [pt lvl cs]. apply H.
  induction cs as [|c cs IHcs]; constructor; [apply IH | exact IHcs].
Qed.

Lemma Node_eta (n : Node) : mkNode (_point n) (_level n) (_children n) = n.
Proof. by destruct n. Qed.

Lemma size_unfold (n : Node) : size n = S (sizes (_children n)).
Proof. by destruct n. Qed.

Lemma points_unfold (n : Node) : points n = _point n :: points_of (_children n).
Proof. by destruct n. Qed.

Lemma every_unfold (P : Node → Prop) (n : Node) :
  every P n ↔ P n ∧ Forall (every P) (_children n).
Proof.
  destruct n as [pt lvl cs]. simpl.
  assert (∀ l : list Node,
    (fix go (l : list Node) : Prop :=
       match l with [] => True | c :: l' => every P c ∧ go l' end) l
    ↔ Forall (every P) l) as Hgo.
  { induction l as [|c l IHl]; [by split | by rewrite Forall_cons, IHl]. }
  by rewrite Hgo.
Qed.

Lemma sizes_cons (c : Node) (l : list Node) : sizes (c :: l) = (size c + sizes l)%nat.
Proof. done. Qed.

Lemma sizes_app (l1 l2 : list Node) : sizes (l1 ++ l2) = (sizes l1 + sizes l2)%nat.
Proof.
  induction l1 as [|c l1 IH]; [done|].
  rewrite <- app_comm_cons, !sizes_cons, IH. lia.
Qed.

Lemma points_of_app (l1 l2 : list Node) :
  points_of (l1 ++ l2) = points_of l1 ++ points_of l2.
Proof. induction l1 as [|c l1 IH]; simpl; [done|]. by rewrite IH, (assoc_L (++)). Qed.

Lemma points_of_cons (c : Node) (l : list Node) :
  points_of (c :: l) = points c ++ points_of l.
Proof. done. Qed.

(** ** The descent [insert_] *)

Lemma insert__unfold (pt : Point) (lvl : Z) (cs : list Node) (p : Point) :
  insert_ (mkNode pt lvl cs) p =
  match descend (λ c, insert_ c p) p cs with
  | Some cs' => mkNode pt lvl cs'
  | None => mkNode pt lvl (cs ++ [mkNode p (lvl - 1) []])
  end.
Proof.
  simpl.
  match goal with
  | |- match ?f cs with _ => _ end = _ =>
      assert (∀ l, f l = descend (λ c, insert_ c p) p l) as Hloop
  end.
  { induction l as [|c l IHl]; simpl; [done|]. by rewrite IHl. }
  by rewrite Hloop.
Qed.

Lemma takes_bool (c : Node) (p : Point) :
  Qle_bool (Metric (_point c) p) (coveringDistance c) = true ↔ takes c p.
Proof. apply Qle_bool_iff. Qed.

Lemma descend_None (rec : Node → Node) (p : Point) (l : list Node) :
  descend rec p l = None ↔ Forall (λ c, ¬ takes c p) l.
Proof.
  induction l as [|c l IHl]; simpl; [by split|].
  rewrite Forall_cons, <- IHl, <- takes_bool.
  destruct (Qle_bool _ _); [naive_solver|].
  destruct (descend rec p l); naive_solver.
Qed.

Lemma descend_Some (rec : Node → Node) (p : Point) (l r : list Node) :
  descend rec p l = Some r ↔
  ∃ l1 c l2, l = l1 ++ c :: l2 ∧ Forall (λ c', ¬ takes c' p) l1 ∧ takes c p ∧
             r = l1 ++ rec c :: l2.
Proof.
  revert r. induction l as [|c l IHl]; intros r; simpl.
  - split; [done|]. intros (l1 & c & l2 & H & _). by destruct l1.
  - destruct (Qle_bool _ _) eqn:Hc.
    + apply takes_bool in Hc. split.
      * intros [= <-]. by exists [], c, l.
      * intros (l1 & c' & l2 & H & Hl1 & Hc' & ->).
        destruct l1 as [|c1 l1]; simplify_eq/=; [done|].
        by apply Forall_cons in Hl1 as [? _].
    + assert (¬ takes c p) as Hn by (rewrite <- takes_bool; congruence).
      destruct (descend rec p l) as [r'|] eqn:Hd.
      * split.
        -- intros [= <-].
           destruct (proj1 (IHl r') eq_refl) as (l1 & c' & l2 & -> & Hl1 & Hc' & ->).
           exists (c :: l1), c', l2. split_and!; try done. by constructor.
        -- intros (l1 & c' & l2 & H & Hl1 & Hc' & ->).
           destruct l1 as [|c1 l1]; simplify_eq/=; [done|].
           apply Forall_cons in Hl1 as [_ Hl1].
           assert (Some r' = Some (l1 ++ rec c' :: l2)) as [= ->]; [|done].
           apply IHl. by exists l1, c', l2.
      * split; [done|].
        intros (l1 & c' & l2 & H & Hl1 & Hc' & ->).
        destruct l1 as [|c1 l1]; simplify_eq/=; [done|].
        apply Forall_cons in Hl1 as [_ Hl1].
        assert (None = Some (l1 ++ rec c' :: l2)) as Heq; [|done].
        apply IHl. by exists l1, c', l2.
Qed.

Lemma insert__point (n : Node) (p : Point) : _point (insert_ n p) = _point n.
Proof. destruct n as [pt lvl cs]. rewrite insert__unfold. by destruct (descend _ _ _). Qed.

Lemma insert__level (n : Node) (p : Point) : _level (insert_ n p) = _level n.
Proof. destruct n as [pt lvl cs]. rewrite insert__unfold. by destruct (descend _ _ _). Qed.

(** C5: [insert_] scans the children in stored order; the first child
    whose distance to [p] is at most its covering distance takes [p] (the
    children before and after it are left as they are), and when no child
    takes [p], it becomes a new last child, one level below [this]. *)
Theorem insert__first_match (pt : Point) (lvl : Z) (cs : list Node) (p : Point) :
  (∀ cs1 c cs2, cs = cs1 ++ c :: cs2 →
     (∀ c', c' ∈ cs1 → ¬ Metric (_point c') p <= coveringDistance c') →
     Metric (_point c) p <= coveringDistance c →
     insert_ (mkNode pt lvl cs) p = mkNode pt lvl (cs1 ++ insert_ c p :: cs2)) ∧
  ((∀ c, c ∈ cs → ¬ Metric (_point c) p <= coveringDistance c) →
     insert_ (mkNode pt lvl cs) p = mkNode pt lvl (cs ++ [mkNode p (lvl - 1) []])).
Proof.
  split.
  - intros cs1 c cs2 -> Hcs1 Hc. rewrite insert__unfold.
    assert (descend (λ c, insert_ c p) p (cs1 ++ c :: cs2)
            = Some (cs1 ++ insert_ c p :: cs2)) as ->; [|done].
    apply descend_Some. exists cs1, c, cs2. split_and!; try done.
    by apply Forall_forall.
  - intros Hcs. rewrite insert__unfold.
    assert (descend (λ c, insert_ c p) p cs = None) as ->; [|done].
    apply descend_None. by apply Forall_forall.
Qed.

(** C9: [insert_] is a total function (its recursion goes down the
    tree).  The tree it returns has one node more than [n]; its points are
    those of [n] together with [p], so a point that is already stored is
    stored once more; and the new node is a leaf that holds [p]: taking
    that leaf out gives [n] back. *)
Theorem insert__adds_one_node (n : Node) (p : Point) :
  size (insert_ n p) = S (size n) ∧
  points (insert_ n p) ≡ₚ p :: points n ∧
  ∃ pth i parent,
    get (insert_ n p) pth = Some parent ∧
    _children parent !! i = Some (mkNode p (_level parent - 1) []) ∧
    remove_at (insert_ n p) pth i = n.
Proof.
  induction n as [pt lvl cs IH] using Node_induction.
  rewrite insert__unfold.
  destruct (descend _ p cs) as [cs'|] eqn:Hd.
  - apply descend_Some in Hd as (l1 & c & l2 & -> & _ & _ & ->).
    apply Forall_app in IH as [_ IH].
    apply Forall_cons in IH as [(IHs & IHp & pth & i & parent & Hget & Hi & Hrem) _].
    rewrite !size_unfold, !points_unfold. cbn [_point _children].
    rewrite !sizes_app, !points_of_app, !points_of_cons, !sizes_cons.
    split_and!; [lia| |].
    + rewrite IHp. cbn [app]. rewrite <- Permutation_middle. apply perm_swap.
    + exists (length l1 :: pth), i, parent. cbn [get remove_at _children _point _level].
      rewrite list_lookup_middle by done. split_and!; [done..|].
      rewrite <- (Nat.add_0_r (length l1)), alter_app_r. cbn [alter list_alter].
      by rewrite Hrem.
  - rewrite !size_unfold, !points_unfold. cbn [_point _children].
    rewrite sizes_app, points_of_app. split_and!.
    + rewrite sizes_cons, size_unfold. cbn. lia.
    + cbn. rewrite <- Permutation_middle, app_nil_r. apply perm_swap.
    + exists [], (length cs), (mkNode pt lvl (cs ++ [mkNode p (lvl - 1) []])).
      cbn [get remove_at _children _point _level].
      rewrite list_lookup_middle by done. split_and!; [done..|].
      by rewrite delete_middle, app_nil_r.
Qed.

(** ** The leaf search *)

Lemma get_snoc (n : Node) (pth : path) (i : nat) (m c : Node) :
  get n pth = Some m → _children m !! i = Some c → get n (pth ++ [i]) = Some c.
Proof.
  revert n. induction pth as [|j pth IH]; intros n; simpl.
  - by intros [= ->] ->.
  - destruct (_children n !! j); [apply IH | done].
Qed.

Lemma isLeaf_false (n : Node) : isLeaf n = false ↔ _children n ≠ [].
Proof. unfold isLeaf. by destruct (_children n). Qed.

Lemma isLeaf_true (n : Node) : isLeaf n = true ↔ _children n = [].
Proof. unfold isLeaf. by destruct (_children n). Qed.

Lemma stack_size_cons (e : path * Node) (nodes : list (path * Node)) :
  stack_size (e :: nodes) = (size e.2 + stack_size nodes)%nat.
Proof. done. Qed.

Lemma scan_spec (this : Node) (pth : path) (node : Node) (cs : list Node) :
  get this pth = Some node →
  ∀ (i : nat) (nodes : list (path * Node)) (lf : found),
  (∀ k c, cs !! k = Some c → _children node !! (i + k)%nat = Some c) →
  Forall (on_stack this) nodes →
  located_opt this lf →
  Forall (on_stack this) (scan pth i cs nodes lf).1 ∧
  located_opt this (scan pth i cs nodes lf).2 ∧
  (stack_size (scan pth i cs nodes lf).1 ≤ stack_size nodes + sizes cs)%nat ∧
  (is_Some lf ∨ nodes ≠ [] ∨ cs ≠ [] →
   is_Some (scan pth i cs nodes lf).2 ∨ (scan pth i cs nodes lf).1 ≠ []).
Proof.
  intros Hnode. induction cs as [|child cs IH]; intros i nodes lf Hcs Hnodes Hlf; simpl.
  - split_and!; [done|done|lia|]. intros [?|[?|?]]; auto.
  - assert (_children node !! i = Some child) as Hi.
    { rewrite <- (Hcs 0%nat child); [f_equal; lia | done]. }
    destruct (isLeaf child) eqn:Hleaf; simpl.
    + split_and!; [done| |lia|by left; eexists].
      exists node. by split_and!.
    + destruct (IH (S i) ((pth ++ [i], child) :: nodes) lf) as (H1 & H2 & H3 & H4).
      * intros k c Hk. rewrite <- (Hcs (S k) c); [f_equal; lia | done].
      * constructor; [|done]. split; [by eapply get_snoc | done].
      * done.
      * split_and!; [done|done| |].
        -- rewrite stack_size_cons in H3. simpl in H3. lia.
        -- intros _. apply H4. by right; left.
Qed.

Lemma search_spec (this : Node) (fuel : nat) :
  ∀ (nodes : list (path * Node)) (lf : found),
  (stack_size nodes ≤ fuel)%nat →
  Forall (on_stack this) nodes →
  located_opt this lf →
  ∃ r, search fuel nodes lf = Done r ∧ located_opt this r ∧
       (is_Some lf ∨ nodes ≠ [] → is_Some r).
Proof.
  induction fuel as [|fuel IH]; intros [|[pth node] rest] lf Hfuel Hnodes Hlf; simpl.
  - exists lf. split_and!; [done|done|]. by intros [?|?].
  - rewrite stack_size_cons, size_unfold in Hfuel. lia.
  - exists lf. split_and!; [done|done|]. by intros [?|?].
  - apply Forall_cons in Hnodes as [[Hget Hleaf] Hrest]. simpl in *.
    destruct (scan_spec this pth node (_children node) Hget 0%nat rest lf)
      as (H1 & H2 & H3 & H4); [done..|].
    destruct (scan pth 0 (_children node) rest lf) as [nodes' lf'] eqn:Hscan.
    simpl in *.
    destruct (IH nodes' lf') as (r & Hr & Hloc & Hsome); [|done|done|].
    + rewrite stack_size_cons, size_unfold in Hfuel. simpl in Hfuel. lia.
    + exists r. split_and!; [done|done|]. intros _. apply Hsome, H4.
      right; right. by apply isLeaf_false.
Qed.

Lemma findLeaf_spec (this : Node) :
  isLeaf this = false →
  ∃ loc, findLeaf this = Done (Some loc) ∧ located this loc.
Proof.
  intros Hleaf. unfold findLeaf.
  destruct (search_spec this (size this) [([], this)] None) as (r & Hr & Hloc & Hsome).
  - rewrite stack_size_cons. simpl. unfold stack_size, sizes. simpl. lia.
  - by repeat constructor.
  - done.
  - destruct Hsome as [loc ->]; [by right|]. by exists loc.
Qed.

(** ** Taking a node out of the tree *)

Lemma remove_at_point (n : Node) (pth : path) (i : nat) :
  _point (remove_at n pth i) = _point n.
Proof. destruct pth; reflexivity. Qed.

Lemma remove_at_level (n : Node) (pth : path) (i : nat) :
  _level (remove_at n pth i) = _level n.
Proof. destruct pth; reflexivity. Qed.

Lemma points_of_middle (l1 l2 : list Node) (c : Node) :
  points_of (l1 ++ c :: l2) ≡ₚ points c ++ points_of (l1 ++ l2).
Proof.
  rewrite !points_of_app, points_of_cons.
  rewrite !(assoc_L (++)). f_equiv. apply Permutation_app_comm.
Qed.

Lemma points_remove_at (this : Node) (pth : path) (i : nat) (parent c : Node) :
  get this pth = Some parent → _children parent !! i = Some c →
  points this ≡ₚ points c ++ points (remove_at this pth i).
Proof.
  revert this. induction pth as [|j pth IH]; intros this; cbn [get remove_at].
  - intros [= ->] Hi.
    rewrite (points_unfold parent), (points_unfold (mkNode _ _ _)). cbn [_point _children].
    apply list_elem_of_split_length in Hi as (l1 & l2 & -> & ->).
    rewrite delete_middle, points_of_middle. by rewrite Permutation_middle.
  - destruct (_children this !! j) as [cj|] eqn:Hj; [|done]. intros Hget Hi.
    rewrite (points_unfold this), (points_unfold (mkNode _ _ _)). cbn [_point _children].
    apply list_elem_of_split_length in Hj as (l1 & l2 & Hl & ->). rewrite Hl.
    rewrite <- (Nat.add_0_r (length l1)), alter_app_r. cbn [alter list_alter].
    rewrite !points_of_middle, (IH cj Hget Hi).
    rewrite <- (assoc_L (++)), <- !Permutation_middle. done.
Qed.

(** ** Powers of the covering constant *)

Lemma pow_pos (l : Z) : 0 < coveringConstant ^ l.
Proof. by apply Qpower_0_lt. Qed.

Lemma pow_succ (l : Z) : coveringConstant ^ (l + 1) == 2 * coveringConstant ^ l.
Proof.
  rewrite Qpower_plus by done.
  change (coveringConstant ^ 1) with coveringConstant. unfold coveringConstant at 2. lra.
Qed.

Lemma pow_pred (l : Z) : 2 * coveringConstant ^ (l - 1) == coveringConstant ^ l.
Proof. rewrite <- pow_succ. by replace (l - 1 + 1)%Z with l by lia. Qed.

Lemma Qgt_bool_true (d x : Q) : Qgt_bool d x = true ↔ x < d.
Proof.
  unfold Qgt_bool. rewrite negb_true_iff, <- not_true_iff_false, Qle_bool_iff.
  split; [apply Qnot_le_lt | apply Qlt_not_le].
Qed.

Lemma Qgt_bool_false (d x : Q) : Qgt_bool d x = false ↔ d <= x.
Proof. unfold Qgt_bool. by rewrite negb_false_iff, Qle_bool_iff. Qed.

(** ** The invariants are kept *)

Lemma valid_unfold (n : Node) : valid n ↔ local n ∧ Forall valid (_children n).
Proof. apply every_unfold. Qed.

Lemma every_and (P R : Node → Prop) (n : Node) :
  every (λ m, P m ∧ R m) n ↔ every P n ∧ every R n.
Proof.
  induction n as [pt lvl cs IH] using Node_induction.
  rewrite !every_unfold. cbn [_children].
  assert (Forall (every (λ m, P m ∧ R m)) cs
          ↔ Forall (every P) cs ∧ Forall (every R) cs) as ->; [|tauto].
  induction IH as [|c cs Hc _ IHcs]; [by split|].
  rewrite !Forall_cons, Hc, IHcs. tauto.
Qed.

Lemma valid_invariants (n : Node) :
  valid n ↔ every levelOk n ∧ every coveringOk n ∧ every separatingOk n.
Proof. unfold valid, local. by rewrite !every_and. Qed.

Lemma valid_leaf (pt : Point) (lvl : Z) : valid (mkNode pt lvl []).
Proof.
  apply valid_unfold. split; [|constructor].
  split_and!; [intros c Hc; by apply elem_of_nil in Hc..|].
  by intros i j ci cj _ Hi.
Qed.

(** [local] looks at the children of a node through their points and
    levels only. *)
Lemma local_same (pt : Point) (lvl : Z) (cs cs' : list Node) :
  _point <$> cs' = _point <$> cs → _level <$> cs' = _level <$> cs →
  local (mkNode pt lvl cs) → local (mkNode pt lvl cs').
Proof.
  intros Hp Hl (H1 & H2 & H3). split_and!.
  - intros c' [i Hi]%list_elem_of_lookup. cbn [_children _level] in *.
    assert ((_level <$> cs) !! i = Some (_level c')) as Hc.
    { by rewrite <- Hl, list_lookup_fmap, Hi. }
    rewrite list_lookup_fmap in Hc.
    destruct (cs !! i) as [c|] eqn:Hci; simplify_eq/=.
    rewrite <- Hc. apply H1. cbn. by eapply list_elem_of_lookup_2.
  - intros c' [i Hi]%list_elem_of_lookup. cbn [_children _point] in *.
    assert ((_point <$> cs) !! i = Some (_point c')) as Hc.
    { by rewrite <- Hp, list_lookup_fmap, Hi. }
    rewrite list_lookup_fmap in Hc.
    destruct (cs !! i) as [c|] eqn:Hci; simplify_eq/=.
    rewrite <- Hc. apply H2. cbn. by eapply list_elem_of_lookup_2.
  - intros i j ci cj Hij Hi Hj. cbn [_children] in *.
    assert ((_point <$> cs) !! i = Some (_point ci)) as Hci.
    { by rewrite <- Hp, list_lookup_fmap, Hi. }
    assert ((_point <$> cs) !! j = Some (_point cj)) as Hcj.
    { by rewrite <- Hp, list_lookup_fmap, Hj. }
    rewrite list_lookup_fmap in Hci, Hcj.
    destruct (cs !! i) as [c1|] eqn:Hc1; simplify_eq/=.
    destruct (cs !! j) as [c2|] eqn:Hc2; simplify_eq/=.
    rewrite <- Hci, <- Hcj. by apply (H3 i j).
Qed.

Lemma remove_at_valid (n : Node) (pth : path) (i : nat) :
  valid n → valid (remove_at n pth i).
Proof.
  revert n. induction pth as [|j pth IH]; intros n; cbn [remove_at];
    rewrite !valid_unfold; cbn [_children]; intros [(H1 & H2 & H3) Hcs].
  - split; [|by apply Forall_delete]. split_and!.
    + intros c Hc%list_elem_of_delete_inv. by apply H1.
    + intros c Hc%list_elem_of_delete_inv. by apply H2.
    + intros a b ca cb Hab Ha Hb. cbn [_children] in *.
      rewrite list_lookup_delete in Ha, Hb.
      eapply H3; [|exact Ha|exact Hb]. repeat case_decide; lia.
  - split.
    + rewrite <- (Node_eta n) in H1, H2, H3.
      eapply (local_same _ _ (_children n)); [| |by split_and!].
      * apply list_eq. intros k. rewrite !list_lookup_fmap, list_lookup_alter.
        case_decide; [subst k|done].
        destruct (_children n !! j); [|done]. simpl. by rewrite remove_at_point.
      * apply list_eq. intros k. rewrite !list_lookup_fmap, list_lookup_alter.
        case_decide; [subst k|done].
        destruct (_children n !! j); [|done]. simpl. by rewrite remove_at_level.
    + apply Forall_alter; [done|]. intros c _. apply IH.
Qed.

Section MetricSpace.

(** The metric is symmetric and satisfies the triangle inequality. *)
Hypothesis Metric_sym : ∀ x y, Metric x y == Metric y x.
Hypothesis Metric_triangle : ∀ x y z, Metric x z <= Metric x y + Metric y z.

Lemma insert__valid (n : Node) (p : Point) :
  valid n → Metric (_point n) p <= coveringDistance n → valid (insert_ n p).
Proof.
  induction n as [pt lvl cs IH] using Node_induction. intros Hv Hd.
  rewrite insert__unfold.
  apply valid_unfold in Hv as [Hloc Hcs]. cbn [_children] in Hcs.
  destruct (descend _ p cs) as [cs'|] eqn:Hdesc.
  - apply descend_Some in Hdesc as (l1 & c & l2 & -> & _ & Hc & ->).
    apply valid_unfold. cbn [_children]. split.
    + eapply local_same; [| |exact Hloc].
      * by rewrite !fmap_app, !fmap_cons, insert__point.
      * by rewrite !fmap_app, !fmap_cons, insert__level.
    + rewrite Forall_app, Forall_cons in Hcs, IH |- *.
      destruct Hcs as (? & ? & ?), IH as (_ & IHc & _). split_and!; try done.
      by apply IHc.
  - apply descend_None in Hdesc. apply valid_unfold. cbn [_children].
    destruct Hloc as (H1 & H2 & H3). split; [split_and!|].
    + intros c [Hc|Hc]%elem_of_app; [by apply H1|].
      by apply list_elem_of_singleton in Hc as ->.
    + intros c [Hc|Hc]%elem_of_app; [by apply H2|].
      by apply list_elem_of_singleton in Hc as ->.
    + assert (∀ c, c ∈ cs → coveringConstant ^ (lvl - 1) < Metric (_point c) p) as Hfar.
      { intros c Hc. rewrite Forall_forall in Hdesc.
        apply Qnot_le_lt. specialize (H1 c Hc). cbn in H1. rewrite <- H1.
        by apply Hdesc. }
      intros i j ci cj Hij Hi Hj. cbn [_children] in Hi, Hj.
      unfold separatingDistance. cbn [_level].
      apply lookup_app_Some in Hi as [Hi|[Hil Hi]];
        apply lookup_app_Some in Hj as [Hj|[Hjl Hj]].
      * by apply (H3 i j).
      * apply list_lookup_singleton_Some in Hj as [_ <-]. cbn [_point].
        apply Hfar. by eapply list_elem_of_lookup_2.
      * apply list_lookup_singleton_Some in Hi as [_ <-]. cbn [_point].
        rewrite Metric_sym. apply Hfar. by eapply list_elem_of_lookup_2.
      * apply list_lookup_singleton_Some in Hi as [? _].
        apply list_lookup_singleton_Some in Hj as [? _]. lia.
    + apply Forall_app. split; [done|]. constructor; [apply valid_leaf|constructor].
Qed.

(** A node below [n] lies within twice the covering distance of [n]. *)
Lemma descendant_bound (n : Node) (pth : path) (m : Node) :
  valid n → get n pth = Some m → pth ≠ [] →
  Metric (_point n) (_point m) < 2 * coveringDistance n.
Proof.
  revert n. induction pth as [|i pth IH]; intros n Hv Hget Hne; [done|].
  cbn [get] in Hget. destruct (_children n !! i) as [c|] eqn:Hi; [|done].
  apply valid_unfold in Hv as [(H1 & H2 & _) Hcs].
  assert (c ∈ _children n) as Hin by (by eapply list_elem_of_lookup_2).
  pose proof (H2 c Hin) as Hcov. pose proof (H1 c Hin) as Hlev.
  pose proof (pow_pos (_level n)) as Hpos. unfold coveringDistance in *.
  destruct pth as [|j pth].
  - simplify_eq/=. lra.
  - assert (valid c) as Hvc by (by eapply Forall_forall in Hcs).
    specialize (IH c Hvc Hget ltac:(done)).
    pose proof (Metric_triangle (_point n) (_point c) (_point m)) as Htri.
    rewrite Hlev in IH. pose proof (pow_pred (_level n)) as Hpred. lra.
Qed.

(** Root promotion: the leaf becomes the root, the old root its only child. *)
Lemma promote_valid (this : Node) (pth : path) (i : nat) (leaf : Node) :
  valid this → located this (pth, i, leaf) →
  valid (mkNode (_point leaf) (_level (remove_at this pth i) + 1)
                [remove_at this pth i]).
Proof.
  intros Hv (parent & Hget & Hi & Hleaf). cbn in Hget, Hi.
  apply valid_unfold. cbn [_children]. split; [split_and!|].
  - intros c ->%list_elem_of_singleton. cbn. lia.
  - intros c ->%list_elem_of_singleton. unfold coveringDistance. cbn [_point _level].
    rewrite remove_at_point, remove_at_level, pow_succ, Metric_sym.
    apply Qlt_le_weak. apply (descendant_bound this (pth ++ [i])); [done| |].
    + by eapply get_snoc.
    + by destruct pth.
  - intros a b ca cb Hab Ha Hb. cbn [_children] in Ha, Hb.
    apply list_lookup_singleton_Some in Ha as [? _].
    apply list_lookup_singleton_Some in Hb as [? _]. lia.
  - constructor; [by apply remove_at_valid|constructor].
Qed.

Lemma raise_valid (p : Point) (fuel : nat) :
  ∀ (this : Node) (d : Q) (r : Node),
  valid this → d = Metric (_point this) p → raise fuel this p d = Done r →
  valid r ∧ Metric (_point r) p <= 2 * coveringDistance r.
Proof.
  induction fuel as [|fuel IH]; intros this d r Hv Hd Hr; cbn [raise] in Hr;
    destruct (Qgt_bool d (2 * coveringDistance this)) eqn:Hgt;
    try (apply Qgt_bool_false in Hgt; simplify_eq; by split); [done|].
  destruct (isLeaf this) eqn:Hleaf.
  - apply IH in Hr; [done| |done].
    apply isLeaf_true in Hleaf. rewrite Hleaf. apply valid_leaf.
  - destruct (findLeaf_spec this Hleaf) as ([[pth i] leaf] & Hfind & Hloc).
    rewrite Hfind in Hr. cbn in Hr. rewrite Node_eta in Hr.
    apply IH in Hr; [done| |done]. by apply promote_valid.
Qed.

Lemma insert_valid (this : Node) (p : Point) (r : Node) :
  valid this → insert this p = Done r → valid r.
Proof.
  intros Hv. unfold insert.
  destruct (Qgt_bool (Metric (_point this) p) (coveringDistance this)) eqn:Hgt.
  - destruct (raise _ this p _) as [this'| | |] eqn:Hraise; try done.
    cbn. intros [= <-]. rewrite Node_eta.
    apply raise_valid in Hraise as [Hv' Hd]; [|done..].
    apply valid_unfold. cbn [_children]. split; [split_and!|].
    + intros c ->%list_elem_of_singleton. cbn. lia.
    + intros c ->%list_elem_of_singleton. unfold coveringDistance in *. cbn [_point _level].
      by rewrite pow_succ, Metric_sym.
    + intros a b ca cb Hab Ha Hb. cbn [_children] in Ha, Hb.
      apply list_lookup_singleton_Some in Ha as [? _].
      apply list_lookup_singleton_Some in Hb as [? _]. lia.
    + constructor; [done|constructor].
  - intros [= <-]. apply insert__valid; [done|]. by apply Qgt_bool_false.
Qed.

End MetricSpace.

(** ** The loop of [insert] ends *)

Lemma farthest_spec (this : Node) (p x : Point) :
  x ∈ points this → Metric x p <= farthest this p.
Proof.
  unfold farthest. induction (points this) as [|y l IH]; [by intros ?%elem_of_nil|].
  intros [->|Hx]%elem_of_cons; cbn [foldr].
  - apply Q.le_max_l.
  - eapply Qle_trans; [by apply IH | apply Q.le_max_r].
Qed.

Lemma point_in_points (n : Node) : _point n ∈ points n.
Proof. rewrite points_unfold. apply elem_of_cons. by left. Qed.

Lemma raise_terminates (p : Point) (B : Z) (fuel : nat) :
  ∀ (this : Node) (d : Q),
  (∀ x, x ∈ points this → Metric x p < coveringConstant ^ B) →
  d = Metric (_point this) p → (B - _level this ≤ Z.of_nat fuel)%Z →
  ∃ r, raise fuel this p d = Done r.
Proof.
  induction fuel as [|fuel IH]; intros this d HB -> Hfuel; cbn [raise];
    destruct (Qgt_bool _ (2 * coveringDistance this)) eqn:Hgt; try by eexists.
  all: apply Qgt_bool_true in Hgt; unfold coveringDistance in Hgt;
    rewrite <- pow_succ in Hgt;
    assert (_level this + 1 < B)%Z as Hlt
      by (apply (Qpower_lt_compat_l_inv coveringConstant); [|done];
          eapply Qlt_trans; [exact Hgt | apply HB, point_in_points]).
  - lia.
  - destruct (isLeaf this) eqn:Hleaf.
    + apply IH; [|done|cbn; lia].
      intros x Hx. apply HB. by rewrite points_unfold in Hx |- *.
    + destruct (findLeaf_spec this Hleaf) as ([[pth i] leaf] & -> & Hloc).
      cbn. rewrite Node_eta. apply IH; [|done|cbn; rewrite remove_at_level; lia].
      destruct Hloc as (parent & Hget & Hi & _). cbn in Hget, Hi.
      intros x Hx. apply HB. rewrite (points_remove_at this pth i parent leaf) by done.
      rewrite points_unfold in Hx. cbn [_point _children] in Hx.
      apply elem_of_cons in Hx as [->|Hx].
      * apply elem_of_app. left. apply point_in_points.
      * apply elem_of_app. right. unfold points_of in Hx. cbn in Hx.
        by rewrite app_nil_r in Hx.
Qed.

Lemma insert_terminates (this : Node) (p : Point) : ∃ r, insert this p = Done r.
Proof.
  unfold insert. destruct (Qgt_bool _ _); [|by eexists].
  destruct (raise_terminates p (Qbound_lt_ZExp2 (farthest this p))
              (raise_fuel this p) this (Metric (_point this) p)) as [r ->].
  - intros x Hx. eapply Qle_lt_trans; [by apply farthest_spec|].
    apply Qbound_lt_ZExp2_spec.
  - done.
  - unfold raise_fuel. lia.
  - by eexists.
Qed.

(** C1: whatever points are inserted one after the other into a cover
    tree that satisfies the level, the covering and the separating
    invariant (the empty tree does), every insertion returns, and the tree
    then satisfies the three invariants again.  The metric is symmetric and
    satisfies the triangle inequality. *)
Theorem insert_keeps_invariants
    (Metric_sym : ∀ x y, Metric x y == Metric y x)
    (Metric_triangle : ∀ x y z, Metric x z <= Metric x y + Metric y z)
    (t : CoverTree) (ps : list Point) :
  levelInvariant t ∧ coveringInvariant t ∧ separatingInvariant t →
  ∃ t', tree_insert_range t ps = Done t' ∧
        levelInvariant t' ∧ coveringInvariant t' ∧ separatingInvariant t'.
Proof.
  revert t. induction ps as [|p ps IH]; intros t Ht; cbn [tree_insert_range].
  - by exists t.
  - assert (∃ t1, tree_insert t p = Done t1 ∧
              levelInvariant t1 ∧ coveringInvariant t1 ∧ separatingInvariant t1)
      as (t1 & -> & Ht1); [|by apply IH].
    destruct t as [root|]; cbn [tree_insert].
    + destruct (insert_terminates root p) as [root' Hroot]. rewrite Hroot.
      exists (Some root'). split; [done|].
      apply (proj1 (valid_invariants root')).
      eapply insert_valid; [done..| |done]. by apply valid_invariants.
    + exists (Some (mkNode p 0 [])). split; [done|].
      apply (proj1 (valid_invariants (mkNode p 0 []))), valid_leaf.
Qed.

Lemma raise_exit (p : Point) (fuel : nat) :
  ∀ (this : Node) (d : Q) (r : Node),
  d = Metric (_point this) p → raise fuel this p d = Done r →
  Metric (_point r) p <= 2 * coveringDistance r.
Proof.
  induction fuel as [|fuel IH]; intros this d r Hd Hr; cbn [raise] in Hr;
    destruct (Qgt_bool d (2 * coveringDistance this)) eqn:Hgt;
    try (apply Qgt_bool_false in Hgt; by simplify_eq); [done|].
  destruct (isLeaf this) eqn:Hleaf; [by apply IH in Hr|].
  destruct (findLeaf this) as [[[[pth i] leaf]|]| | |]; try done.
  cbn in Hr. by apply IH in Hr.
Qed.

(** C4: one round of the loop of [insert], and what follows the loop.
    While [d] exceeds twice the covering distance of the root: a root
    without children only gets its level raised; otherwise there is a leaf
    [leaf], child number [i] of the node at [pth], that is taken out of the
    tree and becomes the root, one level above the old root, whose only
    child is the old root without the leaf (no point is lost), and [d] is
    the distance from the new root.  Once [d] is at most twice the covering
    distance the loop returns.  [insert] then makes [p] the root, one level
    above the root [r] that the loop returned, with [r] as its only child. *)
Theorem insert_raises_root (this : Node) (p : Point) :
  (∀ (fuel : nat) (d : Q),
     (2 * coveringDistance this < d →
        (isLeaf this = true →
           raise (S fuel) this p d =
           raise fuel (mkNode (_point this) (_level this + 1) []) p d) ∧
        (isLeaf this = false →
           ∃ pth i parent leaf,
             get this pth = Some parent ∧ _children parent !! i = Some leaf ∧
             isLeaf leaf = true ∧
             _point (remove_at this pth i) = _point this ∧
             _level (remove_at this pth i) = _level this ∧
             points this ≡ₚ _point leaf :: points (remove_at this pth i) ∧
             raise (S fuel) this p d =
             raise fuel (mkNode (_point leaf) (_level this + 1) [remove_at this pth i])
                   p (Metric (_point leaf) p))) ∧
     (d <= 2 * coveringDistance this → raise fuel this p d = Done this)) ∧
  (coveringDistance this < Metric (_point this) p →
     ∃ r, raise (raise_fuel this p) this p (Metric (_point this) p) = Done r ∧
          Metric (_point r) p <= 2 * coveringDistance r ∧
          insert this p = Done (mkNode p (_level r + 1) [r])).
Proof.
  split; [intros fuel d; split|].
  - intros Hd%Qgt_bool_true. split; intros Hleaf; cbn [raise]; rewrite Hd, Hleaf.
    + apply isLeaf_true in Hleaf. by rewrite Hleaf.
    + destruct (findLeaf_spec this Hleaf) as ([[pth i] leaf] & -> & Hloc).
      destruct Hloc as (parent & Hget & Hi & Hl). cbn in Hget, Hi, Hl.
      exists pth, i, parent, leaf. split_and!; try done.
      * apply remove_at_point.
      * apply remove_at_level.
      * rewrite (points_remove_at this pth i parent leaf) by done.
        rewrite (points_unfold leaf). apply isLeaf_true in Hl. by rewrite Hl.
      * cbn. by rewrite Node_eta, remove_at_level.
  - intros Hd%Qgt_bool_false. destruct fuel; cbn [raise]; by rewrite Hd.
  - intros Hd%Qgt_bool_true. unfold insert. rewrite Hd.
    destruct (raise_terminates p (Qbound_lt_ZExp2 (farthest this p))
                (raise_fuel this p) this (Metric (_point this) p)) as [r Hr].
    + intros x Hx. eapply Qle_lt_trans; [by apply farthest_spec|].
      apply Qbound_lt_ZExp2_spec.
    + done.
    + unfold raise_fuel. lia.
    + exists r. rewrite Hr. split_and!; [done| |cbn; by rewrite Node_eta].
      by eapply raise_exit.
Qed.

(** ** The validity checks *)

Lemma deep_unfold (ok : Z → Node → Prop) (level : Z) (n : Node) :
  deep ok level n ↔ ok level n ∧ Forall (deep ok (level - 1)) (_children n).
Proof.
  destruct n as [pt lvl cs]. simpl.
  assert (∀ l : list Node,
    (fix go (l : list Node) : Prop :=
       match l with [] => True | c :: l' => deep ok (level - 1) c ∧ go l' end) l
    ↔ Forall (deep ok (level - 1)) l) as Hgo.
  { induction l as [|c l IHl]; [by split | by rewrite Forall_cons, IHl]. }
  by rewrite Hgo.
Qed.

Lemma sizes_next_wave (nodes : list Node) :
  (sizes (next_wave nodes) + length nodes = sizes nodes)%nat.
Proof.
  induction nodes as [|n nodes IH]; [done|].
  unfold next_wave in *. cbn [mbind list_bind]. fold (mbind (M:=list) _children nodes).
  rewrite sizes_app, sizes_cons, size_unfold. cbn [length]. lia.
Qed.

Section Scan.

Variable visit : Z → Node → option (list Node).
Variable ok : Z → Node → Prop.
Hypothesis visit_spec : ∀ level n,
  match visit level n with
  | Some pushed => pushed = _children n ∧ ok level n
  | None => ¬ ok level n
  end.

Lemma wave_spec (level : Z) (q1 : list Node) :
  ∀ q2 : list Node,
  match wave (visit level) (length q1) (q1 ++ q2) with
  | Some r => r = q2 ++ next_wave q1 ∧ Forall (ok level) q1
  | None => ¬ Forall (ok level) q1
  end.
Proof.
  induction q1 as [|n q1 IH]; intros q2; cbn [length app wave].
  - destruct q2; by rewrite ?app_nil_r.
  - pose proof (visit_spec level n) as Hn.
    destruct (visit level n) as [pushed|].
    + destruct Hn as [-> Hn]. rewrite <- (assoc_L (++)).
      specialize (IH (q2 ++ _children n)).
      destruct (wave _ _ _) as [r|].
      * destruct IH as [-> IH]. split; [|by constructor].
        by rewrite <- (assoc_L (++)).
      * by intros [_ ?]%Forall_cons.
    + by intros [? _]%Forall_cons.
Qed.

Lemma deep_wave (level : Z) (nodes : list Node) :
  Forall (deep ok level) nodes ↔
  Forall (ok level) nodes ∧ Forall (deep ok (level - 1)) (next_wave nodes).
Proof.
  induction nodes as [|n nodes IH]; [by split|].
  unfold next_wave in *. cbn [mbind list_bind]. fold (mbind (M:=list) _children nodes).
  rewrite !Forall_cons, Forall_app, deep_unfold, IH. tauto.
Qed.

Lemma scan_levels_spec (fuel : nat) :
  ∀ (nodes : list Node) (level : Z),
  (sizes nodes ≤ fuel)%nat →
  ∃ b, scan_levels visit fuel nodes level = Done b ∧
       (b = true ↔ Forall (deep ok level) nodes).
Proof.
  induction fuel as [|fuel IH]; intros [|n nodes] level Hfuel; cbn [scan_levels].
  - by exists true.
  - rewrite sizes_cons, size_unfold in Hfuel. lia.
  - by exists true.
  - pose proof (wave_spec level (n :: nodes) []) as Hw. rewrite app_nil_r in Hw.
    pose proof (sizes_next_wave (n :: nodes)) as Hsz. cbn [length] in Hsz.
    destruct (wave _ _ _) as [nodes'|].
    + destruct Hw as [-> Hok]. cbn [app].
      destruct (IH (next_wave (n :: nodes)) (level - 1)%Z) as (b & -> & Hb); [lia|].
      exists b. split; [done|]. rewrite Hb, (deep_wave level (n :: nodes)). tauto.
    + exists false. split; [done|]. rewrite (deep_wave level (n :: nodes)).
      split; [done|]. by intros [? _].
Qed.

End Scan.

Lemma deep_every (P : Node → Prop) (level : Z) (n : Node) :
  deep (λ _, P) level n ↔ every P n.
Proof.
  revert level. induction n as [pt lvl cs IH] using Node_induction. intros level.
  rewrite deep_unfold, every_unfold. cbn [_children].
  assert (Forall (deep (λ _, P) (level - 1)) cs ↔ Forall (every P) cs) as ->; [|done].
  induction IH as [|c cs Hc _ IHcs]; [by split|]. by rewrite !Forall_cons, Hc, IHcs.
Qed.

Lemma deep_level (level : Z) (n : Node) :
  deep (λ l m, _level m = (l - 1)%Z) (level + 1) n ↔
  _level n = level ∧ every levelOk n.
Proof.
  revert level. induction n as [pt lvl cs IH] using Node_induction. intros level.
  rewrite deep_unfold, every_unfold. unfold levelOk at 1. cbn [_children _level].
  assert (Forall (deep (λ l m, _level m = (l - 1)%Z) (level + 1 - 1)) cs ↔
          Forall (λ c, _level c = (level - 1)%Z) cs ∧ Forall (every levelOk) cs) as ->.
  { induction IH as [|c cs Hc _ IHcs]; [by split|].
    rewrite !Forall_cons, IHcs. replace (level + 1 - 1)%Z with (level - 1 + 1)%Z by lia.
    rewrite Hc. tauto. }
  rewrite Forall_forall. split.
  - intros (Hl & H1 & H2). replace lvl with level by lia. by split_and!.
  - intros (-> & H1 & H2). split_and!; [lia|done..].
Qed.

Lemma visit_level_spec (level : Z) (n : Node) :
  match visit_level level n with
  | Some pushed => pushed = _children n ∧ _level n = (level - 1)%Z
  | None => ¬ _level n = (level - 1)%Z
  end.
Proof.
  unfold visit_level. destruct (Z.eqb_spec (_level n) (level - 1)); cbn; by auto.
Qed.

Lemma visit_covering_spec (parent : Node) (cs pushed : list Node) :
  match visit_covering parent cs pushed with
  | Some r =>
      r = pushed ++ cs ∧
      ∀ c, c ∈ cs → Metric (_point parent) (_point c) <= coveringDistance parent
  | None =>
      ¬ ∀ c, c ∈ cs → Metric (_point parent) (_point c) <= coveringDistance parent
  end.
Proof.
  revert pushed. induction cs as [|c cs IH]; intros pushed; cbn [visit_covering].
  - rewrite app_nil_r. split; [done|]. by intros c ?%elem_of_nil.
  - destruct (Qgt_bool _ _) eqn:Hgt.
    + apply Qgt_bool_true in Hgt. intros H.
      apply (Qlt_not_le _ _ Hgt), H, elem_of_cons. by left.
    + apply Qgt_bool_false in Hgt. specialize (IH (pushed ++ [c])).
      destruct (visit_covering _ _ _) as [r|].
      * destruct IH as [-> IH]. split; [by rewrite <- (assoc_L (++))|].
        intros c' [->|?]%elem_of_cons; auto.
      * intros H. apply IH. intros c' Hc'. apply H, elem_of_cons. by right.
Qed.

Lemma apart_cons (sd : Q) (c : Node) (cs : list Node) :
  apart sd (c :: cs) ↔
  (∀ c2, c2 ∈ cs → sd < Metric (_point c) (_point c2)) ∧ apart sd cs.
Proof.
  split.
  - intros H. split.
    + intros c2 [j Hj]%list_elem_of_lookup. apply (H 0%nat (S j)); [lia|done..].
    + intros i j ci cj Hij Hi Hj. apply (H (S i) (S j)); [lia|done..].
  - intros [H1 H2] i j ci cj Hij Hi Hj.
    destruct j as [|j]; [lia|]. cbn in Hj. destruct i as [|i].
    + cbn in Hi. simplify_eq. apply H1. by eapply list_elem_of_lookup_2.
    + apply (H2 i j); [lia|done..].
Qed.

Lemma visit_separating_spec (parent : Node) (cs pushed : list Node) :
  match visit_separating parent cs pushed with
  | Some r => r = pushed ++ cs ∧ apart (separatingDistance parent) cs
  | None => ¬ apart (separatingDistance parent) cs
  end.
Proof.
  revert pushed. induction cs as [|c cs IH]; intros pushed; cbn [visit_separating].
  - rewrite app_nil_r. split; [done|]. by intros i j ci cj _ ?.
  - destruct (existsb _ cs) eqn:Hex.
    + apply existsb_exists in Hex as (c2 & Hc2 & Hle).
      apply Qle_bool_iff in Hle. intros [H _]%apart_cons.
      apply (Qlt_not_le _ _ (H c2 (proj2 (list_elem_of_In _ _) Hc2)) Hle).
    + specialize (IH (pushed ++ [c])).
      destruct (visit_separating _ _ _) as [r|].
      * destruct IH as [-> IH]. split; [by rewrite <- (assoc_L (++))|].
        apply apart_cons. split; [|done].
        intros c2 Hc2. apply Qnot_le_lt. intros Hle.
        apply not_true_iff_false in Hex. apply Hex, existsb_exists.
        exists c2. split; [by apply list_elem_of_In | by apply Qle_bool_iff].
      * by intros [_ ?]%apart_cons.
Qed.

Lemma every_iff (P R : Node → Prop) (n : Node) :
  (∀ m, P m ↔ R m) → every P n ↔ every R n.
Proof.
  intros HPR. induction n as [pt lvl cs IH] using Node_induction.
  rewrite !every_unfold, HPR. cbn [_children].
  assert (Forall (every P) cs ↔ Forall (every R) cs) as ->; [|done].
  induction IH as [|c cs Hc _ IHcs]; [by split|]. by rewrite !Forall_cons, Hc, IHcs.
Qed.

Lemma separatingFwd_sym (n : Node) :
  (∀ x y, Metric x y == Metric y x) → separatingFwd n ↔ separatingOk n.
Proof.
  intros Hsym. split; intros H i j ci cj Hij Hi Hj.
  - destruct (decide (i < j)%nat); [by apply (H i j)|].
    rewrite Hsym. apply (H j i); [lia|done..].
  - apply (H i j); [lia|done..].
Qed.

(** C8, on a tree that has a root: each of the three checks returns a
    boolean, which is [true] exactly when no node of the tree violates the
    invariant that the check tests, and [isValid] returns the conjunction
    of the three.  The checks are [const] member functions: they are
    functions of the tree and return nothing but the boolean. *)
Theorem checks_return (root : Node) :
  ∃ b1 b2 b3 : bool,
    checkLevelInvariant (Some root) = Done b1 ∧
    checkCoveringInvariant (Some root) = Done b2 ∧
    checkSeparatingInvariant (Some root) = Done b3 ∧
    isValid (Some root) = Done (b1 && b2 && b3) ∧
    (b1 = true ↔ levelInvariant (Some root)) ∧
    (b2 = true ↔ coveringInvariant (Some root)) ∧
    (b3 = true ↔ every separatingFwd root) ∧
    ((∀ x y, Metric x y == Metric y x) →
     (b3 = true ↔ separatingInvariant (Some root))).
Proof.
  assert (sizes [root] ≤ size root)%nat as Hfuel.
  { rewrite sizes_cons. unfold sizes. cbn [foldr]. lia. }
  destruct (scan_levels_spec visit_level (λ l m, _level m = (l - 1)%Z)
              visit_level_spec (size root) [root] (_level root + 1) Hfuel)
    as (b1 & H1 & Hb1).
  destruct (scan_levels_spec (λ _ parent, visit_covering parent (_children parent) [])
              (λ _, coveringOk) (λ _ n, visit_covering_spec n (_children n) [])
              (size root) [root] 0 Hfuel) as (b2 & H2 & Hb2).
  destruct (scan_levels_spec (λ _ parent, visit_separating parent (_children parent) [])
              (λ _, separatingFwd) (λ _ n, visit_separating_spec n (_children n) [])
              (size root) [root] 0 Hfuel) as (b3 & H3 & Hb3).
  rewrite Forall_singleton in Hb1, Hb2, Hb3.
  rewrite deep_level in Hb1. rewrite deep_every in Hb2, Hb3.
  exists b1, b2, b3. unfold isValid. cbn [checkLevelInvariant checkCoveringInvariant
    checkSeparatingInvariant levelInvariant coveringInvariant separatingInvariant].
  rewrite H1, H2, H3. split_and!; try done.
  - cbn. destruct b1; cbn; [|done]. by destruct b2.
  - rewrite Hb1. tauto.
  - intros Hsym. rewrite Hb3. apply every_iff. intros m. by apply separatingFwd_sym.
Qed.

(** ** The traversals that collect *)

Lemma nodes_of_unfold (n : Node) : nodes_of n = n :: (_children n ≫= nodes_of).
Proof.
  by destruct n.
Qed.

Lemma points_nodes_of (n : Node) : points n = _point <$> nodes_of n.
Proof.
  induction n as [pt lvl cs IH] using Node_induction.
  rewrite points_unfold, nodes_of_unfold, fmap_cons. cbn [_point _children]. f_equal.
  induction IH as [|c cs Hc _ IHcs]; [done|].
  by rewrite points_of_cons, bind_cons, fmap_app, Hc, IHcs.
Qed.

Lemma length_nodes_of (n : Node) : length (nodes_of n) = size n.
Proof.
  induction n as [pt lvl cs IH] using Node_induction.
  rewrite size_unfold, nodes_of_unfold. cbn [_children length]. f_equal.
  induction IH as [|c cs Hc _ IHcs]; [done|].
  by rewrite sizes_cons, bind_cons, length_app, Hc, IHcs.
Qed.

Lemma every_nodes_of (P : Node → Prop) (n : Node) : every P n ↔ Forall P (nodes_of n).
Proof.
  induction n as [pt lvl cs IH] using Node_induction.
  rewrite every_unfold, nodes_of_unfold, Forall_cons. cbn [_children].
  assert (Forall (every P) cs ↔ Forall P (cs ≫= nodes_of)) as ->; [|done].
  induction IH as [|c cs Hc _ IHcs]; [by split|].
  by rewrite bind_cons, Forall_cons, Forall_app, Hc, IHcs.
Qed.

Lemma next_wave_cons (n : Node) (nodes : list Node) :
  next_wave (n :: nodes) = _children n ++ next_wave nodes.
Proof. apply bind_cons. Qed.

Lemma next_wave_app (l1 l2 : list Node) :
  next_wave (l1 ++ l2) = next_wave l1 ++ next_wave l2.
Proof. apply bind_app. Qed.

Lemma collect_wave_spec {Acc : Type} (act : Acc → Node → Acc) (q1 : list Node) :
  ∀ (q2 : list Node) (acc : Acc),
  collect_wave act (length q1) (q1 ++ q2) acc = (q2 ++ next_wave q1, foldl act acc q1).
Proof.
  induction q1 as [|n q1 IH]; intros q2 acc; cbn [length app collect_wave foldl].
  - destruct q2; by rewrite ?app_nil_r.
  - by rewrite <- (assoc_L (++)), IH, next_wave_cons, <- (assoc_L (++)).
Qed.

Lemma collect_spec {Acc : Type} (act : Acc → Node → Acc) (fuel : nat) :
  ∀ (nodes : list Node) (acc : Acc),
  (sizes nodes ≤ fuel)%nat →
  collect act fuel nodes acc = Done (foldl act acc (bfs fuel nodes)).
Proof.
  induction fuel as [|fuel IH]; intros [|n nodes] acc Hfuel; cbn [collect bfs]; try done.
  - rewrite sizes_cons, size_unfold in Hfuel. lia.
  - pose proof (collect_wave_spec act (n :: nodes) [] acc) as Hw.
    rewrite app_nil_r in Hw. rewrite Hw. cbn [app].
    pose proof (sizes_next_wave (n :: nodes)) as Hsz. cbn [length] in Hsz.
    rewrite IH by lia. f_equal. symmetry. apply (foldl_app act (n :: nodes)).
Qed.

Lemma bind_nodes_of (nodes : list Node) :
  nodes ≫= nodes_of ≡ₚ nodes ++ (next_wave nodes ≫= nodes_of).
Proof.
  induction nodes as [|n nodes IH]; [done|].
  rewrite bind_cons, next_wave_cons, bind_app, nodes_of_unfold, IH. cbn [app].
  constructor. rewrite !(assoc_L (++)). apply Permutation_app_tail, Permutation_app_comm.
Qed.

Lemma bfs_nodes_of (fuel : nat) :
  ∀ nodes : list Node, (sizes nodes ≤ fuel)%nat → bfs fuel nodes ≡ₚ nodes ≫= nodes_of.
Proof.
  induction fuel as [|fuel IH]; intros [|n nodes] Hfuel; cbn [bfs]; try done.
  - rewrite sizes_cons, size_unfold in Hfuel. lia.
  - pose proof (sizes_next_wave (n :: nodes)) as Hsz. cbn [length] in Hsz.
    rewrite IH by lia. by rewrite (bind_nodes_of (n :: nodes)).
Qed.

Lemma bind_at_depth (k : nat) (nodes : list Node) :
  next_wave nodes ≫= at_depth k = nodes ≫= at_depth (S k).
Proof.
  induction nodes as [|n nodes IH]; [done|].
  by rewrite next_wave_cons, bind_app, bind_cons, IH.
Qed.

Lemma bfs_at_depth (fuel : nat) :
  ∀ nodes : list Node, bfs fuel nodes = seq 0 fuel ≫= λ k, nodes ≫= at_depth k.
Proof.
  induction fuel as [|fuel IH]; intros nodes; [by destruct nodes|].
  assert (∀ (l : list nat), l ≫= (λ k, ([] : list Node) ≫= at_depth k) = []) as Hnil.
  { induction l as [|k l IHl]; [done|]. by rewrite bind_cons, IHl. }
  destruct nodes as [|n nodes]; [by rewrite Hnil|].
  cbn [bfs seq]. rewrite bind_cons, IH. f_equal.
  - generalize (n :: nodes). induction l as [|m l IHl]; [done|].
    rewrite bind_cons. change (at_depth 0 m) with [m]. cbn [app]. by f_equal.
  - rewrite <- fmap_S_seq. generalize (seq 0 fuel).
    induction l as [|k l IHl]; [done|].
    by rewrite fmap_cons, !bind_cons, IHl, bind_at_depth.
Qed.

Lemma sizes_singleton (root : Node) : (sizes [root] ≤ size root)%nat.
Proof. rewrite sizes_cons. unfold sizes. cbn [foldr]. lia. Qed.

Lemma foldl_snoc_points (l : list Node) (acc : list Point) :
  foldl (λ result node, result ++ [_point node]) acc l = acc ++ (_point <$> l).
Proof.
  revert acc. induction l as [|n l IH]; intros acc; cbn [foldl fmap list_fmap].
  - by rewrite app_nil_r.
  - by rewrite IH, <- (assoc_L (++)).
Qed.

Lemma tree_points_bfs (root : Node) :
  tree_points (Some root) = Done (_point <$> bfs (size root) [root]).
Proof.
  unfold tree_points. rewrite collect_spec by apply sizes_singleton.
  by rewrite foldl_snoc_points.
Qed.

(** X1: [points()] on a tree with a root returns the points of the nodes
    level by level: first the root, then its children from the first to
    the last, then their children, and so on.  Every node contributes its
    point once, so a point that is stored twice is listed twice.  On the
    empty tree the traversal reads through the null root pointer. *)
Theorem tree_points_level_order (root : Node) :
  tree_points None = NullDeref ∧
  ∃ l, tree_points (Some root) = Done l ∧
       l = _point <$> (seq 0 (size root) ≫= λ k, at_depth k root) ∧
       l ≡ₚ points root ∧
       length l = size root ∧
       head l = Some (_point root).
Proof.
  split; [done|]. eexists. split; [apply tree_points_bfs|].
  assert (bfs (size root) [root] ≡ₚ nodes_of root) as Hperm.
  { rewrite bfs_nodes_of by apply sizes_singleton.
    by rewrite bind_cons, app_nil_r. }
  split_and!.
  - rewrite bfs_at_depth. f_equal. generalize (seq 0 (size root)).
    induction l as [|k l IHl]; [done|].
    by rewrite !bind_cons, IHl, app_nil_r.
  - by rewrite Hperm, points_nodes_of.
  - by rewrite length_fmap, Hperm, length_nodes_of.
  - rewrite size_unfold. done.
Qed.
(** ** What an insertion keeps *)

Lemma insert__points (n : Node) (p : Point) : points (insert_ n p) ≡ₚ p :: points n.
Proof.
  induction n as [pt lvl cs IH] using Node_induction.
  rewrite insert__unfold.
  destruct (descend _ p cs) as [cs'|] eqn:Hd.
  - apply descend_Some in Hd as (l1 & c & l2 & -> & _ & _ & ->).
    apply Forall_app in IH as [_ IH]. apply Forall_cons in IH as [IHp _].
    rewrite !points_unfold. cbn [_point _children].
    rewrite !points_of_app, !points_of_cons, IHp. cbn [app].
    rewrite <- Permutation_middle. apply perm_swap.
  - rewrite !points_unfold. cbn [_point _children]. rewrite points_of_app.
    cbn. rewrite <- Permutation_middle, app_nil_r. apply perm_swap.
Qed.

Lemma raise_points (p : Point) (fuel : nat) :
  ∀ (this : Node) (d : Q) (r : Node),
  raise fuel this p d = Done r → points r ≡ₚ points this.
Proof.
  induction fuel as [|fuel IH]; intros this d r Hr; cbn [raise] in Hr;
    destruct (Qgt_bool d (2 * coveringDistance this)) eqn:Hgt;
    try (by simplify_eq).
  destruct (isLeaf this) eqn:Hleaf.
  - apply IH in Hr. rewrite Hr. by rewrite !points_unfold.
  - destruct (findLeaf_spec this Hleaf) as ([[pth i] leaf] & Hfind & Hloc).
    rewrite Hfind in Hr. cbn in Hr. rewrite Node_eta in Hr. apply IH in Hr.
    destruct Hloc as (parent & Hget & Hi & Hl). cbn in Hget, Hi, Hl.
    rewrite Hr, (points_remove_at this pth i parent leaf) by done.
    rewrite (points_unfold leaf), (points_unfold (mkNode _ _ _)).
    apply isLeaf_true in Hl. rewrite Hl. cbn. by rewrite app_nil_r.
Qed.

Lemma raise_level (p : Point) (fuel : nat) :
  ∀ (this : Node) (d : Q) (r : Node),
  raise fuel this p d = Done r → (_level this ≤ _level r)%Z.
Proof.
  induction fuel as [|fuel IH]; intros this d r Hr; cbn [raise] in Hr;
    destruct (Qgt_bool d (2 * coveringDistance this)) eqn:Hgt;
    try (by simplify_eq).
  destruct (isLeaf this) eqn:Hleaf.
  - apply IH in Hr. cbn in Hr. lia.
  - destruct (findLeaf this) as [[[[pth i] leaf]|]| | |]; try done.
    cbn in Hr. apply IH in Hr. cbn in Hr. rewrite remove_at_level in Hr. lia.
Qed.

Lemma insert_points (this : Node) (p : Point) (r : Node) :
  insert this p = Done r → points r ≡ₚ p :: points this.
Proof.
  unfold insert. destruct (Qgt_bool _ _).
  - destruct (raise _ this p _) as [this'| | |] eqn:Hraise; try done.
    cbn. intros [= <-]. rewrite Node_eta, points_unfold. cbn.
    apply raise_points in Hraise. by rewrite app_nil_r, Hraise.
  - intros [= <-]. apply insert__points.
Qed.

Lemma tree_insert_stored (t t' : CoverTree) (p : Point) :
  tree_insert t p = Done t' → is_Some t' ∧ stored t' ≡ₚ p :: stored t.
Proof.
  destruct t as [root|]; cbn [tree_insert].
  - destruct (insert root p) as [root'| | |] eqn:Hins; try done.
    cbn. intros [= <-]. split; [done|]. by apply insert_points.
  - intros [= <-]. by split.
Qed.

Lemma tree_insert_returns (t : CoverTree) (p : Point) : ∃ t', tree_insert t p = Done t'.
Proof.
  destruct t as [root|]; cbn [tree_insert]; [|by eexists].
  destruct (insert_terminates root p) as [r ->]. by eexists.
Qed.

Lemma tree_insert_range_stored (ps : list Point) :
  ∀ t : CoverTree,
  ∃ t', tree_insert_range t ps = Done t' ∧ stored t' ≡ₚ ps ++ stored t ∧
        (is_Some t ∨ ps ≠ [] → is_Some t').
Proof.
  induction ps as [|p ps IH]; intros t; cbn [tree_insert_range].
  - exists t. split_and!; [done..|]. by intros [?|?].
  - destruct (tree_insert_returns t p) as [t1 Ht1]. rewrite Ht1. cbn.
    apply tree_insert_stored in Ht1 as [Hsome Ht1].
    destruct (IH t1) as (t' & -> & Hperm & Hroot). exists t'. split_and!; [done| |auto].
    rewrite Hperm, Ht1. by rewrite <- Permutation_middle.
Qed.

(** X2: whatever points are inserted one after the other, every insertion
    returns, and [points()] then lists the points that were stored before
    together with the inserted ones, each as often as it was inserted:
    no point is lost and none is made up.  The tree has a root or at
    least one point is inserted. *)
Theorem insertions_are_listed (t : CoverTree) (ps : list Point) :
  is_Some t ∨ ps ≠ [] →
  ∃ t' l, tree_insert_range t ps = Done t' ∧ tree_points t' = Done l ∧
          l ≡ₚ ps ++ stored t.
Proof.
  intros Hne. destruct (tree_insert_range_stored ps t) as (t' & Ht' & Hperm & Hroot).
  destruct (Hroot Hne) as [root ->].
  exists (Some root), (_point <$> bfs (size root) [root]).
  split_and!; [done|apply tree_points_bfs|].
  rewrite <- Hperm. cbn [stored].
  rewrite bfs_nodes_of by apply sizes_singleton.
  by rewrite bind_cons, app_nil_r, points_nodes_of.
Qed.

(** X3: [Node::insert] returns.  A point within the covering distance of
    the root goes below the root, which keeps its point and its level.  A
    point farther away becomes the new root, its level is above the level
    of the old root, and it has one child, which lies within the covering
    distance of the new root. *)
Theorem insert_root (this : Node) (p : Point) :
  ∃ r, insert this p = Done r ∧
       (Metric (_point this) p <= coveringDistance this →
          r = insert_ this p ∧ _point r = _point this ∧ _level r = _level this) ∧
       (coveringDistance this < Metric (_point this) p →
          _point r = p ∧ (_level this < _level r)%Z ∧
          ∃ c, _children r = [c] ∧ _level c = (_level r - 1)%Z ∧
               Metric (_point c) p <= coveringDistance r).
Proof.
  destruct (insert_terminates this p) as [r Hr]. exists r. split; [done|].
  unfold insert in Hr. split.
  - intros Hd%Qgt_bool_false. rewrite Hd in Hr. simplify_eq.
    by rewrite insert__point, insert__level.
  - intros Hd%Qgt_bool_true. rewrite Hd in Hr.
    destruct (raise _ this p _) as [this'| | |] eqn:Hraise; try done.
    cbn in Hr. simplify_eq. rewrite Node_eta. cbn [_point _level _children].
    pose proof (raise_level _ _ _ _ _ Hraise) as Hlev.
    apply raise_exit in Hraise; [|done].
    split_and!; [done|lia|]. exists this'. split_and!; [done|lia|].
    unfold coveringDistance in *. cbn [_level]. by rewrite pow_succ.
Qed.

(** X4: [level()] is 0 on the empty tree and the level of the root
    otherwise, and it never goes down: after any sequence of insertions it
    is at least what it was before. *)
Theorem tree_level_never_drops (t : CoverTree) (ps : list Point) :
  tree_level None = 0%Z ∧
  ∃ t', tree_insert_range t ps = Done t' ∧ (tree_level t ≤ tree_level t')%Z.
Proof.
  split; [done|]. revert t. induction ps as [|p ps IH]; intros t; cbn [tree_insert_range].
  - exists t. split; [done|lia].
  - assert (∃ t1, tree_insert t p = Done t1 ∧ (tree_level t ≤ tree_level t1)%Z)
      as (t1 & -> & Ht1).
    { destruct t as [root|]; cbn [tree_insert]; [|by eexists].
      destruct (insert_terminates root p) as [r Hr]. rewrite Hr.
      exists (Some r). split; [done|]. cbn [tree_level].
      unfold insert in Hr. destruct (Qgt_bool _ _).
      - destruct (raise _ root p _) as [this'| | |] eqn:Hraise; try done.
        apply raise_level in Hraise. cbn in Hr. simplify_eq. cbn. lia.
      - simplify_eq. rewrite insert__level. lia. }
    cbn. destruct (IH t1) as (t' & -> & Ht'). exists t'. split; [done|lia].
Qed.

(** X5: [insert_] moves nothing: a path that led to a node before still
    leads to a node with the same point and the same level.  That node is
    the old node itself, or the old node after [insert_] was applied to
    it, when the new point went below it. *)
Theorem insert__keeps_paths (n : Node) (p : Point) (pth : path) (m : Node) :
  get n pth = Some m →
  ∃ m', get (insert_ n p) pth = Some m' ∧ _point m' = _point m ∧
        _level m' = _level m ∧ (m' = m ∨ m' = insert_ m p).
Proof.
  revert pth. induction n as [pt lvl cs IH] using Node_induction. intros [|i pth] Hget.
  { cbn [get] in *. simplify_eq. eexists. split; [done|].
    rewrite insert__point, insert__level. auto. }
  cbn [get _children] in Hget. destruct (cs !! i) as [c|] eqn:Hi; [|done].
  assert (∃ m', get c pth = Some m' ∧ _point m' = _point m ∧
                _level m' = _level m ∧ (m' = m ∨ m' = insert_ m p)) as Hsame.
  { exists m. by split_and!; auto. }
  rewrite insert__unfold. destruct (descend _ p cs) as [cs'|] eqn:Hd; cbn [get _children].
  - apply descend_Some in Hd as (l1 & c0 & l2 & -> & _ & _ & ->).
    destruct (decide (i = length l1)) as [->|Hne].
    + rewrite list_lookup_middle in Hi |- * by done. simplify_eq.
      apply Forall_app in IH as [_ IH]. apply Forall_cons in IH as [IH _]. by apply IH.
    + destruct (decide (i < length l1)%nat).
      * rewrite lookup_app_l in Hi |- * by done. by rewrite Hi.
      * rewrite lookup_app_r in Hi |- * by lia.
        destruct (i - length l1)%nat as [|k] eqn:Hk; [lia|]. cbn in Hi |- *. by rewrite Hi.
  - rewrite lookup_app_l by (by eapply lookup_lt_Some). by rewrite Hi.
Qed.

(** ** Geometry of a tree that satisfies the invariants *)

(** X6: in a tree that satisfies the level and the covering invariant,
    every node below the root lies within twice the covering distance of
    the root; the metric satisfies the triangle inequality. *)
Theorem descendants_are_near
    (Metric_triangle : ∀ x y z, Metric x z <= Metric x y + Metric y z)
    (root : Node) (pth : path) (m : Node) :
  levelInvariant (Some root) → coveringInvariant (Some root) →
  get root pth = Some m → pth ≠ [] →
  Metric (_point root) (_point m) < 2 * coveringDistance root.
Proof.
  cbn [levelInvariant coveringInvariant].
  revert root. induction pth as [|i pth IH]; intros n Hl Hc Hget Hne; [done|].
  cbn [get] in Hget. destruct (_children n !! i) as [c|] eqn:Hi; [|done].
  apply every_unfold in Hl as [H1 Hls]. apply every_unfold in Hc as [H2 Hcs].
  assert (c ∈ _children n) as Hin by (by eapply list_elem_of_lookup_2).
  pose proof (H2 c Hin) as Hcov. pose proof (H1 c Hin) as Hlev.
  pose proof (pow_pos (_level n)) as Hpos. unfold coveringDistance in *.
  destruct pth as [|j pth].
  - simplify_eq/=. lra.
  - assert (every levelOk c) as Hlc by (by eapply Forall_forall in Hls).
    assert (every coveringOk c) as Hcc by (by eapply Forall_forall in Hcs).
    specialize (IH c Hlc Hcc Hget ltac:(done)).
    pose proof (Metric_triangle (_point n) (_point c) (_point m)) as Htri.
    rewrite Hlev in IH. pose proof (pow_pred (_level n)) as Hpred. lra.
Qed.

Lemma valid_checks (root : Node) :
  every levelOk root → every coveringOk root → every separatingFwd root →
  isValid (Some root) = Done true.
Proof.
  intros Hl Hc Hs. pose proof (sizes_singleton root) as Hfuel.
  destruct (scan_levels_spec visit_level (λ l m, _level m = (l - 1)%Z)
              visit_level_spec (size root) [root] (_level root + 1) Hfuel)
    as (b1 & H1 & Hb1).
  destruct (scan_levels_spec (λ _ parent, visit_covering parent (_children parent) [])
              (λ _, coveringOk) (λ _ n, visit_covering_spec n (_children n) [])
              (size root) [root] 0 Hfuel) as (b2 & H2 & Hb2).
  destruct (scan_levels_spec (λ _ parent, visit_separating parent (_children parent) [])
              (λ _, separatingFwd) (λ _ n, visit_separating_spec n (_children n) [])
              (size root) [root] 0 Hfuel) as (b3 & H3 & Hb3).
  rewrite Forall_singleton in Hb1, Hb2, Hb3.
  rewrite deep_level in Hb1. rewrite deep_every in Hb2, Hb3.
  unfold isValid. cbn [checkLevelInvariant checkCoveringInvariant checkSeparatingInvariant].
  rewrite H1, H2, H3.
  rewrite (proj2 Hb1), (proj2 Hb2), (proj2 Hb3) by done. done.
Qed.

(** X7: after the insertion of one or more points into the empty tree
    [isValid()] returns [true], for a metric that is symmetric and
    satisfies the triangle inequality. *)
Theorem isValid_after_insertions
    (Metric_sym : ∀ x y, Metric x y == Metric y x)
    (Metric_triangle : ∀ x y z, Metric x z <= Metric x y + Metric y z)
    (p : Point) (ps : list Point) :
  ∃ t, tree_insert_range None (p :: ps) = Done t ∧ isValid t = Done true.
Proof.
  cbn [tree_insert_range tree_insert]. cbn.
  assert (∀ (root : Node), valid root →
    ∃ t, tree_insert_range (Some root) ps = Done t ∧ isValid t = Done true) as Hall;
    [|apply Hall, valid_leaf].
  induction ps as [|q ps IH]; intros root Hv; cbn [tree_insert_range tree_insert].
  - exists (Some root). split; [done|].
    apply valid_invariants in Hv as (Hl & Hc & Hs).
    apply valid_checks; [done..|].
    revert Hs. apply every_iff. intros m. by rewrite separatingFwd_sym.
  - destruct (insert_terminates root q) as [r Hr]. rewrite Hr. cbn.
    apply IH. by eapply insert_valid.
Qed.
(** ** The maps of [getNodesByLevel] and [nodesToLevel] *)

Lemma multimap_insert_perm (k : Z) (v : Point) (m : list (Z * Point)) :
  multimap_insert k v m ≡ₚ (k, v) :: m.
Proof.
  induction m as [|e m IH]; [done|]. cbn [multimap_insert].
  destruct (k <? e.1)%Z; [done|]. by rewrite IH, perm_swap.
Qed.

Lemma multimap_insert_sorted (k : Z) (v : Point) (m : list (Z * Point)) :
  StronglySorted (λ a b, (a.1 ≤ b.1)%Z) m →
  StronglySorted (λ a b, (a.1 ≤ b.1)%Z) (multimap_insert k v m).
Proof.
  induction 1 as [|e m Hm IH He]; cbn [multimap_insert].
  - repeat constructor.
  - destruct (Z.ltb_spec k e.1).
    + constructor; [by constructor|]. constructor; [cbn; lia|].
      eapply Forall_impl; [exact He|]. cbn. intros; lia.
    + constructor; [done|]. rewrite multimap_insert_perm.
      constructor; [cbn; lia|done].
Qed.

Lemma getNodesByLevel_fold (l : list Node) (m : list (Z * Point)) :
  StronglySorted (λ a b, (a.1 ≤ b.1)%Z) m →
  foldl (λ levelMap node, multimap_insert (_level node) (_point node) levelMap) m l
    ≡ₚ m ++ ((λ n, (_level n, _point n)) <$> l) ∧
  StronglySorted (λ a b, (a.1 ≤ b.1)%Z)
    (foldl (λ levelMap node, multimap_insert (_level node) (_point node) levelMap) m l).
Proof.
  revert m. induction l as [|n l IH]; intros m Hm; cbn [foldl fmap list_fmap].
  - by rewrite app_nil_r.
  - destruct (IH (multimap_insert (_level n) (_point n) m)) as [Hperm Hsorted];
      [by apply multimap_insert_sorted|].
    split; [|done]. rewrite Hperm, multimap_insert_perm.
    by rewrite <- Permutation_middle.
Qed.

(** X8: [getNodesByLevel()] on a tree with a root returns one entry per
    node, the level and the point of the node, so a point that is stored
    twice has two entries; the entries are ordered by level, the lowest
    level first.  On the empty tree the traversal reads through the null
    root pointer. *)
Theorem getNodesByLevel_entries (root : Node) :
  getNodesByLevel None = NullDeref ∧
  ∃ m, getNodesByLevel (Some root) = Done m ∧
       m ≡ₚ (λ n, (_level n, _point n)) <$> nodes_of root ∧
       StronglySorted (λ a b, (a.1 ≤ b.1)%Z) m ∧
       length m = size root.
Proof.
  split; [done|]. unfold getNodesByLevel.
  rewrite collect_spec by apply sizes_singleton.
  destruct (getNodesByLevel_fold (bfs (size root) [root]) []) as [Hperm Hsorted];
    [constructor|].
  assert (bfs (size root) [root] ≡ₚ nodes_of root) as Hbfs.
  { rewrite bfs_nodes_of by apply sizes_singleton. by rewrite bind_cons, app_nil_r. }
  eexists. split_and!; [done| |done|].
  - by rewrite Hperm, Hbfs.
  - by rewrite Hperm, Hbfs, app_nil_l, length_fmap, length_nodes_of.
Qed.

(** In a tree that satisfies the level invariant the traversal meets the
    nodes in the order of their levels, the highest level first. *)
Lemma bfs_levels (fuel : nat) :
  ∀ (nodes : list Node) (l : Z),
  Forall (λ n, _level n = l ∧ every levelOk n) nodes →
  StronglySorted (λ a b, (_level b ≤ _level a)%Z) (bfs fuel nodes) ∧
  Forall (λ n, (_level n ≤ l)%Z) (bfs fuel nodes).
Proof.
  induction fuel as [|fuel IH]; intros nodes l Hnodes; [by split; constructor|].
  destruct nodes as [|n nodes]; [by split; constructor|]. cbn [bfs].
  destruct (IH (next_wave (n :: nodes)) (l - 1)%Z) as [Hs Hle].
  { clear IH. induction Hnodes as [|c cs [Hc1 Hc2] _ IHcs]; [constructor|].
    rewrite next_wave_cons. apply Forall_app. split; [|done].
    apply every_unfold in Hc2 as [Hl Hcs]. apply Forall_forall. intros x Hx.
    split; [rewrite (Hl x Hx); lia | by eapply Forall_forall in Hcs]. }
  split.
  - apply StronglySorted_app_2; [| |done].
    + intros x1 x2 Hx1 Hx2.
      pose proof (proj1 (Forall_forall _ _) Hnodes x1 Hx1) as [Hl1 _].
      pose proof (proj1 (Forall_forall _ _) Hle x2 Hx2) as Hl2. cbn in Hl2. lia.
    + clear -Hnodes. induction Hnodes as [|c cs [Hc1 Hc2] Hcs IHcs]; constructor; [done|].
      eapply Forall_impl; [exact Hcs|]. cbn. intros x [-> _]. lia.
  - apply Forall_app. split.
    + eapply Forall_impl; [exact Hnodes|]. cbn. intros x [-> _]. lia.
    + eapply Forall_impl; [exact Hle|]. cbn. intros; lia.
Qed.

Section OrderedFacts.

Context `{Countable Point}.

Lemma map_insert_lookup (m : gmap Point Z) (k : Point) (v : Z) (p : Point) :
  map_insert m k v !! p =
  match m !! p with
  | Some l => Some l
  | None => if decide (k = p) then Some v else None
  end.
Proof.
  unfold map_insert. destruct (m !! k) as [l|] eqn:Hk.
  - destruct (m !! p) as [l'|] eqn:Hp; [done|]. destruct (decide (k = p)); [congruence|done].
  - destruct (decide (k = p)) as [->|Hne].
    + by rewrite lookup_insert_eq, Hk.
    + rewrite lookup_insert_ne by done. by destruct (m !! p).
Qed.

Lemma nodesToLevel_fold (l : list Node) (m : gmap Point Z) (p : Point) :
  foldl (λ levelMap node, map_insert levelMap (_point node) (_level node)) m l !! p =
  match m !! p with
  | Some lvl => Some lvl
  | None => _level <$> head (filter (λ n, _point n = p) l)
  end.
Proof.
  revert m. induction l as [|n l IH]; intros m; cbn [foldl].
  - by destruct (m !! p).
  - rewrite IH, map_insert_lookup, filter_cons.
    destruct (m !! p); [done|]. by destruct (decide (_point n = p)).
Qed.

Lemma first_match (l : list Node) (p : Point) (x : Node) :
  head (filter (λ n, _point n = p) l) = Some x →
  ∃ l1 l2, l = l1 ++ x :: l2 ∧ Forall (λ n, _point n ≠ p) l1 ∧ _point x = p.
Proof.
  induction l as [|n l IH]; [done|]. rewrite filter_cons.
  destruct (decide (_point n = p)) as [Hn|Hn].
  - intros [= <-]. by exists [], l.
  - intros (l1 & l2 & -> & Hl1 & Hx)%IH. exists (n :: l1), l2. split_and!; [done| |done].
    by constructor.
Qed.

(** X9: [nodesToLevel()] on a tree with a root returns a map whose keys
    are the points of the tree.  The level it gives for a point is the
    level of a node that holds the point; when several nodes hold it, the
    first of them in the order of the traversal decides, and in a tree that
    satisfies the level invariant this is the highest level at which the
    point is stored.  On the empty tree the traversal reads through the
    null root pointer. *)
Theorem nodesToLevel_entries (root : Node) :
  nodesToLevel None = NullDeref ∧
  ∃ m, nodesToLevel (Some root) = Done m ∧
       (∀ p, is_Some (m !! p) ↔ p ∈ points root) ∧
       (∀ p l, m !! p = Some l →
          ∃ n, n ∈ nodes_of root ∧ _point n = p ∧ _level n = l) ∧
       (levelInvariant (Some root) →
          ∀ p l n, m !! p = Some l → n ∈ nodes_of root → _point n = p →
                   (_level n ≤ l)%Z).
Proof.
  split; [done|]. unfold nodesToLevel.
  rewrite collect_spec by apply sizes_singleton.
  assert (bfs (size root) [root] ≡ₚ nodes_of root) as Hbfs.
  { rewrite bfs_nodes_of by apply sizes_singleton. by rewrite bind_cons, app_nil_r. }
  eexists. split; [done|]. split_and!.
  - intros p. rewrite nodesToLevel_fold, lookup_empty, points_nodes_of, <- Hbfs.
    rewrite list_elem_of_fmap. split.
    + intros [l Hl]. apply fmap_Some in Hl as (x & Hx & _).
      apply first_match in Hx as (l1 & l2 & Hl & _ & Hp).
      exists x. split; [done|]. rewrite Hl. apply elem_of_app. right. by left.
    + intros (x & -> & Hx).
      destruct (filter (λ n, _point n = _point x) (bfs (size root) [root])) as [|y ys] eqn:Hf;
        [|by eexists].
      assert (x ∈ filter (λ n, _point n = _point x) (bfs (size root) [root])) as Hin
        by (by apply list_elem_of_filter).
      rewrite Hf in Hin. by apply elem_of_nil in Hin.
  - intros p l. rewrite nodesToLevel_fold, lookup_empty.
    intros (x & Hx & ->)%fmap_Some.
    apply first_match in Hx as (l1 & l2 & Hl & _ & Hp).
    exists x. split_and!; [|done..]. rewrite <- Hbfs, Hl. apply elem_of_app. right. by left.
  - cbn [levelInvariant]. intros Hlev p l n. rewrite nodesToLevel_fold, lookup_empty.
    intros (x & Hx & ->)%fmap_Some Hn Hp.
    apply first_match in Hx as (l1 & l2 & Hl & Hl1 & Hpx).
    destruct (bfs_levels (size root) [root] (_level root)) as [Hsorted _].
    { by repeat constructor. }
    rewrite <- Hbfs, Hl in Hn. rewrite Hl in Hsorted.
    apply StronglySorted_app_1_r in Hsorted.
    apply elem_of_app in Hn as [Hn|Hn].
    + eapply Forall_forall in Hl1; [|done]. done.
    + apply elem_of_cons in Hn as [->|Hn]; [lia|].
      apply StronglySorted_inv in Hsorted as [_ Hsorted].
      by eapply Forall_forall in Hsorted.
Qed.

End OrderedFacts.
(** ** [isHarmonic] *)

Lemma max_element_spec (first : Q) (rest : list Q) :
  max_element first rest ∈ first :: rest ∧
  Forall (λ x, x <= max_element first rest) (first :: rest).
Proof.
  revert first. induction rest as [|x rest IH]; intros first.
  - split; [by left|]. repeat constructor. apply Qle_refl.
  - unfold max_element. cbn [foldl].
    destruct (Qgt_bool x first) eqn:Hgt.
    + destruct (IH x) as [Hin Hall]. unfold max_element in Hin, Hall.
      split; [by right|]. apply Forall_cons in Hall as [Hx Hall].
      apply Qgt_bool_true in Hgt. constructor; [|by constructor].
      eapply Qle_trans; [apply Qlt_le_weak, Hgt | done].
    + destruct (IH first) as [Hin Hall]. unfold max_element in Hin, Hall.
      split.
      * apply elem_of_cons in Hin as [Hin|Hin]; [rewrite Hin; by left|by do 2 right].
      * apply Forall_cons in Hall as [Hf Hall]. apply Qgt_bool_false in Hgt.
        constructor; [done|]. constructor; [|done]. by eapply Qle_trans.
Qed.

Lemma lower_diverges (maxDistance : Q) :
  maxDistance <= 0 → ∀ (fuel : nat) (l : Z), lower fuel maxDistance l = OutOfFuel.
Proof.
  intros Hmax. induction fuel as [|fuel IH]; intros l; cbn [lower];
    assert (Qle_bool maxDistance (coveringDistance_at l) = true) as ->
      by (apply Qle_bool_iff; eapply Qle_trans; [done|apply Qlt_le_weak, pow_pos]);
    [done|apply IH].
Qed.

Lemma lower_spec (maxDistance : Q) (b : Z) (fuel : nat) :
  coveringConstant ^ b < maxDistance →
  ∀ l : Z, (l - b ≤ Z.of_nat fuel)%Z →
  ∃ l', lower fuel maxDistance l = Done l' ∧ (l' ≤ l)%Z ∧
        coveringDistance_at l' < maxDistance ∧
        ∀ j, (l' < j ≤ l)%Z → maxDistance <= coveringDistance_at j.
Proof.
  intros Hb. induction fuel as [|fuel IH]; intros l Hfuel; cbn [lower];
    destruct (Qle_bool maxDistance (coveringDistance_at l)) eqn:Hle.
  - apply Qle_bool_iff in Hle.
    assert (b < l)%Z; [|lia].
    apply (Qpower_lt_compat_l_inv coveringConstant); [|done].
    by eapply Qlt_le_trans.
  - exists l. split_and!; [done|lia| |intros; lia].
    apply Qgt_bool_true. unfold Qgt_bool. by rewrite Hle.
  - apply Qle_bool_iff in Hle.
    assert (b < l)%Z.
    { apply (Qpower_lt_compat_l_inv coveringConstant); [|done]. by eapply Qlt_le_trans. }
    destruct (IH (l - 1)%Z) as (l' & -> & Hl' & Hlt & Hall); [lia|].
    exists l'. split_and!; [done|lia|done|].
    intros j Hj. destruct (decide (j = l)) as [->|]; [done|]. apply Hall. lia.
  - exists l. split_and!; [done|lia| |intros; lia].
    apply Qgt_bool_true. unfold Qgt_bool. by rewrite Hle.
Qed.

Lemma is_sorted_snoc (comp : Q → Q → bool) (l : list Q) (a b : Q) :
  is_sorted comp ((l ++ [a]) ++ [b]) = is_sorted comp (l ++ [a]) && negb (comp b a).
Proof.
  induction l as [|x l IH].
  - cbn. by rewrite andb_true_r.
  - change (is_sorted comp (((x :: l) ++ [a]) ++ [b]))
      with (is_sorted comp (x :: ((l ++ [a]) ++ [b]))).
    change (is_sorted comp ((x :: l) ++ [a])) with (is_sorted comp (x :: (l ++ [a]))).
    cbn [is_sorted]. rewrite IH.
    destruct l as [|y l]; cbn [app]; by rewrite andb_assoc.
Qed.

(** The flag [harmonic]: every distance is below the one before it. *)
Lemma is_sorted_rev (l : list Q) :
  is_sorted Qle_bool (rev l) = true ↔
  ∀ i a b, l !! i = Some a → l !! S i = Some b → b < a.
Proof.
  induction l as [|a l IH]; [by split|].
  destruct l as [|b l].
  - split; [|done]. intros _ [|i] x y Hx Hy; done.
  - cbn [rev] in *. rewrite is_sorted_snoc, andb_true_iff, IH. split.
    + intros [Hl Hba] [|i] x y Hx Hy.
      * cbn in Hx, Hy. simplify_eq. apply Qgt_bool_true. by unfold Qgt_bool.
      * by apply (Hl i).
    + intros Hall. split.
      * intros i x y Hx Hy. by apply (Hall (S i)).
      * apply (Qgt_bool_true a b). by apply (Hall 0%nat).
Qed.

Lemma tree_insert_range_valid
    (Metric_sym : ∀ x y, Metric x y == Metric y x)
    (Metric_triangle : ∀ x y z, Metric x z <= Metric x y + Metric y z)
    (ps : list Point) :
  ∀ (root : Node) (t' : CoverTree),
  valid root → tree_insert_range (Some root) ps = Done t' →
  ∃ root', t' = Some root' ∧ valid root'.
Proof.
  induction ps as [|q ps IH]; intros root t' Hv; cbn [tree_insert_range tree_insert].
  - intros [= <-]. by exists root.
  - destruct (insert root q) as [r| | |] eqn:Hr; try done. cbn.
    apply IH. by eapply insert_valid.
Qed.

Section HarmonicFacts.

Context `{EqDecision Point}.
Variable sort : (Point → Point → bool) → list Point → list Point.
Hypothesis sort_perm : ∀ comp l, sort comp l ≡ₚ l.

(** X10: [isHarmonic] on the empty tree returns [true] and leaves the tree
    empty: unlike the other traversals it tests the root pointer.  On a
    tree none of whose root's children has [p] within its covering
    distance, a tree of one node for instance, it also returns [true] and
    leaves the tree as it is. *)
Theorem isHarmonic_short_path (fuel : nat) (p : Point) :
  isHarmonic sort fuel None p = Done (None, true) ∧
  ∀ root : Node,
    (∀ c, c ∈ _children root → coveringDistance c < Metric p (_point c)) →
    isHarmonic sort fuel (Some root) p = Done (Some root, true).
Proof.
  split; [done|]. intros [pt lvl cs] Hcs. unfold isHarmonic. cbn [_children] in Hcs.
  assert (∀ ds, descent p (mkNode pt lvl cs) ds =
    (mkNode pt lvl cs,
     if Qle_bool (Metric p pt) (coveringDistance (mkNode pt lvl cs))
     then ds ++ [Metric p pt] else ds)) as ->.
  { intros ds. cbn [descent].
    generalize (if Qle_bool (Metric p pt) (coveringDistance (mkNode pt lvl cs))
                then ds ++ [Metric p pt] else ds). intros ds'.
    generalize (mkNode pt lvl cs). intros n.
    induction cs as [|c cs IH]; [done|].
    assert (Qle_bool (Metric p (_point c)) (coveringDistance c) = false) as ->.
    { apply negb_true_iff, (Qgt_bool_true (Metric p (_point c)) (coveringDistance c)).
      apply Hcs. by left. }
    apply IH. intros c' Hc'. apply Hcs. by right. }
  by destruct (Qle_bool _ _).
Qed.

(** X11: when the descent of [isHarmonic] stores two or more distances
    and none of them is above 0 (the point is stored at the root and again
    below it, say), the loop that lowers [l] does not end: every covering
    distance is above 0, so its test never fails. *)
Theorem isHarmonic_diverges (root : Node) (p : Point) (first second : Q) (rest : list Q) :
  (descent p root []).2 = first :: second :: rest →
  Forall (λ d, d <= 0) (first :: second :: rest) →
  ∀ fuel : nat, isHarmonic sort fuel (Some root) p = OutOfFuel.
Proof.
  intros Hds Hall fuel. unfold isHarmonic.
  destruct (descent p root []) as [current ds]. cbn in Hds. subst ds.
  rewrite lower_diverges; [done|].
  destruct (max_element_spec first (second :: rest)) as [Hin _].
  by eapply Forall_forall in Hall.
Qed.

(** X12: when the descent of [isHarmonic] stores two or more distances
    and the largest of them, [M], is above 0, [isHarmonic] returns.  The
    flag it returns is [true] exactly when every stored distance is below
    the one stored before it.  When [M] is above the covering distance one
    level below the root the tree stays as it is.  Otherwise the tree is
    built anew: it stores the point of the node at which the descent ended
    once, and every other point as often as before. *)
Theorem isHarmonic_returns (root current : Node) (p : Point)
    (first second : Q) (rest : list Q) (fuel : nat) :
  descent p root [] = (current, first :: second :: rest) →
  0 < max_element first (second :: rest) →
  (_level root - Qlowbound_ltabs_ZExp2 (max_element first (second :: rest))
     ≤ Z.of_nat fuel)%Z →
  ∃ t' harmonic,
    isHarmonic sort fuel (Some root) p = Done (t', harmonic) ∧
    (harmonic = true ↔
       ∀ i a b, (first :: second :: rest) !! i = Some a →
                (first :: second :: rest) !! S i = Some b → b < a) ∧
    (coveringDistance_at (_level root - 1) < max_element first (second :: rest) →
       t' = Some root) ∧
    (max_element first (second :: rest) <= coveringDistance_at (_level root - 1) →
       ∃ root', t' = Some root' ∧
                points root' ≡ₚ
                  _point current :: filter (λ x, x ≠ _point current) (points root)).
Proof.
  intros Hd Hpos Hfuel. unfold isHarmonic. rewrite Hd. cbn [tree_level].
  set (M := max_element first (second :: rest)) in *.
  destruct (lower_spec M (Qlowbound_ltabs_ZExp2 M) fuel
              (Qlowbound_lt_ZExp2_spec M Hpos) (_level root) Hfuel)
    as (l' & -> & Hl' & Hlt & Hall).
  cbn [mbind outcome_bind].
  destruct (Z.ltb_spec (l' + 1) (_level root)) as [Hlow|Hlow].
  - rewrite tree_points_bfs. cbn [mbind outcome_bind].
    set (allPoints := sort _ _).
    destruct (tree_insert_range_stored allPoints
                (Some (mkNode (_point current) (l' + 1) []))) as (t' & -> & Hperm & Hsome).
    cbn [mbind outcome_bind]. eexists _, _. split; [done|]. split_and!.
    + apply is_sorted_rev.
    + intros HM. exfalso. apply (Qlt_not_le _ _ HM), Hall. lia.
    + intros _. destruct Hsome as [root' ->]; [by left|]. exists root'. split; [done|].
      cbn [stored] in Hperm. rewrite Hperm. unfold allPoints. rewrite sort_perm.
      rewrite points_unfold. cbn. rewrite <- Permutation_cons_append.
      constructor. apply filter_Permutation.
      rewrite bfs_nodes_of by apply sizes_singleton.
      by rewrite bind_cons, app_nil_r, points_nodes_of.
  - eexists _, _. split; [done|]. split_and!.
    + apply is_sorted_rev.
    + done.
    + intros HM. exfalso.
      assert (l' < _level root - 1)%Z; [|lia].
      apply (Qpower_lt_compat_l_inv coveringConstant); [|done].
      by eapply Qlt_le_trans.
Qed.

(** X13: the tree [isHarmonic] returns is the tree it was given or a tree
    that satisfies the level, the covering and the separating invariant,
    for a metric that is symmetric and satisfies the triangle
    inequality. *)
Theorem isHarmonic_keeps_invariants
    (Metric_sym : ∀ x y, Metric x y == Metric y x)
    (Metric_triangle : ∀ x y z, Metric x z <= Metric x y + Metric y z)
    (fuel : nat) (t t' : CoverTree) (p : Point) (harmonic : bool) :
  isHarmonic sort fuel t p = Done (t', harmonic) →
  t' = t ∨ (levelInvariant t' ∧ coveringInvariant t' ∧ separatingInvariant t').
Proof.
  unfold isHarmonic. destruct t as [root|]; [|intros [= <- _]; by left].
  destruct (descent p root []) as [current ds].
  destruct ds as [|first [|second rest]]; try (intros [= <- _]; by left).
  destruct (lower _ _ _) as [l| | |]; try done. cbn [mbind outcome_bind].
  destruct (_ <? _)%Z; [|intros [= <- _]; by left].
  rewrite tree_points_bfs. cbn [mbind outcome_bind].
  destruct (tree_insert_range _ _) as [t1| | |] eqn:Ht1; try done.
  cbn [mbind outcome_bind]. intros [= <- _]. right.
  apply tree_insert_range_valid in Ht1 as (root' & -> & Hv); [|done..|apply valid_leaf].
  by apply valid_invariants.
Qed.

End HarmonicFacts.

Lemma NoDup_fmap_eq {A B : Type} (f : A → B) (l : list A) (x y : A) :
  NoDup (f <$> l) → x ∈ l → y ∈ l → f x = f y → x = y.
Proof.
  intros Hnd [i Hi]%list_elem_of_lookup [j Hj]%list_elem_of_lookup Hxy.
  assert (i = j) as ->; [|congruence].
  apply (NoDup_lookup (f <$> l) i j (f x) Hnd); rewrite list_lookup_fmap.
  - by rewrite Hi.
  - by rewrite Hj, Hxy.
Qed.

Section LevelMaps.

Context `{Countable Point}.

(** X23: in a tree with a root that stores no point twice the two level
    maps hold the same pairs: [nodesToLevel()] gives the level [l] for the
    point [p] exactly when [getNodesByLevel()] has the entry of [p] at
    level [l]. *)
Theorem level_maps_agree (root : Node) :
  NoDup (points root) →
  ∃ levelMap pointMap,
    getNodesByLevel (Some root) = Done levelMap ∧
    nodesToLevel (Some root) = Done pointMap ∧
    ∀ p l, pointMap !! p = Some l ↔ (l, p) ∈ levelMap.
Proof.
  intros Hnd. unfold getNodesByLevel, nodesToLevel.
  rewrite !collect_spec by apply sizes_singleton.
  assert (bfs (size root) [root] ≡ₚ nodes_of root) as Hbfs.
  { rewrite bfs_nodes_of by apply sizes_singleton. by rewrite bind_cons, app_nil_r. }
  rewrite points_nodes_of, <- Hbfs in Hnd.
  destruct (getNodesByLevel_fold (bfs (size root) [root]) []) as [Hperm _]; [constructor|].
  eexists _, _. split_and!; [done..|]. intros p l.
  rewrite Hperm, app_nil_l, nodesToLevel_fold, lookup_empty, list_elem_of_fmap. split.
  - intros (x & Hx & ->)%fmap_Some.
    apply first_match in Hx as (l1 & l2 & Hl & _ & <-).
    exists x. split; [done|]. rewrite Hl. apply elem_of_app. right. by left.
  - intros (n & [= -> ->] & Hn).
    destruct (filter (λ n', _point n' = _point n) (bfs (size root) [root]))
      as [|x xs] eqn:Hf.
    + assert (n ∈ filter (λ n', _point n' = _point n) (bfs (size root) [root])) as Hin
        by (by apply list_elem_of_filter).
      rewrite Hf in Hin. by apply elem_of_nil in Hin.
    + assert (x ∈ filter (λ n', _point n' = _point n) (bfs (size root) [root])) as Hin
        by (rewrite Hf; by left).
      apply list_elem_of_filter in Hin as [Hpx Hx]. cbn.
      by rewrite (NoDup_fmap_eq _point _ x n Hnd Hx Hn Hpx).
Qed.

End LevelMaps.

End WithMetric.

(** ** Examples on integer points *)

Lemma absdiff_sym (x y : Z) : absdiff x y == absdiff y x.
Proof. unfold absdiff. by replace (Z.abs (y - x)) with (Z.abs (x - y)) by lia. Qed.

Lemma absdiff_triangle (x y z : Z) : absdiff x z <= absdiff x y + absdiff y z.
Proof. unfold absdiff. rewrite <- inject_Z_plus, <- Zle_Qle. lia. Qed.

(** Scenario A: 0, 10 and 20 are inserted into the empty tree. *)
Example scenario_A :
  tree_insert_range absdiff None [0; 10; 20]%Z
  = Done (Some (mkNode 10%Z 4 [mkNode 0%Z 3 []; mkNode 20%Z 3 []])) ∧
  isValid absdiff (Some (mkNode 10%Z 4 [mkNode 0%Z 3 []; mkNode 20%Z 3 []])) = Done true.
Proof. split; vm_compute; reflexivity. Qed.

(** A point that is already stored is stored once more, below its copy. *)
Example duplicate_point :
  insert_ absdiff (mkNode 10%Z 4 [mkNode 0%Z 3 []; mkNode 20%Z 3 []]) 20%Z
  = mkNode 10%Z 4 [mkNode 0%Z 3 []; mkNode 20%Z 3 [mkNode 20%Z 2 []]].
Proof. vm_compute; reflexivity. Qed.

Lemma insert_keeps_invariants_witness :
  (levelInvariant (Point:=Z) None ∧ coveringInvariant absdiff None ∧
   separatingInvariant absdiff None) ∧
  ∃ t', tree_insert_range absdiff None [0; 10; 20; 20; 3]%Z = Done t' ∧
        levelInvariant t' ∧ coveringInvariant absdiff t' ∧
        separatingInvariant absdiff t'.
Proof.
  split; [by split_and!|].
  apply (insert_keeps_invariants absdiff absdiff_sym absdiff_triangle None).
  by split_and!.
Defined.

Lemma insert__first_match_witness :
  insert_ absdiff (mkNode 0%Z 4 [mkNode 1%Z 3 []; mkNode 20%Z 3 []; mkNode 21%Z 3 []]) 22%Z
  = mkNode 0%Z 4 ([mkNode 1%Z 3 []] ++
                  insert_ absdiff (mkNode 20%Z 3 []) 22%Z :: [mkNode 21%Z 3 []]) ∧
  insert_ absdiff (mkNode 0%Z 4 [mkNode 1%Z 3 []]) 22%Z
  = mkNode 0%Z 4 ([mkNode 1%Z 3 []] ++ [mkNode 22%Z (4 - 1) []]).
Proof.
  split.
  - apply (proj1 (insert__first_match absdiff 0%Z 4
                    [mkNode 1%Z 3 []; mkNode 20%Z 3 []; mkNode 21%Z 3 []] 22%Z)
                 [mkNode 1%Z 3 []] (mkNode 20%Z 3 []) [mkNode 21%Z 3 []]).
    + reflexivity.
    + intros c' ->%list_elem_of_singleton. vm_compute. intros H. by apply H.
    + vm_compute. discriminate.
  - apply (proj2 (insert__first_match absdiff 0%Z 4 [mkNode 1%Z 3 []] 22%Z)).
    intros c' ->%list_elem_of_singleton. vm_compute. intros H. by apply H.
Defined.

Lemma insert_raises_root_witness :
  (raise absdiff 4 (mkNode 0%Z 0 []) 10%Z 10
   = raise absdiff 3 (mkNode 0%Z (0 + 1) []) 10%Z 10) ∧
  (raise absdiff 1 (mkNode 0%Z 3 []) 10%Z 10 = Done (mkNode 0%Z 3 [])) ∧
  (∃ r, raise absdiff (raise_fuel absdiff (mkNode 0%Z 0 []) 10%Z) (mkNode 0%Z 0 []) 10%Z
              (absdiff 0 10) = Done r ∧
        absdiff (_point r) 10 <= 2 * coveringDistance r ∧
        insert absdiff (mkNode 0%Z 0 []) 10%Z = Done (mkNode 10%Z (_level r + 1) [r])) ∧
  (∃ pth i parent leaf,
     get (mkNode 2%Z 1 [mkNode 0%Z 0 [mkNode 1%Z (-1) []]]) pth = Some parent ∧
     _children parent !! i = Some leaf ∧ isLeaf leaf = true ∧
     _point (remove_at (mkNode 2%Z 1 [mkNode 0%Z 0 [mkNode 1%Z (-1) []]]) pth i) = 2%Z ∧
     _level (remove_at (mkNode 2%Z 1 [mkNode 0%Z 0 [mkNode 1%Z (-1) []]]) pth i) = 1%Z ∧
     points (mkNode 2%Z 1 [mkNode 0%Z 0 [mkNode 1%Z (-1) []]])
       ≡ₚ _point leaf
          :: points (remove_at (mkNode 2%Z 1 [mkNode 0%Z 0 [mkNode 1%Z (-1) []]]) pth i) ∧
     raise absdiff 3 (mkNode 2%Z 1 [mkNode 0%Z 0 [mkNode 1%Z (-1) []]]) 30%Z 28
     = raise absdiff 2
         (mkNode (_point leaf) (1 + 1)
            [remove_at (mkNode 2%Z 1 [mkNode 0%Z 0 [mkNode 1%Z (-1) []]]) pth i])
         30%Z (absdiff (_point leaf) 30)).
Proof.
  split_and!.
  - apply (proj1 (insert_raises_root absdiff (mkNode 0%Z 0 []) 10%Z) 3%nat 10);
      reflexivity.
  - apply (proj1 (insert_raises_root absdiff (mkNode 0%Z 3 []) 10%Z) 1%nat 10).
    vm_compute. discriminate.
  - apply (proj2 (insert_raises_root absdiff (mkNode 0%Z 0 []) 10%Z)). reflexivity.
  - apply (proj1 (insert_raises_root absdiff
                    (mkNode 2%Z 1 [mkNode 0%Z 0 [mkNode 1%Z (-1) []]]) 30%Z) 2%nat 28);
      reflexivity.
Defined.

Lemma checks_return_witness :
  ∃ b3 : bool,
    checkSeparatingInvariant absdiff
      (Some (mkNode 10%Z 4 [mkNode 0%Z 3 []; mkNode 20%Z 3 []])) = Done b3 ∧
    (b3 = true ↔
     separatingInvariant absdiff
       (Some (mkNode 10%Z 4 [mkNode 0%Z 3 []; mkNode 20%Z 3 []]))).
Proof.
  destruct (checks_return absdiff (mkNode 10%Z 4 [mkNode 0%Z 3 []; mkNode 20%Z 3 []]))
    as (b1 & b2 & b3 & _ & _ & H3 & _ & _ & _ & _ & H8).
  exists b3. split; [exact H3 | exact (H8 absdiff_sym)].
Defined.

(** On the empty tree every check reads through the null root pointer:
    none of them returns a boolean. *)
Lemma checks_on_empty_tree :
  checkLevelInvariant (Point:=Z) None = NullDeref ∧
  checkCoveringInvariant absdiff None = NullDeref ∧
  checkSeparatingInvariant absdiff None = NullDeref ∧
  isValid absdiff None = NullDeref ∧
  ¬ ∃ b : bool, isValid absdiff None = Done b.
Proof. split_and!; try reflexivity. by intros [b Hb]. Qed.

(** ** Further examples on integer points *)

(** The tree after 0, 10, 20 and once more 20 were inserted. *)
#[local] Abbreviation twice_20 :=
  (mkNode 10%Z 4 [mkNode 0%Z 3 []; mkNode 20%Z 3 [mkNode 20%Z 2 []]]).

Example twice_20_inserted :
  tree_insert_range absdiff None [0; 10; 20; 20]%Z = Done (Some twice_20).
Proof. vm_compute; reflexivity. Qed.

Lemma insert_sorted_perm (comp : Z → Z → bool) (x : Z) (l : list Z) :
  insert_sorted comp x l ≡ₚ x :: l.
Proof.
  induction l as [|y l IH]; [done|]. cbn [insert_sorted].
  destruct (comp x y); [done|]. by rewrite IH, perm_swap.
Qed.

Lemma insertion_sort_perm (comp : Z → Z → bool) (l : list Z) : insertion_sort comp l ≡ₚ l.
Proof.
  induction l as [|x l IH]; [done|]. cbn [insertion_sort foldr].
  rewrite insert_sorted_perm. by constructor.
Qed.

(** The children of a node that is written out, one after the other. *)
Ltac each_child :=
  let c := fresh "c" in
  let Hc := fresh "Hc" in
  intros c Hc; cbn in Hc;
  repeat (apply elem_of_cons in Hc as [->|Hc]);
  try (by apply elem_of_nil in Hc).

Lemma twice_20_level : levelInvariant (Some twice_20).
Proof. cbn. split_and!; try done; each_child; reflexivity. Qed.

Lemma twice_20_covering : coveringInvariant absdiff (Some twice_20).
Proof. cbn. split_and!; try done; each_child; vm_compute; discriminate. Qed.

(** [isHarmonic( 3 )] on the tree of scenario A builds the tree anew, and
    the level of the tree goes up from 4 to 5. *)
Example isHarmonic_rebuilds :
  isHarmonic absdiff insertion_sort 5
    (Some (mkNode 10%Z 4 [mkNode 0%Z 3 []; mkNode 20%Z 3 []])) 3%Z
  = Done (Some (mkNode 20%Z 5 [mkNode 0%Z 4 [mkNode 10%Z 3 []]]), true).
Proof. vm_compute; reflexivity. Qed.

Lemma insertions_are_listed_witness :
  (is_Some (None : CoverTree (Point:=Z)) ∨ [0; 10; 20; 20]%Z ≠ []) ∧
  ∃ t' l, tree_insert_range absdiff None [0; 10; 20; 20]%Z = Done t' ∧
          tree_points t' = Done l ∧ l ≡ₚ [0; 10; 20; 20]%Z ++ stored None.
Proof.
  split; [by right|]. apply (insertions_are_listed absdiff None [0; 10; 20; 20]%Z).
  by right.
Defined.

Lemma insert_root_witness :
  ∃ r, insert absdiff (mkNode 0%Z 0 []) 10%Z = Done r ∧ _point r = 10%Z ∧
       (0 < _level r)%Z ∧
       ∃ c, _children r = [c] ∧ _level c = (_level r - 1)%Z ∧
            absdiff (_point c) 10 <= coveringDistance r.
Proof.
  destruct (insert_root absdiff (mkNode 0%Z 0 []) 10%Z) as (r & Hr & _ & Hfar).
  exists r. split; [exact Hr|]. apply Hfar. reflexivity.
Defined.

Lemma insert__keeps_paths_witness :
  get twice_20 [1; 0]%nat = Some (mkNode 20%Z 2 []) ∧
  ∃ m', get (insert_ absdiff twice_20 21%Z) [1; 0]%nat = Some m' ∧
        _point m' = 20%Z ∧ _level m' = 2%Z ∧
        (m' = mkNode 20%Z 2 [] ∨ m' = insert_ absdiff (mkNode 20%Z 2 []) 21%Z).
Proof.
  split; [reflexivity|].
  apply (insert__keeps_paths absdiff twice_20 21%Z [1; 0]%nat (mkNode 20%Z 2 [])).
  reflexivity.
Defined.

Lemma descendants_are_near_witness :
  absdiff 10 20 < 2 * coveringDistance twice_20.
Proof.
  apply (descendants_are_near absdiff absdiff_triangle twice_20 [1; 0]%nat
           (mkNode 20%Z 2 [])).
  - exact twice_20_level.
  - exact twice_20_covering.
  - reflexivity.
  - discriminate.
Defined.

Lemma isValid_after_insertions_witness :
  ∃ t, tree_insert_range absdiff None [0; 10; 20; 20; 3]%Z = Done t ∧
       isValid absdiff t = Done true.
Proof.
  apply (isValid_after_insertions absdiff absdiff_sym absdiff_triangle 0%Z [10; 20; 20; 3]%Z).
Defined.

Lemma nodesToLevel_entries_witness :
  levelInvariant (Some twice_20) ∧
  ∃ m, nodesToLevel (Some twice_20) = Done m ∧
       ∀ p l n, m !! p = Some l → n ∈ nodes_of twice_20 → _point n = p →
                (_level n ≤ l)%Z.
Proof.
  split; [exact twice_20_level|].
  destruct (nodesToLevel_entries twice_20) as (_ & m & Hm & _ & _ & Hmax).
  exists m. split; [exact Hm|]. apply Hmax. exact twice_20_level.
Defined.

Lemma isHarmonic_short_path_witness :
  isHarmonic absdiff insertion_sort 0 (Some (mkNode 0%Z 3 [mkNode 4%Z 2 []])) 20%Z
  = Done (Some (mkNode 0%Z 3 [mkNode 4%Z 2 []]), true).
Proof.
  apply (isHarmonic_short_path absdiff insertion_sort 0 20%Z).
  each_child. reflexivity.
Defined.

Lemma isHarmonic_diverges_witness :
  tree_insert_range absdiff None [0; 0]%Z = Done (Some (mkNode 0%Z 0 [mkNode 0%Z (-1) []])) ∧
  ∀ fuel : nat,
    isHarmonic absdiff insertion_sort fuel (Some (mkNode 0%Z 0 [mkNode 0%Z (-1) []])) 0%Z
    = OutOfFuel.
Proof.
  split; [vm_compute; reflexivity|].
  apply (isHarmonic_diverges absdiff insertion_sort
           (mkNode 0%Z 0 [mkNode 0%Z (-1) []]) 0%Z 0 0 []).
  - vm_compute; reflexivity.
  - repeat constructor; vm_compute; discriminate.
Defined.

Lemma isHarmonic_returns_witness :
  ∃ t' harmonic,
    isHarmonic absdiff insertion_sort 5
      (Some (mkNode 10%Z 4 [mkNode 0%Z 3 []; mkNode 20%Z 3 []])) 3%Z
    = Done (t', harmonic) ∧
    (harmonic = true ↔
       ∀ i a b, [7; 3] !! i = Some a → [7; 3] !! S i = Some b → b < a) ∧
    (coveringDistance_at (4 - 1) < max_element 7 [3] →
       t' = Some (mkNode 10%Z 4 [mkNode 0%Z 3 []; mkNode 20%Z 3 []])) ∧
    (max_element 7 [3] <= coveringDistance_at (4 - 1) →
       ∃ root', t' = Some root' ∧
                points root' ≡ₚ
                  0%Z :: filter (λ x, x ≠ 0%Z)
                           (points (mkNode 10%Z 4 [mkNode 0%Z 3 []; mkNode 20%Z 3 []]))).
Proof.
  apply (isHarmonic_returns absdiff insertion_sort insertion_sort_perm
           (mkNode 10%Z 4 [mkNode 0%Z 3 []; mkNode 20%Z 3 []]) (mkNode 0%Z 3 []) 3%Z
           7 3 [] 5).
  - vm_compute; reflexivity.
  - vm_compute; reflexivity.
  - vm_compute; discriminate.
Defined.

Lemma isHarmonic_keeps_invariants_witness :
  isHarmonic absdiff insertion_sort 5
    (Some (mkNode 10%Z 4 [mkNode 0%Z 3 []; mkNode 20%Z 3 []])) 3%Z
  = Done (Some (mkNode 20%Z 5 [mkNode 0%Z 4 [mkNode 10%Z 3 []]]), true) ∧
  (Some (mkNode 20%Z 5 [mkNode 0%Z 4 [mkNode 10%Z 3 []]])
   = Some (mkNode 10%Z 4 [mkNode 0%Z 3 []; mkNode 20%Z 3 []]) ∨
   (levelInvariant (Some (mkNode 20%Z 5 [mkNode 0%Z 4 [mkNode 10%Z 3 []]])) ∧
    coveringInvariant absdiff (Some (mkNode 20%Z 5 [mkNode 0%Z 4 [mkNode 10%Z 3 []]])) ∧
    separatingInvariant absdiff (Some (mkNode 20%Z 5 [mkNode 0%Z 4 [mkNode 10%Z 3 []]])))).
Proof.
  split; [vm_compute; reflexivity|].
  apply (isHarmonic_keeps_invariants absdiff insertion_sort absdiff_sym absdiff_triangle
           5 (Some (mkNode 10%Z 4 [mkNode 0%Z 3 []; mkNode 20%Z 3 []])) _ 3%Z true).
  vm_compute; reflexivity.
Defined.

Lemma level_maps_agree_witness :
  NoDup (points (mkNode 10%Z 4 [mkNode 0%Z 3 []; mkNode 20%Z 3 []])) ∧
  ∃ levelMap pointMap,
    getNodesByLevel (Some (mkNode 10%Z 4 [mkNode 0%Z 3 []; mkNode 20%Z 3 []]))
    = Done levelMap ∧
    nodesToLevel (Some (mkNode 10%Z 4 [mkNode 0%Z 3 []; mkNode 20%Z 3 []]))
    = Done pointMap ∧
    ∀ p l, pointMap !! p = Some l ↔ (l, p) ∈ levelMap.
Proof.
  assert (NoDup (points (mkNode 10%Z 4 [mkNode 0%Z 3 []; mkNode 20%Z 3 []]))) as Hnd.
  { apply (bool_decide_unpack _). vm_compute. exact I. }
  split; [exact Hnd|].
  apply (level_maps_agree (mkNode 10%Z 4 [mkNode 0%Z 3 []; mkNode 20%Z 3 []]) Hnd).
Defined.

End CoverTree.

Module Rips.

(** ** The simplex and the complex

    [aleph::topology::Simplex] and [aleph::topology::SimplicialComplex]
    are used by [RipsExpander] but are not part of the sources at hand. *)

(** Modelled from the spec: [Simplex], "an ordered set of unique vertex
    identifiers plus a mutable scalar filtration weight"; the vertex type is
    [unsigned], the weights are integers. *)
Record Simplex : Type := mkSimplex { vertices : list nat; data : Z }.

#[global] Instance Simplex_eq_dec : EqDecision Simplex.
Proof. solve_decision. Defined.

(** [Simplex::setData]. *)
Definition setData (s : Simplex) (w : Z) : Simplex := mkSimplex (vertices s) w.

(** Modelled from the spec: [Simplex::dimension], the number of vertices
    minus one. *)
Definition dimension (s : Simplex) : nat := pred (length (vertices s)).

(** Modelled from the spec: the constructors of [Simplex] order the
    vertices (largest first) and give the simplex the weight [DataType()]. *)
Fixpoint insert_desc (v : nat) (l : list nat) : list nat :=
  match l with
  | [] => [v]
  | x :: l' => if (x <=? v)%nat then v :: x :: l' else x :: insert_desc v l'
  end.

Definition sort_desc (l : list nat) : list nat := foldr insert_desc [] l.

Definition Simplex_of (vs : list nat) : Simplex := mkSimplex (sort_desc vs) 0.

(** Modelled from the spec: the boundary of a simplex, its "codimension-1
    faces": one vertex is left out; a vertex has no faces. *)
Definition faces (vs : list nat) : list (list nat) :=
  match vs with
  | [] | [_] => []
  | _ => (λ i, delete i vs) <$> seq 0 (length vs)
  end.

Definition boundary (s : Simplex) : list Simplex :=
  (λ vs, mkSimplex vs 0) <$> faces (vertices s).

(** Modelled from the spec: [SimplicialComplex], a collection of simplices
    in the order of insertion with "membership lookup by vertex set" and
    "range queries by dimension". *)
Definition SimplicialComplex : Type := list Simplex.

(** Modelled from the spec: [SimplicialComplex::find], lookup by vertex set. *)
Fixpoint find (K : SimplicialComplex) (s : Simplex) : option Simplex :=
  match K with
  | [] => None
  | t :: K' => if decide (vertices t = vertices s) then Some t else find K' s
  end.

(** Modelled from the spec: [SimplicialComplex::push_back]; the complex is
    "a set of finite vertex subsets", a vertex set that is present is not
    stored a second time. *)
Definition push_back (K : SimplicialComplex) (s : Simplex) : SimplicialComplex :=
  match find K s with
  | Some _ => K
  | None => K ++ [s]
  end.

(** Modelled from the spec: the constructor of [SimplicialComplex] from a
    range of simplices. *)
Definition complex_of (l : list Simplex) : SimplicialComplex := foldl push_back [] l.

(** Modelled from the spec: [SimplicialComplex::range( d )], the simplices
    of dimension [d]. *)
Definition range (K : SimplicialComplex) (d : nat) : list Simplex :=
  filter (λ s, dimension s = d) K.

(** Modelled from the spec: the simplices from [begin_dimension()] to
    [end_dimension()], ordered by dimension; simplices of one dimension
    keep their order. *)
Fixpoint insert_by_dimension (s : Simplex) (l : list Simplex) : list Simplex :=
  match l with
  | [] => [s]
  | t :: l' =>
      if (dimension s <? dimension t)%nat then s :: t :: l'
      else t :: insert_by_dimension s l'
  end.

Definition by_dimension (K : SimplicialComplex) : list Simplex :=
  foldl (λ l s, insert_by_dimension s l) [] K.

(** A [std::set<VertexType>]: an increasing list without repetition. *)
Fixpoint set_insert (v : nat) (l : list nat) : list nat :=
  match l with
  | [] => [v]
  | x :: l' =>
      if (v <? x)%nat then v :: x :: l'
      else if (v =? x)%nat then x :: l'
      else x :: set_insert v l'
  end.

(** Modelled from the spec: [SimplicialComplex::vertices], the vertex set
    of the complex, here written into a [std::set]. *)
Definition vertices_of (K : SimplicialComplex) : list nat :=
  foldl (λ acc v, set_insert v acc) [] (K ≫= vertices).

(** A [for] loop whose body can fail. *)
Fixpoint for_each {A St : Type} (body : St → A → outcome St) (l : list A) (st : St)
    : outcome St :=
  match l with
  | [] => Done st
  | x :: l' => st' ← body st x; for_each body l' st'
  end.

(** ** Example complexes *)

(** The triangle on 1, 2, 3 and the path 1-2-3-4, as 0- and 1-skeletons. *)
Definition triangle : SimplicialComplex :=
  [mkSimplex [1] 0; mkSimplex [2] 0; mkSimplex [3] 0;
   mkSimplex [2; 1] 5; mkSimplex [3; 2] 6; mkSimplex [3; 1] 7].

Definition path_graph : SimplicialComplex :=
  [mkSimplex [1] 0; mkSimplex [2] 0; mkSimplex [3] 0; mkSimplex [4] 0;
   mkSimplex [2; 1] 5; mkSimplex [3; 2] 6; mkSimplex [4; 3] 7].

(** An edge that weighs less than one of its end points, and an edge that
    weighs more than both. *)
Definition heavy_vertex : SimplicialComplex :=
  [mkSimplex [0] 5; mkSimplex [1] 0; mkSimplex [1; 0] 1].

Definition heavy_edge : SimplicialComplex :=
  [mkSimplex [0] 0; mkSimplex [1] 0; mkSimplex [1; 0] 7].

(** The complete graph on four vertices. *)
Definition complete_graph : SimplicialComplex :=
  [mkSimplex [1] 0; mkSimplex [2] 0; mkSimplex [3] 0; mkSimplex [4] 0;
   mkSimplex [2; 1] 1; mkSimplex [3; 1] 2; mkSimplex [3; 2] 3;
   mkSimplex [4; 1] 4; mkSimplex [4; 2] 5; mkSimplex [4; 3] 6].

(** The triangle of scenario B together with its 2-simplex. *)
Definition filled_triangle : SimplicialComplex := triangle ++ [mkSimplex [3; 2; 1] 9].

(** ** The objects in memory

    The member functions take the complex [K] by reference and return a
    complex by value; [operator()] changes weights through references to
    the simplices of its list, the weight assignments change a copy of a
    simplex of [K].  To tell a reference from a copy, the containers of
    simplices live in a memory: an address holds a container, a [place] is
    an address and a position in the container there, and a single
    [Simplex] is a container of one. *)
Abbreviation memory := (gmap nat (list Simplex)).

Definition place : Type := nat * nat.

(** Code that runs on the memory. *)
Definition run (A : Type) : Type := memory → outcome (A * memory).

#[global] Instance run_ret : MRet run := λ A a m, Done (a, m).

#[global] Instance run_bind : MBind run := λ A B k c m,
  match c m with
  | Done (a, m') => k a m'
  | NullDeref => NullDeref
  | OutOfRange => OutOfRange
  | OutOfFuel => OutOfFuel
  end.

Definition stop {A : Type} (o : outcome (A * memory)) : run A := λ _, o.

(** A new object, at an address that is not in use, and the end of the
    lifetime of an object. *)
Definition construct (l : list Simplex) : run nat :=
  λ m, let a := fresh (dom m) in Done (a, <[a := l]> m).

Definition destroy (a : nat) : run unit := λ m, Done ((), delete a m).

(** The container behind a reference, and the simplex at a place. *)
Definition deref (a : nat) : run (list Simplex) :=
  λ m, match m !! a with
       | Some l => Done (l, m)
       | None => NullDeref
       end.

Definition read (p : place) : run Simplex :=
  l ← deref p.1;
  match l !! p.2 with
  | Some s => mret s
  | None => stop OutOfRange
  end.

(** A write to the container behind a reference. *)
Definition assign (a : nat) (l : list Simplex) : run unit :=
  λ m, match m !! a with
       | Some _ => Done ((), <[a := l]> m)
       | None => NullDeref
       end.

(** [Simplex::setData] on the simplex at a place. *)
Definition setData_at (p : place) (w : Z) : run unit :=
  l ← deref p.1;
  match l !! p.2 with
  | Some s => assign p.1 (<[p.2 := setData s w]> l)
  | None => stop OutOfRange
  end.

(** [std::list::push_back], [std::list::back] and
    [SimplicialComplex::push_back] on the container behind a reference. *)
Definition list_push_back_at (a : nat) (s : Simplex) : run unit :=
  l ← deref a; assign a (l ++ [s]).

Definition back (a : nat) : run place :=
  l ← deref a; mret (a, pred (length l)).

Definition push_back_at (a : nat) (s : Simplex) : run unit :=
  l ← deref a; assign a (push_back l s).

(** A [for] loop on the memory. *)
Fixpoint for_each_at {A St : Type} (body : St → A → run St) (l : list A) (st : St)
    : run St :=
  match l with
  | [] => mret st
  | x :: l' => st' ← body st x; for_each_at body l' st'
  end.

(** What a call does to the memory [m]: it ends with the complex [R] at an
    address [r] that was not in use; the complex at [K] is what it was, and
    so is what every other address in use holds. *)
Definition leaves_unchanged (K : nat) (m : memory) (call : run nat)
    (result : outcome SimplicialComplex) : Prop :=
  ∃ (r : nat) (R : SimplicialComplex) (m' : memory),
    call m = Done (r, m') ∧ result = Done R ∧
    m' !! K = m !! K ∧
    m !! r = None ∧ m' !! r = Some R ∧
    ∀ a, a ≠ r → m' !! a = m !! a.

Section Expander.

(** The order in which a [std::unordered_set] hands out its elements, one
    order for each set; [expand_in] below has an order for each loop. *)
Variable iterate : gset nat → list nat.
Hypothesis iterate_elements : ∀ X, iterate X ≡ₚ elements X.

(** ** [RipsExpander] *)

(** [getLowerNeighbours]. *)
Definition add_edge (lowerNeighbours : gmap nat (gset nat)) (e : Simplex)
    : gmap nat (gset nat) :=
  match vertices e with
  | u :: v :: _ =>
      if (u <? v)%nat
      then <[v := {[u]} ∪ default ∅ (lowerNeighbours !! v)]> lowerNeighbours
      else <[u := {[v]} ∪ default ∅ (lowerNeighbours !! u)]> lowerNeighbours
  | _ => lowerNeighbours
  end.

Definition getLowerNeighbours (K : SimplicialComplex) : gmap nat (gset nat) :=
  foldl add_edge ∅ (range K 1).

(** [intersect]. *)
Definition intersect (U V : gset nat) : gset nat :=
  let '(uPtr, vPtr) := if decide (size V < size U)%nat then (V, U) else (U, V) in
  foldl (λ result u, if decide (u ∈ vPtr) then {[u]} ∪ result else result)
        ∅ (iterate uPtr).

(** [addCofaces]; [s] is [simplices.back()] in every call. *)
Fixpoint addCofaces (fuel : nat) (s : Simplex) (lowerNeighboursMap : gmap nat (gset nat))
    (neighbours : gset nat) (simplices : list Simplex) (dim : nat)
    : outcome (list Simplex) :=
  if decide (dim ≤ dimension s)%nat then Done simplices
  else
    match fuel with
    | O => OutOfFuel
    | S fuel' =>
        for_each
          (λ simplices neighbour,
             let vs := vertices s ++ [neighbour] in
             let simplices := simplices ++ [Simplex_of vs] in
             match lowerNeighboursMap !! neighbour with
             | Some lowerNeighbours =>
                 let commonNeighbours := intersect lowerNeighbours neighbours in
                 addCofaces fuel' (Simplex_of vs) lowerNeighboursMap
                            commonNeighbours simplices dim
             | None => Done simplices
             end)
          (iterate neighbours) simplices
    end.

(** The objects a member function works on: the complex [K] of the
    caller, passed by [const] reference, and the container that the call
    builds ([simplices] in [operator()], [S] in the weight assignments). *)
Record objects : Type := mkObjects { caller_K : SimplicialComplex; built : list Simplex }.

(** [operator()]: the expansion, the weights of the simplices of
    dimension 0 and 1 that [K] has, and the complex made of the list.
    [addCofaces] goes one level deeper with every vertex it adds and stops
    at dimension [dim], so [dim] is fuel enough. *)
Definition expand_vertex (lowerNeighbours : gmap nat (gset nat)) (dim : nat)
    (o : objects) (vertex : nat) : outcome objects :=
  let simplices := built o ++ [Simplex_of [vertex]] in
  match lowerNeighbours !! vertex with
  | Some neighbours =>
      simplices' ← addCofaces dim (Simplex_of [vertex]) lowerNeighbours
                              neighbours simplices dim;
      Done (mkObjects (caller_K o) simplices')
  | None => Done (mkObjects (caller_K o) simplices)
  end.

Definition reassign (K : SimplicialComplex) (simplex : Simplex) : Simplex :=
  if decide (dimension simplex ≤ 1)%nat then
    match find K simplex with
    | Some found => setData simplex (data found)
    | None => simplex
    end
  else simplex.

Definition expand_call (dim : nat) (o : objects) : outcome objects :=
  let vertices := vertices_of (caller_K o) in
  let lowerNeighbours := getLowerNeighbours (caller_K o) in
  o1 ← for_each (expand_vertex lowerNeighbours dim) vertices
                (mkObjects (caller_K o) []);
  let o2 := mkObjects (caller_K o1) (reassign (caller_K o1) <$> built o1) in
  Done (mkObjects (caller_K o2) (complex_of (built o2))).

(** The complex that [operator()] returns. *)
Definition expand (K : SimplicialComplex) (dim : nat) : outcome SimplicialComplex :=
  o ← expand_call dim (mkObjects K []); Done (built o).

(** [assignMaximumWeight]; [s] is a copy of the simplex of [K]. *)
Definition maximum_weight_step (minDimension : nat) (o : objects) (s : Simplex) : objects :=
  let s :=
    if decide (minDimension < dimension s)%nat then
      let w := foldl (λ w face, match find (built o) face with
                                | Some faceInS => Z.max w (data faceInS)
                                | None => w
                                end) (data s) (boundary s) in
      setData s w
    else s in
  mkObjects (caller_K o) (push_back (built o) s).

Definition assignMaximumWeight_call (minDimension : nat) (o : objects) : objects :=
  foldl (maximum_weight_step minDimension) (mkObjects (caller_K o) [])
        (by_dimension (caller_K o)).

Definition assignMaximumWeight (K : SimplicialComplex) (minDimension : nat)
    : SimplicialComplex :=
  built (assignMaximumWeight_call minDimension (mkObjects K [])).

(** [assignData]; [s] is a copy of the simplex of [K], [vertexToIndex[v]]
    is [0] for a vertex that the map does not have, and [dataValues[i]] is
    not checked against the size of the vector: [OutOfRange] marks a read
    past its end, after which the behaviour of the code is undefined. *)
Definition index_vertices (vs : list nat) : gmap nat nat :=
  (foldl (λ '(m, index) vertex, (<[vertex := index]> m, S index)) (∅, O) vs).1.

Definition assign_data_step (dataValues : list Z) (vertexToIndex : gmap nat nat)
    (init : Z) (functor : Z → Z → Z) (o : objects) (s : Simplex) : outcome objects :=
  d ← for_each (λ d v, match dataValues !! default O (vertexToIndex !! v) with
                       | Some x => Done (functor d x)
                       | None => OutOfRange
                       end) (vertices s) init;
  Done (mkObjects (caller_K o) (push_back (built o) (setData s d))).

Definition assignData_call (dataValues : list Z) (init : Z) (functor : Z → Z → Z)
    (o : objects) : outcome objects :=
  let vertexToIndex := index_vertices (vertices_of (caller_K o)) in
  for_each (assign_data_step dataValues vertexToIndex init functor)
           (caller_K o) (mkObjects (caller_K o) []).

Definition assignData (K : SimplicialComplex) (dataValues : list Z) (init : Z)
    (functor : Z → Z → Z) : outcome SimplicialComplex :=
  o ← assignData_call dataValues init functor (mkObjects K []); Done (built o).

(** The indices of the reads [dataValues[ vertexToIndex[v] ]] of
    [assignData], in the order of the reads. *)
Definition assignData_reads (K : SimplicialComplex) : list nat :=
  let vertexToIndex := index_vertices (vertices_of K) in
  K ≫= λ s, (λ v, default O (vertexToIndex !! v)) <$> vertices s.

(** [assignMaximumData]; [lowest] is [std::numeric_limits<DataType>::lowest()]. *)
Variable lowest : Z.

Definition assignMaximumData_call (dataValues : list Z) (o : objects) : outcome objects :=
  assignData_call dataValues lowest (λ a b, Z.max a b) o.

Definition assignMaximumData (K : SimplicialComplex) (dataValues : list Z)
    : outcome SimplicialComplex :=
  o ← assignMaximumData_call dataValues (mkObjects K []); Done (built o).

(** ** [RipsExpander] on the memory

    [K] is the address of the complex of the caller; a call returns the
    address of the complex that it built. *)

(** [addCofaces]; [s] is a reference to a simplex of a list, [simplices] a
    reference to the list. *)
Fixpoint addCofaces_at (fuel : nat) (s : place) (lowerNeighboursMap : gmap nat (gset nat))
    (neighbours : gset nat) (simplices : nat) (dim : nat) : run unit :=
  s_now ← read s;
  if decide (dim ≤ dimension s_now)%nat then mret ()
  else
    match fuel with
    | O => stop OutOfFuel
    | S fuel' =>
        for_each_at
          (λ _ neighbour,
             s_now ← read s;
             let vs := vertices s_now ++ [neighbour] in
             list_push_back_at simplices (Simplex_of vs);;
             match lowerNeighboursMap !! neighbour with
             | Some lowerNeighbours =>
                 let commonNeighbours := intersect lowerNeighbours neighbours in
                 last ← back simplices;
                 addCofaces_at fuel' last lowerNeighboursMap commonNeighbours
                               simplices dim
             | None => mret ()
             end)
          (iterate neighbours) ()
    end.

(** [operator()]: [simplices] is a local list; the second loop changes
    its simplices in place, through the reference [simplex]; the result is
    constructed from the list, which then goes out of scope. *)
Definition expand_vertex_at (lowerNeighbours : gmap nat (gset nat)) (dim : nat)
    (simplices : nat) (_ : unit) (vertex : nat) : run unit :=
  list_push_back_at simplices (Simplex_of [vertex]);;
  match lowerNeighbours !! vertex with
  | Some neighbours =>
      last ← back simplices;
      addCofaces_at dim last lowerNeighbours neighbours simplices dim
  | None => mret ()
  end.

Definition reassign_at (K : nat) (simplices : nat) (_ : unit) (i : nat) : run unit :=
  simplex ← read (simplices, i);
  if decide (dimension simplex ≤ 1)%nat then
    k ← deref K;
    match find k simplex with
    | Some found => setData_at (simplices, i) (data found)
    | None => mret ()
    end
  else mret ().

Definition expand_at (K : nat) (dim : nat) : run nat :=
  k ← deref K;
  let vertices := vertices_of k in
  k ← deref K;
  let lowerNeighbours := getLowerNeighbours k in
  simplices ← construct [];
  for_each_at (expand_vertex_at lowerNeighbours dim simplices) vertices ();;
  l ← deref simplices;
  for_each_at (reassign_at K simplices) (seq 0 (length l)) ();;
  l ← deref simplices;
  result ← construct (complex_of l);
  destroy simplices;;
  mret result.

(** [assignMaximumWeight]: [S] is the complex that the call returns;
    [auto s = *it] makes [s] an object of its own that holds a copy of the
    simplex of [K], and [s] goes out of scope at the end of the body. *)
Definition maximum_weight_step_at (K S : nat) (minDimension : nat) (_ : unit) (it : nat)
    : run unit :=
  k ← deref K;
  match by_dimension k !! it with
  | Some element =>
      s ← construct [element];
      s_now ← read (s, O);
      (if decide (minDimension < dimension s_now)%nat then
         w ← for_each_at
               (λ w face,
                  inS ← deref S;
                  match find inS face with
                  | Some faceInS => mret (Z.max w (data faceInS))
                  | None => mret w
                  end)
               (boundary s_now) (data s_now);
         setData_at (s, O) w
       else mret ());;
      s_now ← read (s, O);
      push_back_at S s_now;;
      destroy s
  | None => stop OutOfRange
  end.

Definition assignMaximumWeight_at (K : nat) (minDimension : nat) : run nat :=
  S ← construct [];
  k ← deref K;
  for_each_at (maximum_weight_step_at K S minDimension)
              (seq 0 (length (by_dimension k))) ();;
  mret S.

(** [assignData]: [for( auto s : K )] makes [s] a copy as well. *)
Definition assign_data_step_at (K S : nat) (dataValues : list Z)
    (vertexToIndex : gmap nat nat) (init : Z) (functor : Z → Z → Z) (_ : unit) (i : nat)
    : run unit :=
  k ← deref K;
  match k !! i with
  | Some element =>
      s ← construct [element];
      s_now ← read (s, O);
      d ← for_each_at
            (λ d v, match dataValues !! default O (vertexToIndex !! v) with
                    | Some x => mret (functor d x)
                    | None => stop OutOfRange
                    end)
            (vertices s_now) init;
      setData_at (s, O) d;;
      s_now ← read (s, O);
      push_back_at S s_now;;
      destroy s
  | None => stop OutOfRange
  end.

Definition assignData_at (K : nat) (dataValues : list Z) (init : Z)
    (functor : Z → Z → Z) : run nat :=
  S ← construct [];
  k ← deref K;
  let vertexToIndex := index_vertices (vertices_of k) in
  k ← deref K;
  for_each_at (assign_data_step_at K S dataValues vertexToIndex init functor)
              (seq 0 (length k)) ();;
  mret S.

(** [assignMaximumData]. *)
Definition assignMaximumData_at (K : nat) (dataValues : list Z) : run nat :=
  assignData_at K dataValues lowest (λ a b, Z.max a b).

(** ** The order of iteration, loop by loop

    A [std::unordered_set] hands out its elements in the order of its
    buckets, which depends on how the set came about: two sets with the same
    elements can be iterated in different orders within one call.  A
    [schedule] lists, for the loops over unordered sets in the order in
    which a call runs them, the order that each loop sees.  A loop takes the
    head of the schedule when that lists the elements of its set, each
    once, and the order of [elements] otherwise, or when the schedule is
    used up. *)
Definition schedule : Type := list (list nat).

Definition lists (order : list nat) (X : gset nat) : Prop :=
  NoDup order ∧ list_to_set order = X.

Definition next_order (X : gset nat) (orders : schedule) : list nat * schedule :=
  match orders with
  | order :: orders' => (if decide (lists order X) then order else elements X, orders')
  | [] => (elements X, [])
  end.

(** [intersect], with the order of its loop taken from the schedule. *)
Definition intersect_in (U V : gset nat) (orders : schedule) : gset nat * schedule :=
  let '(uPtr, vPtr) := if decide (size V < size U)%nat then (V, U) else (U, V) in
  let '(us, orders) := next_order uPtr orders in
  (foldl (λ result u, if decide (u ∈ vPtr) then {[u]} ∪ result else result) ∅ us,
   orders).

(** [addCofaces], with the orders of its loops taken from the schedule:
    the state is the list [simplices] and what is left of the schedule. *)
Fixpoint addCofaces_in (fuel : nat) (s : Simplex) (lowerNeighboursMap : gmap nat (gset nat))
    (neighbours : gset nat) (st : list Simplex * schedule) (dim : nat)
    : outcome (list Simplex * schedule) :=
  if decide (dim ≤ dimension s)%nat then Done st
  else
    match fuel with
    | O => OutOfFuel
    | S fuel' =>
        let '(ns, orders) := next_order neighbours st.2 in
        for_each
          (λ '(simplices, orders) neighbour,
             let vs := vertices s ++ [neighbour] in
             let simplices := simplices ++ [Simplex_of vs] in
             match lowerNeighboursMap !! neighbour with
             | Some lowerNeighbours =>
                 let '(commonNeighbours, orders) :=
                   intersect_in lowerNeighbours neighbours orders in
                 addCofaces_in fuel' (Simplex_of vs) lowerNeighboursMap
                               commonNeighbours (simplices, orders) dim
             | None => Done (simplices, orders)
             end)
          ns (st.1, orders)
    end.

(** [operator()], with the orders of all loops over unordered sets taken
    from the schedule. *)
Definition expand_vertex_in (lowerNeighbours : gmap nat (gset nat)) (dim : nat)
    (st : list Simplex * schedule) (vertex : nat) : outcome (list Simplex * schedule) :=
  let simplices := st.1 ++ [Simplex_of [vertex]] in
  match lowerNeighbours !! vertex with
  | Some neighbours =>
      addCofaces_in dim (Simplex_of [vertex]) lowerNeighbours neighbours
                    (simplices, st.2) dim
  | None => Done (simplices, st.2)
  end.

Definition expand_in (orders : schedule) (K : SimplicialComplex) (dim : nat)
    : outcome SimplicialComplex :=
  st ← for_each (expand_vertex_in (getLowerNeighbours K) dim) (vertices_of K) ([], orders);
  Done (complex_of (reassign K <$> st.1)).

(** ** Notions used in the statements and proofs *)

(** Strictly decreasing lists: the vertex lists of simplices. *)
Definition decreasing (l : list nat) : Prop := StronglySorted (λ a b, b < a)%nat l.

(** The lower neighbours of [v] in the map; none when [v] is no key. *)
Definition lower_of (lower : gmap nat (gset nat)) (v : nat) : gset nat :=
  default ∅ (lower !! v).

(** What the edge [e] adds to the map of lower neighbours. *)
Definition adds (e : Simplex) (v u : nat) : Prop :=
  match vertices e with
  | x :: y :: _ => if (x <? y)%nat then v = y ∧ u = x else v = x ∧ u = y
  | _ => False
  end.

(** [chain lower N c]: the first vertex of [c] is in [N], the second is a
    lower neighbour of the first and in [N], the third is a lower neighbour
    of the first two and in [N], and so on. *)
Fixpoint chain (lower : gmap nat (gset nat)) (N : gset nat) (c : list nat) : Prop :=
  match c with
  | [] => True
  | n :: c' => n ∈ N ∧ chain lower (lower_of lower n ∩ N) c'
  end.

(** [below N vs]: the candidates are smaller than the vertices of the
    simplex. *)
Definition below (N : gset nat) (vs : list nat) : Prop :=
  ∀ n x, n ∈ N → x ∈ vs → (n < x)%nat.

(** The simplices that [addCofaces] appends for a simplex with the vertices
    [vs] and the candidates [N] when [k] more vertices may be added. *)
Fixpoint cofaces (lower : gmap nat (gset nat)) (k : nat) (vs : list nat) (N : gset nat)
    : list Simplex :=
  match k with
  | O => []
  | S k' =>
      iterate N ≫= λ n,
        Simplex_of (vs ++ [n]) ::
        match lower !! n with
        | Some ln => cofaces lower k' (vertices (Simplex_of (vs ++ [n]))) (intersect ln N)
        | None => []
        end
  end.

(** The simplices that the loop of [operator()] appends for [vertex]. *)
Definition star (lower : gmap nat (gset nat)) (dim : nat) (vertex : nat) : list Simplex :=
  Simplex_of [vertex] ::
  match lower !! vertex with
  | Some N => cofaces lower dim (vertices (Simplex_of [vertex])) N
  | None => []
  end.

Definition expansion (K : SimplicialComplex) (dim : nat) : list Simplex :=
  vertices_of K ≫= star (getLowerNeighbours K) dim.

(** [value_of K dataValues v x]: [x] is the value of the vertex [v], the
    entry of [dataValues] at the position of [v] among the vertices of [K]
    in increasing order. *)
Definition value_of (K : SimplicialComplex) (dataValues : list Z) (v : nat) (x : Z) : Prop :=
  ∃ i, vertices_of K !! i = Some v ∧ dataValues !! i = Some x.

(** The weights of those boundary faces of [s] that the complex [S] has. *)
Definition face_weights (S : SimplicialComplex) (s : Simplex) : list Z :=
  omap (λ face, data <$> find S face) (boundary s).

(** The weight that [assignMaximumWeight] gives to [s] when the faces are
    looked up in [S]. *)
Definition new_weight (minDimension : nat) (S : SimplicialComplex) (s : Simplex) : Z :=
  if decide (minDimension < dimension s)%nat
  then foldl Z.max (data s) (face_weights S s)
  else data s.

(** [v] is a vertex of the graph: [K] has the 0-simplex [{v}]. *)
Definition vertex (K : SimplicialComplex) (v : nat) : Prop :=
  ∃ s, s ∈ K ∧ vertices s = [v].

(** [a] and [b] are joined by an edge: [K] has the 1-simplex [{a, b}]. *)
Definition edge (K : SimplicialComplex) (a b : nat) : Prop :=
  ∃ e, e ∈ K ∧ vertices e = [a; b].

(** [K] is the 0- and 1-skeleton of a graph: its simplices are vertices
    and edges, with their vertices in order, and the end points of the
    edges are vertices of [K]. *)
Definition skeleton (K : SimplicialComplex) : Prop :=
  ∀ s, s ∈ K →
    decreasing (vertices s) ∧
    (length (vertices s) = 1 ∨ length (vertices s) = 2)%nat ∧
    ∀ v, v ∈ vertices s → vertex K v.

(** A clique of the graph with at most [dim + 1] vertices, written with
    its vertices in decreasing order. *)
Definition clique (K : SimplicialComplex) (dim : nat) (x : list nat) : Prop :=
  x ≠ [] ∧ (length x ≤ dim + 1)%nat ∧ Forall (vertex K) x ∧
  StronglySorted (λ a b, (b < a)%nat ∧ edge K a b) x.

(** ** Loops *)

Lemma for_each_app {A St : Type} (body : St → A → outcome St) (l1 l2 : list A) (st : St) :
  for_each body (l1 ++ l2) st = (for_each body l1 st ≫= for_each body l2).
Proof.
  revert st. induction l1 as [|x l1 IH]; intros st; cbn; [done|].
  destruct (body st x); cbn; [apply IH|done..].
Qed.

(** ** The simplex and the complex *)

Lemma setData_vertices (s : Simplex) (w : Z) : vertices (setData s w) = vertices s.
Proof. done. Qed.

Lemma setData_dimension (s : Simplex) (w : Z) : dimension (setData s w) = dimension s.
Proof. done. Qed.

Lemma find_ext (K : SimplicialComplex) (s s' : Simplex) :
  vertices s = vertices s' → find K s = find K s'.
Proof. intros Hv. induction K as [|t K IH]; cbn; [done|]. by rewrite Hv, IH. Qed.

Lemma find_Some (K : SimplicialComplex) (s t : Simplex) :
  find K s = Some t → t ∈ K ∧ vertices t = vertices s.
Proof.
  induction K as [|t' K IH]; cbn; [done|]. case_decide.
  - intros [= <-]. split; [by left|done].
  - intros [? ?]%IH. split; [by right|done].
Qed.

Lemma find_None (K : SimplicialComplex) (s : Simplex) :
  find K s = None ↔ vertices s ∉ vertices <$> K.
Proof.
  induction K as [|t K IH]; cbn.
  - split; [intros _ ?%elem_of_nil|]; done.
  - rewrite not_elem_of_cons, <- IH. case_decide; naive_solver.
Qed.

Lemma find_unique (K : SimplicialComplex) (s t : Simplex) :
  NoDup (vertices <$> K) → t ∈ K → vertices t = vertices s → find K s = Some t.
Proof.
  induction K as [|t' K IH]; cbn; [by intros _ ?%elem_of_nil|].
  intros [Hnotin Hnd]%NoDup_cons [->|Ht]%elem_of_cons Hv.
  - by rewrite decide_True.
  - rewrite decide_False; [by apply IH|].
    intros Heq. apply Hnotin. rewrite Heq, <- Hv. by apply list_elem_of_fmap_2.
Qed.

Lemma find_app (K1 K2 : SimplicialComplex) (s : Simplex) :
  find (K1 ++ K2) s = match find K1 s with Some t => Some t | None => find K2 s end.
Proof. induction K1 as [|t K1 IH]; cbn; [done|]. by case_decide. Qed.

Lemma push_back_new (K : SimplicialComplex) (s : Simplex) :
  vertices s ∉ vertices <$> K → push_back K s = K ++ [s].
Proof. intros H%find_None. unfold push_back. by rewrite H. Qed.

Lemma push_back_subset (K : SimplicialComplex) (s t : Simplex) :
  t ∈ push_back K s → t ∈ K ∨ t = s.
Proof.
  unfold push_back. destruct (find K s); [by left|].
  intros [?|?%list_elem_of_singleton]%elem_of_app; auto.
Qed.

Lemma push_back_mono (K : SimplicialComplex) (s t : Simplex) :
  t ∈ K → t ∈ push_back K s.
Proof. unfold push_back. destruct (find K s); [done|]. intros. apply elem_of_app. by left. Qed.

Lemma push_back_has (K : SimplicialComplex) (s : Simplex) :
  ∃ t, t ∈ push_back K s ∧ vertices t = vertices s.
Proof.
  unfold push_back. destruct (find K s) as [t|] eqn:Hfind.
  - exists t. by apply find_Some.
  - exists s. split; [|done]. apply elem_of_app. right. by left.
Qed.

Lemma complex_of_subset (l : list Simplex) (t : Simplex) : t ∈ complex_of l → t ∈ l.
Proof.
  unfold complex_of.
  assert (∀ K, t ∈ foldl push_back K l → t ∈ K ∨ t ∈ l) as H.
  { induction l as [|s l IH]; intros K; cbn; [by left|].
    intros [H1|H1]%IH; [apply push_back_subset in H1 as [?|H1]|].
    - by left.
    - right. rewrite H1. by left.
    - right. by right. }
  intros [?%elem_of_nil|?]%H; done.
Qed.

Lemma complex_of_NoDup (l : list Simplex) :
  NoDup (vertices <$> l) → complex_of l = l.
Proof.
  unfold complex_of.
  assert (∀ K, NoDup (vertices <$> (K ++ l)) → foldl push_back K l = K ++ l) as H.
  { induction l as [|s l IH]; intros K Hnd; cbn; [by rewrite app_nil_r|].
    rewrite push_back_new.
    - rewrite IH; rewrite <- (assoc_L (++)); [done|exact Hnd].
    - rewrite fmap_app, fmap_cons in Hnd.
      apply NoDup_app in Hnd as (_ & Hnd & _). intros Hin.
      apply (Hnd _ Hin). by left. }
  intros Hnd. by apply (H []).
Qed.

(** ** Sorted vertex lists *)

Lemma sort_desc_decreasing (l : list nat) : decreasing l → sort_desc l = l.
Proof.
  unfold decreasing, sort_desc. induction 1 as [|a l Hl IH Ha]; cbn; [done|].
  rewrite IH. destruct l as [|x l]; cbn [insert_desc]; [done|].
  apply Forall_cons in Ha as [Hx _]. by rewrite (proj2 (Nat.leb_le x a)) by lia.
Qed.

Lemma decreasing_snoc (l : list nat) (n : nat) :
  decreasing l → (∀ x, x ∈ l → n < x)%nat → decreasing (l ++ [n]).
Proof.
  intros Hl Hn. apply StronglySorted_app_2; [|done|].
  - intros x1 x2 Hx1 ->%list_elem_of_singleton. by apply Hn.
  - repeat constructor.
Qed.

Lemma decreasing_NoDup (l : list nat) : decreasing l → NoDup l.
Proof.
  induction 1 as [|a l Hl IH Ha]; constructor; [|done].
  intros Hin. rewrite Forall_forall in Ha. specialize (Ha a Hin). lia.
Qed.

Lemma length_insert_desc (v : nat) (l : list nat) :
  length (insert_desc v l) = S (length l).
Proof.
  induction l as [|x l IH]; cbn [insert_desc]; [done|].
  destruct (x <=? v)%nat; cbn; by rewrite ?IH.
Qed.

Lemma length_sort_desc (l : list nat) : length (sort_desc l) = length l.
Proof.
  unfold sort_desc. induction l as [|x l IH]; cbn; [done|].
  by rewrite length_insert_desc, IH.
Qed.

Lemma dimension_Simplex_of (vs : list nat) : dimension (Simplex_of vs) = pred (length vs).
Proof. unfold dimension. cbn. by rewrite length_sort_desc. Qed.

(** ** The vertex set of a complex *)

Lemma elem_of_set_insert (v y : nat) (l : list nat) :
  y ∈ set_insert v l ↔ y = v ∨ y ∈ l.
Proof.
  induction l as [|x l IH]; cbn [set_insert].
  - rewrite list_elem_of_singleton, elem_of_nil. tauto.
  - destruct (Nat.ltb_spec v x); [|destruct (Nat.eqb_spec v x) as [->|]];
      rewrite ?elem_of_cons, ?IH; tauto.
Qed.

Lemma set_insert_increasing (v : nat) (l : list nat) :
  StronglySorted lt l → StronglySorted lt (set_insert v l).
Proof.
  induction 1 as [|a l Hl IH Ha]; cbn [set_insert]; [repeat constructor|].
  destruct (Nat.ltb_spec v a).
  - constructor; [by constructor|]. constructor; [done|].
    eapply Forall_impl; [exact Ha|]. intros; cbn in *; lia.
  - destruct (Nat.eqb_spec v a); [by constructor|].
    constructor; [done|]. apply Forall_forall. intros y [->|Hy]%elem_of_set_insert.
    + lia.
    + by eapply Forall_forall in Ha.
Qed.

Lemma vertices_of_spec (K : SimplicialComplex) :
  StronglySorted lt (vertices_of K) ∧
  ∀ v, v ∈ vertices_of K ↔ ∃ s, s ∈ K ∧ v ∈ vertices s.
Proof.
  unfold vertices_of.
  assert (∀ (vs acc : list nat), StronglySorted lt acc →
            StronglySorted lt (foldl (λ acc v, set_insert v acc) acc vs) ∧
            ∀ v, v ∈ foldl (λ acc v, set_insert v acc) acc vs ↔ v ∈ acc ∨ v ∈ vs) as H.
  { induction vs as [|x vs IH]; intros acc Hacc; cbn.
    - split; [done|]. intros v. rewrite elem_of_nil. tauto.
    - destruct (IH (set_insert x acc)) as [H1 H2]; [by apply set_insert_increasing|].
      split; [done|]. intros v. rewrite H2, elem_of_set_insert, elem_of_cons. tauto. }
  destruct (H (K ≫= vertices) []) as [H1 H2]; [constructor|].
  split; [done|]. intros v. rewrite H2, elem_of_nil, list_elem_of_bind. naive_solver.
Qed.

Lemma increasing_NoDup (l : list nat) : StronglySorted lt l → NoDup l.
Proof.
  induction 1 as [|a l Hl IH Ha]; constructor; [|done].
  intros Hin. rewrite Forall_forall in Ha. specialize (Ha a Hin). lia.
Qed.

(** ** The expansion as a list *)

Lemma addCofaces_cofaces (lower : gmap nat (gset nat)) (dim fuel : nat) :
  ∀ (s : Simplex) (N : gset nat) (acc : list Simplex),
  vertices s ≠ [] → (dim - dimension s ≤ fuel)%nat →
  addCofaces fuel s lower N acc dim
  = Done (acc ++ cofaces lower (dim - dimension s) (vertices s) N).
Proof.
  induction fuel as [|fuel IH]; intros s N acc Hs Hfuel; cbn [addCofaces];
    case_decide as Hd;
    try (replace (dim - dimension s)%nat with 0%nat by lia; by rewrite app_nil_r);
    [lia|].
  destruct (dim - dimension s)%nat as [|k] eqn:Hk; [lia|]. cbn [cofaces].
  assert (∀ n, (dim - dimension (Simplex_of (vertices s ++ [n])))%nat = k) as Hdim.
  { intros n. rewrite dimension_Simplex_of, length_app. unfold dimension in Hk.
    destruct (vertices s); [done|]. cbn in *. lia. }
  assert (∀ n, vertices (Simplex_of (vertices s ++ [n])) ≠ []) as Hne.
  { intros n Heq%(f_equal length). cbn in Heq.
    rewrite length_sort_desc, length_app in Heq. cbn in Heq. lia. }
  generalize (iterate N). intros ns. revert acc.
  induction ns as [|n ns IHns]; intros acc; cbn.
  - by rewrite app_nil_r.
  - destruct (lower !! n) as [ln|].
    + rewrite IH by (first [apply Hne | rewrite Hdim; lia]). cbn. rewrite IHns, Hdim.
      by rewrite <- !(assoc_L (++)).
    + cbn. rewrite IHns. by rewrite <- !(assoc_L (++)).
Qed.

Lemma star_Some (lower : gmap nat (gset nat)) (dim v : nat) (N : gset nat) :
  lower !! v = Some N → star lower dim v = Simplex_of [v] :: cofaces lower dim [v] N.
Proof. unfold star. by intros ->. Qed.

Lemma star_None (lower : gmap nat (gset nat)) (dim v : nat) :
  lower !! v = None → star lower dim v = [Simplex_of [v]].
Proof. unfold star. by intros ->. Qed.

Lemma expand_loop (K0 : SimplicialComplex) (lower : gmap nat (gset nat)) (dim : nat)
    (vs : list nat) :
  ∀ acc : list Simplex,
  for_each (expand_vertex lower dim) vs (mkObjects K0 acc)
  = Done (mkObjects K0 (acc ++ (vs ≫= star lower dim))).
Proof.
  induction vs as [|v vs IH]; intros acc; cbn [for_each].
  - cbn. by rewrite app_nil_r.
  - change ((v :: vs) ≫= star lower dim)
      with (star lower dim v ++ (vs ≫= star lower dim)).
    unfold expand_vertex. cbn [built caller_K].
    destruct (lower !! v) as [N|] eqn:Hv.
    + rewrite (star_Some _ _ _ _ Hv).
      rewrite addCofaces_cofaces
        by (first [by cbn | rewrite dimension_Simplex_of; cbn; lia]).
      cbn [mbind outcome_bind]. rewrite IH, dimension_Simplex_of.
      cbn [length pred]. rewrite Nat.sub_0_r. cbn [Simplex_of vertices sort_desc foldr insert_desc].
      by rewrite <- !(assoc_L (++)).
    + rewrite (star_None _ _ _ Hv). cbn [mbind outcome_bind]. rewrite IH.
      by rewrite <- !(assoc_L (++)).
Qed.

Lemma expand_call_eq (dim : nat) (o : objects) :
  expand_call dim o
  = Done (mkObjects (caller_K o)
            (complex_of (reassign (caller_K o) <$> expansion (caller_K o) dim))).
Proof. unfold expand_call. by rewrite expand_loop. Qed.

Lemma expand_eq (K : SimplicialComplex) (dim : nat) :
  expand K dim = Done (complex_of (reassign K <$> expansion K dim)).
Proof. unfold expand. by rewrite expand_call_eq. Qed.

Lemma cofaces_data (lower : gmap nat (gset nat)) (k : nat) :
  ∀ (vs : list nat) (N : gset nat) (s : Simplex),
  s ∈ cofaces lower k vs N → data s = 0%Z.
Proof.
  induction k as [|k IH]; intros vs N s; cbn [cofaces]; [by intros ?%elem_of_nil|].
  intros (n & Hs & _)%list_elem_of_bind.
  apply elem_of_cons in Hs as [->|Hs]; [done|].
  destruct (lower !! n); [by eapply IH|by apply elem_of_nil in Hs].
Qed.

Lemma expansion_data (K : SimplicialComplex) (dim : nat) (s : Simplex) :
  s ∈ expansion K dim → data s = 0%Z.
Proof.
  intros (v & Hs & _)%list_elem_of_bind. unfold star in Hs.
  apply elem_of_cons in Hs as [->|Hs]; [done|].
  destruct (_ !! v); [by eapply cofaces_data|by apply elem_of_nil in Hs].
Qed.

(** C7: [operator()] returns a complex; a simplex of it that has
    dimension at most 1 and whose vertex set is found in [K] carries the
    weight of the simplex of [K], and a simplex of dimension 2 or more
    carries the weight [DataType()] that its constructor gave it. *)
Theorem expand_weights (K : SimplicialComplex) (dim : nat) :
  ∃ R, expand K dim = Done R ∧
       ∀ s, s ∈ R →
         (∀ t, (dimension s ≤ 1)%nat → find K s = Some t → data s = data t) ∧
         ((2 ≤ dimension s)%nat → data s = 0%Z).
Proof.
  eexists. split; [apply expand_eq|].
  intros s (s0 & -> & Hs0)%complex_of_subset%list_elem_of_fmap.
  apply expansion_data in Hs0. unfold reassign. split.
  - intros t Hdim Ht. case_decide as Hd.
    + destruct (find K s0) as [t'|] eqn:Hfind.
      * rewrite (find_ext K _ s0) in Ht by done. by simplify_eq.
      * by rewrite Hfind in Ht.
    + lia.
  - intros Hdim. case_decide as Hd; [|done].
    destruct (find K s0); [cbn in Hdim; unfold dimension in *; cbn in *; lia|done].
Qed.

(** ** Invariants of folds *)

Lemma foldl_invariant {A B : Type} (P : A → Prop) (f : A → B → A) (l : list B) :
  (∀ a x, P a → P (f a x)) → ∀ a, P a → P (foldl f a l).
Proof. intros Hf. induction l as [|x l IH]; intros a Ha; cbn; [done|]. by apply IH, Hf. Qed.

(** ** [assignData] *)

Lemma index_vertices_loop (vs : list nat) :
  ∀ (m : gmap nat nat) (k : nat),
  (∀ v, v ∉ vs →
     (foldl (λ '(m, index) vertex, (<[vertex := index]> m, S index)) (m, k) vs).1 !! v
     = m !! v) ∧
  (NoDup vs → ∀ i v, vs !! i = Some v →
     (foldl (λ '(m, index) vertex, (<[vertex := index]> m, S index)) (m, k) vs).1 !! v
     = Some (k + i)%nat).
Proof.
  induction vs as [|x vs IH]; intros m k; cbn [foldl].
  - split; [done|]. by intros _ i v.
  - destruct (IH (<[x:=k]> m) (S k)) as [IH1 IH2]. split.
    + intros v [Hvx Hv]%not_elem_of_cons. rewrite IH1 by done.
      by apply lookup_insert_ne.
    + intros [Hx Hnd]%NoDup_cons [|i] v Hi; cbn in Hi.
      * simplify_eq. rewrite IH1 by done. rewrite lookup_insert_eq. f_equal. lia.
      * rewrite (IH2 Hnd i v Hi). f_equal. lia.
Qed.

Lemma index_vertices_spec (vs : list nat) (i v : nat) :
  NoDup vs → vs !! i = Some v → index_vertices vs !! v = Some i.
Proof.
  intros Hnd Hi. unfold index_vertices.
  by rewrite (proj2 (index_vertices_loop vs ∅ 0%nat) Hnd i v Hi).
Qed.

Lemma assign_data_fold (K : SimplicialComplex) (dataValues : list Z) (functor : Z → Z → Z)
    (vs : list nat) :
  (length (vertices_of K) ≤ length dataValues)%nat →
  (∀ v, v ∈ vs → v ∈ vertices_of K) →
  ∀ init : Z, ∃ xs,
    Forall2 (value_of K dataValues) vs xs ∧
    for_each (λ d v, match dataValues !! default O (index_vertices (vertices_of K) !! v) with
                     | Some x => Done (functor d x)
                     | None => OutOfRange
                     end) vs init
    = Done (foldl functor init xs).
Proof.
  intros Hlen. induction vs as [|v vs IH]; intros Hvs init.
  - exists []. by split; [constructor|].
  - assert (v ∈ vertices_of K) as [i Hi]%list_elem_of_lookup by (apply Hvs; by left).
    destruct (lookup_lt_is_Some_2 dataValues i) as [x Hx].
    { apply lookup_lt_Some in Hi. lia. }
    destruct (IH (λ v' Hv', Hvs v' (list_elem_of_further _ _ _ Hv')) (functor init x))
      as (xs & Hxs & Hloop).
    exists (x :: xs). split; [constructor; [by exists i|done]|].
    cbn [for_each].
    rewrite (index_vertices_spec _ i v) by
      (first [apply increasing_NoDup, vertices_of_spec | done]).
    change (default O (Some i)) with i. rewrite Hx. cbn. exact Hloop.
Qed.

Lemma foldl_max (xs : list Z) :
  ∀ a : Z, (a ≤ foldl Z.max a xs)%Z ∧ (∀ x, x ∈ xs → (x ≤ foldl Z.max a xs)%Z) ∧
           (foldl Z.max a xs = a ∨ foldl Z.max a xs ∈ xs).
Proof.
  induction xs as [|x xs IH]; intros a; cbn [foldl].
  - split_and!; [lia| |by left]. by intros x ?%elem_of_nil.
  - destruct (IH (Z.max a x)) as (H1 & H2 & H3). split_and!; [lia| |].
    + intros y [->|Hy]%elem_of_cons; [lia|by apply H2].
    + destruct H3 as [H3|H3].
      * rewrite H3. destruct (Z.max_spec a x) as [[_ ->]|[_ ->]]; [right; by left|by left].
      * right. by right.
Qed.

Lemma assign_data_step_eq (dataValues : list Z) (vertexToIndex : gmap nat nat)
    (init : Z) (functor : Z → Z → Z) (o : objects) (s : Simplex) (d : Z) :
  for_each (λ d v, match dataValues !! default O (vertexToIndex !! v) with
                   | Some x => Done (functor d x)
                   | None => OutOfRange
                   end) (vertices s) init = Done d →
  assign_data_step dataValues vertexToIndex init functor o s
  = Done (mkObjects (caller_K o) (push_back (built o) (setData s d))).
Proof. unfold assign_data_step. by intros ->. Qed.

Lemma assignData_loop (K : SimplicialComplex) (dataValues : list Z) (init : Z)
    (functor : Z → Z → Z) (K0 : SimplicialComplex) :
  (length (vertices_of K) ≤ length dataValues)%nat →
  ∀ (l acc : list Simplex),
  (∀ s v, s ∈ l → v ∈ vertices s → v ∈ vertices_of K) →
  ∃ S, for_each (assign_data_step dataValues (index_vertices (vertices_of K)) init functor)
                l (mkObjects K0 acc) = Done (mkObjects K0 S) ∧
       (∀ t, t ∈ acc → t ∈ S) ∧
       (∀ s, s ∈ l → ∃ t, t ∈ S ∧ vertices t = vertices s) ∧
       (∀ t, t ∈ S →
          t ∈ acc ∨ ∃ xs, Forall2 (value_of K dataValues) (vertices t) xs ∧
                          data t = foldl functor init xs).
Proof.
  intros Hlen. induction l as [|s l IH]; intros acc Hl; cbn [for_each].
  - exists acc. split_and!; [done..| |by left]. by intros s ?%elem_of_nil.
  - destruct (assign_data_fold K dataValues functor (vertices s) Hlen) with (init := init)
      as (xs & Hxs & Hfold).
    { intros v. apply Hl. by left. }
    rewrite (assign_data_step_eq _ _ _ _ _ _ _ Hfold).
    cbn [mbind outcome_bind built caller_K].
    destruct (IH (push_back acc (setData s (foldl functor init xs))))
      as (S & Hloop & Hacc & Hhas & Hdata).
    { intros s' v Hs'. apply Hl. by right. }
    exists S. split_and!; [done| | |].
    + intros t Ht. by apply Hacc, push_back_mono.
    + intros s' [->|Hs']%elem_of_cons; [|by apply Hhas].
      destruct (push_back_has acc (setData s (foldl functor init xs))) as (t & Ht & Hv).
      exists t. split; [by apply Hacc|done].
    + intros t [[Ht| ->]%push_back_subset|Ht]%Hdata; [by left| |by right].
      right. by exists xs.
Qed.

Lemma assignData_call_spec (K : SimplicialComplex) (dataValues : list Z) (init : Z)
    (functor : Z → Z → Z) :
  (length (vertices_of K) ≤ length dataValues)%nat →
  ∃ S, assignData_call dataValues init functor (mkObjects K []) = Done (mkObjects K S) ∧
       (∀ s, s ∈ K → ∃ t, t ∈ S ∧ vertices t = vertices s) ∧
       ∀ t, t ∈ S → ∃ xs, Forall2 (value_of K dataValues) (vertices t) xs ∧
                          data t = foldl functor init xs.
Proof.
  intros Hlen. unfold assignData_call. cbn [caller_K].
  destruct (assignData_loop K dataValues init functor K Hlen K [])
    as (S & HS & _ & Hhas & Hd).
  - intros s v Hs Hv. apply vertices_of_spec. by exists s.
  - exists S. split_and!; [done..|].
    intros t [?%elem_of_nil|?]%Hd; done.
Qed.

(** C6, for at least as many values as the complex has vertices:
    [assignData] returns a complex that has every vertex set of [K], and
    each of its simplices has the weight that results from folding
    [functor] over the values of its vertices, from [init] on;
    [assignMaximumData] gives a simplex the largest of the values of its
    vertices. *)
Theorem assignData_weights (K : SimplicialComplex) (dataValues : list Z) (init : Z)
    (functor : Z → Z → Z) :
  (length (vertices_of K) ≤ length dataValues)%nat →
  (∃ S, assignData K dataValues init functor = Done S ∧
        (∀ s, s ∈ K → ∃ t, t ∈ S ∧ vertices t = vertices s) ∧
        ∀ t, t ∈ S → ∃ xs, Forall2 (value_of K dataValues) (vertices t) xs ∧
                           data t = foldl functor init xs) ∧
  ((∀ x, x ∈ dataValues → (lowest ≤ x)%Z) →
   ∃ S, assignMaximumData K dataValues = Done S ∧
        (∀ s, s ∈ K → ∃ t, t ∈ S ∧ vertices t = vertices s) ∧
        ∀ t, t ∈ S → vertices t ≠ [] →
          ∃ xs, Forall2 (value_of K dataValues) (vertices t) xs ∧
                data t ∈ xs ∧ ∀ x, x ∈ xs → (x ≤ data t)%Z).
Proof.
  intros Hlen. split.
  - destruct (assignData_call_spec K dataValues init functor Hlen) as (S & HS & H).
    exists S. unfold assignData. by rewrite HS.
  - intros Hlow.
    destruct (assignData_call_spec K dataValues lowest (λ a b, Z.max a b) Hlen)
      as (S & HS & Hv & Hd).
    exists S. unfold assignMaximumData, assignMaximumData_call. rewrite HS.
    split_and!; [done..|]. intros s Hs Hne.
    destruct (Hd s Hs) as (xs & Hxs & Hdata). exists xs. split; [done|].
    change (foldl (λ a b, Z.max a b) lowest xs) with (foldl Z.max lowest xs) in Hdata.
    rewrite Hdata. destruct (foldl_max xs lowest) as (H1 & H2 & H3).
    split; [|done]. destruct H3 as [H3|H3]; [|done].
    destruct Hxs as [|v x vs xs' Hx Hxs']; [done|].
    assert (lowest ≤ x)%Z as Hle.
    { destruct Hx as (i & _ & Hi). by eapply Hlow, list_elem_of_lookup_2. }
    assert (x ≤ foldl Z.max lowest (x :: xs'))%Z as Hge by (apply H2; by left).
    replace (foldl Z.max lowest (x :: xs')) with x by lia. by left.
Qed.

(** ** [assignMaximumWeight] *)

Lemma maximum_weight_step_eq (minDimension : nat) (o : objects) (s : Simplex) :
  maximum_weight_step minDimension o s
  = mkObjects (caller_K o)
      (push_back (built o) (setData s (new_weight minDimension (built o) s))).
Proof.
  unfold maximum_weight_step, new_weight. f_equal. f_equal.
  case_decide; [|by destruct s]. f_equal. unfold face_weights.
  generalize (data s). induction (boundary s) as [|face l IH]; intros w; cbn; [done|].
  destruct (find (built o) face); cbn; by rewrite IH.
Qed.

Lemma insert_by_dimension_perm (s : Simplex) (l : list Simplex) :
  insert_by_dimension s l ≡ₚ s :: l.
Proof.
  induction l as [|t l IH]; cbn [insert_by_dimension]; [done|].
  destruct (dimension s <? dimension t)%nat; [done|]. by rewrite IH, perm_swap.
Qed.

Lemma insert_by_dimension_sorted (s : Simplex) (l : list Simplex) :
  StronglySorted (λ a b, dimension a ≤ dimension b)%nat l →
  StronglySorted (λ a b, dimension a ≤ dimension b)%nat (insert_by_dimension s l).
Proof.
  induction 1 as [|t l Hl IH Ht]; cbn [insert_by_dimension]; [repeat constructor|].
  destruct (Nat.ltb_spec (dimension s) (dimension t)).
  - constructor; [by constructor|]. constructor; [lia|].
    eapply Forall_impl; [exact Ht|]. intros; cbn in *; lia.
  - constructor; [done|]. rewrite insert_by_dimension_perm. by constructor.
Qed.

Lemma by_dimension_spec (K : SimplicialComplex) :
  by_dimension K ≡ₚ K ∧
  StronglySorted (λ a b, dimension a ≤ dimension b)%nat (by_dimension K).
Proof.
  unfold by_dimension.
  assert (∀ K acc, StronglySorted (λ a b, dimension a ≤ dimension b)%nat acc →
            foldl (λ l s, insert_by_dimension s l) acc K ≡ₚ acc ++ K ∧
            StronglySorted (λ a b, dimension a ≤ dimension b)%nat
              (foldl (λ l s, insert_by_dimension s l) acc K)) as H.
  { clear K. induction K as [|s K IH]; intros acc Hacc; cbn [foldl].
    - by rewrite app_nil_r.
    - destruct (IH (insert_by_dimension s acc)) as [H1 H2];
        [by apply insert_by_dimension_sorted|].
      split; [|done]. rewrite H1, insert_by_dimension_perm.
      by rewrite <- Permutation_middle. }
  apply (H K []). constructor.
Qed.

Lemma length_face (vs f : list nat) :
  f ∈ faces vs → S (length f) = length vs ∧ (1 ≤ length f)%nat.
Proof.
  unfold faces. destruct vs as [|a [|b vs]]; [by intros ?%elem_of_nil..|].
  intros (i & -> & Hi%elem_of_seq)%list_elem_of_fmap.
  rewrite length_delete; [cbn in *; lia|]. apply lookup_lt_is_Some_2. cbn in *. lia.
Qed.

Lemma face_weights_ext (S S' : SimplicialComplex) (s : Simplex) :
  (∀ face, face ∈ boundary s → find S' face = find S face) →
  face_weights S' s = face_weights S s.
Proof.
  unfold face_weights. induction (boundary s) as [|face l IH]; intros H; cbn; [done|].
  rewrite H by by left. rewrite IH; [done|]. intros face' Hf. apply H. by right.
Qed.

(** A simplex that comes later in the order of dimensions is no face of [t]. *)
Lemma find_snoc_face (S : SimplicialComplex) (s' t face : Simplex) :
  (dimension t ≤ dimension s')%nat → face ∈ boundary t →
  find (S ++ [s']) face = find S face.
Proof.
  intros Hdim (f & -> & [Hf Hf1]%length_face)%list_elem_of_fmap.
  rewrite find_app. destruct (find S _); [done|]. cbn [find vertices].
  rewrite decide_False; [done|]. intros Heq. unfold dimension in Hdim.
  rewrite Heq in Hdim. lia.
Qed.

Lemma foldl_max_ge (xs : list Z) (a x : Z) :
  x ∈ xs → (x ≤ foldl Z.max a xs)%Z.
Proof. intros Hx. by apply foldl_max. Qed.

Lemma maximum_weight_loop (m : nat) (K0 : SimplicialComplex) (l : list Simplex) :
  NoDup (vertices <$> l) →
  StronglySorted (λ a b, dimension a ≤ dimension b)%nat l →
  ∃ S, foldl (maximum_weight_step m) (mkObjects K0 []) l = mkObjects K0 S ∧
       S = (λ s, setData s (new_weight m S s)) <$> l.
Proof.
  induction l as [|s l IH] using rev_ind; intros Hnd Hsorted.
  - by exists [].
  - rewrite fmap_app in Hnd. apply NoDup_app in Hnd as (Hnd & Hs & _).
    apply StronglySorted_app in Hsorted as (Hls & Hsorted & _).
    destruct (IH Hnd Hsorted) as (S & HS & Hfix).
    rewrite foldl_snoc, HS, maximum_weight_step_eq. cbn [caller_K built].
    assert (vertices <$> S = vertices <$> l) as Hv.
    { rewrite Hfix at 1. rewrite <- list_fmap_compose. by apply list_fmap_ext. }
    rewrite push_back_new.
    2:{ rewrite setData_vertices, Hv. intros Hin. apply (Hs _ Hin). cbn. by left. }
    eexists. split; [done|].
    assert (∀ t, t ∈ l ++ [s] →
              new_weight m (S ++ [setData s (new_weight m S s)]) t = new_weight m S t)
      as Hsame.
    { intros t Ht. unfold new_weight. case_decide; [|done]. f_equal.
      apply face_weights_ext. intros face Hface.
      apply (find_snoc_face S _ t); [|done]. rewrite setData_dimension.
      apply elem_of_app in Ht as [Ht|Ht%list_elem_of_singleton]; [|by subst].
      apply Hls; [done|by left]. }
    rewrite fmap_app. cbn [fmap list_fmap]. f_equal.
    + rewrite Hfix at 1. apply list_fmap_ext. intros i t Ht.
      rewrite Hsame; [done|]. apply elem_of_app. left. by eapply list_elem_of_lookup_2.
    + rewrite Hsame; [done|]. apply elem_of_app. right. by left.
Qed.

(** C3, for a complex without repeated vertex sets: the complex [S]
    that [assignMaximumWeight] returns consists of the simplices of [K];
    a simplex of dimension at most [minDimension] is unchanged; a simplex
    of higher dimension has the largest among its own weight in [K] and the
    weights that its boundary faces have in [S]; hence no boundary face of
    a simplex of dimension above [minDimension] weighs more than the
    simplex. *)
Theorem assignMaximumWeight_weights (K : SimplicialComplex) (minDimension : nat) :
  NoDup (vertices <$> K) →
  assignMaximumWeight K minDimension
    ≡ₚ (λ s, setData s (new_weight minDimension (assignMaximumWeight K minDimension) s))
       <$> K ∧
  (∀ s, s ∈ K → (dimension s ≤ minDimension)%nat →
        s ∈ assignMaximumWeight K minDimension) ∧
  (∀ s, s ∈ K → (minDimension < dimension s)%nat →
        setData s (foldl Z.max (data s)
                     (face_weights (assignMaximumWeight K minDimension) s))
        ∈ assignMaximumWeight K minDimension) ∧
  (∀ s f, s ∈ assignMaximumWeight K minDimension →
          f ∈ assignMaximumWeight K minDimension →
          (minDimension < dimension s)%nat →
          vertices f ∈ faces (vertices s) → (data f ≤ data s)%Z).
Proof.
  intros Hnd. destruct (by_dimension_spec K) as [Hperm Hsorted].
  destruct (maximum_weight_loop minDimension K (by_dimension K)) as (S & HS & Hfix);
    [by rewrite Hperm|done|].
  assert (assignMaximumWeight K minDimension = S) as ->.
  { unfold assignMaximumWeight, assignMaximumWeight_call. cbn [caller_K]. by rewrite HS. }
  assert (∀ s, s ∈ K → setData s (new_weight minDimension S s) ∈ S) as Hin.
  { intros s Hs.
    assert (setData s (new_weight minDimension S s)
            ∈ (λ s, setData s (new_weight minDimension S s)) <$> by_dimension K) as H.
    { apply (list_elem_of_fmap_2 (λ s, setData s (new_weight minDimension S s))).
      by rewrite Hperm. }
    by rewrite <- Hfix in H. }
  assert (vertices <$> S = vertices <$> by_dimension K) as Hv.
  { rewrite Hfix at 1. rewrite <- list_fmap_compose. by apply list_fmap_ext. }
  split_and!.
  - rewrite Hfix at 1. by rewrite Hperm.
  - intros s Hs Hdim. specialize (Hin s Hs). unfold new_weight in Hin.
    rewrite decide_False in Hin by lia. by destruct s.
  - intros s Hs Hdim. specialize (Hin s Hs). unfold new_weight in Hin.
    by rewrite decide_True in Hin by done.
  - intros s f Hs Hf Hdim Hface. rewrite Hfix in Hs.
    apply list_elem_of_fmap in Hs as (s0 & -> & Hs0).
    rewrite setData_dimension in Hdim. rewrite setData_vertices in Hface.
    cbn [data setData]. unfold new_weight. rewrite decide_True by done.
    apply foldl_max_ge. unfold face_weights. apply list_elem_of_omap.
    exists (mkSimplex (vertices f) 0). split.
    + unfold boundary. by apply (list_elem_of_fmap_2 (λ vs, mkSimplex vs 0%Z)).
    + rewrite (find_unique S _ f); [done| |done..].
      rewrite Hv, Hperm. done.
Qed.

(** ** The graph of a complex and its cliques *)

Lemma add_edge_spec (lower : gmap nat (gset nat)) (e : Simplex) (v u : nat) :
  u ∈ lower_of (add_edge lower e) v ↔ u ∈ lower_of lower v ∨ adds e v u.
Proof.
  unfold add_edge, adds, lower_of. destruct (vertices e) as [|x [|y l]]; [tauto..|].
  destruct (x <? y)%nat.
  - destruct (decide (v = y)) as [->|Hne].
    + rewrite lookup_insert_eq. cbn. set_solver.
    + rewrite lookup_insert_ne by done. naive_solver.
  - destruct (decide (v = x)) as [->|Hne].
    + rewrite lookup_insert_eq. cbn. set_solver.
    + rewrite lookup_insert_ne by done. naive_solver.
Qed.

Lemma getLowerNeighbours_spec (K : SimplicialComplex) (v u : nat) :
  u ∈ lower_of (getLowerNeighbours K) v ↔ ∃ e, e ∈ range K 1 ∧ adds e v u.
Proof.
  unfold getLowerNeighbours. induction (range K 1) as [|e l IH] using rev_ind.
  - cbn. unfold lower_of. rewrite lookup_empty. cbn. split; [set_solver|].
    by intros (e & ?%elem_of_nil & _).
  - rewrite foldl_snoc, add_edge_spec, IH. split.
    + intros [(e' & He' & Hadds)|Hadds].
      * exists e'. split; [|done]. apply elem_of_app. by left.
      * exists e. split; [|done]. apply elem_of_app. right. by left.
    + intros (e' & [He'|He'%list_elem_of_singleton]%elem_of_app & Hadds).
      * left. by exists e'.
      * right. by subst.
Qed.

Lemma lower_of_edge (K : SimplicialComplex) (v u : nat) :
  skeleton K →
  u ∈ lower_of (getLowerNeighbours K) v ↔ (u < v)%nat ∧ edge K v u.
Proof.
  intros Hsk. rewrite getLowerNeighbours_spec. unfold adds, edge, range. split.
  - intros (e & [Hdim He]%list_elem_of_filter & Hadds).
    destruct (Hsk e He) as (Hdec & _ & _). unfold dimension in Hdim.
    destruct (vertices e) as [|x [|y [|z l]]] eqn:Hve; cbn in Hdim; try done.
    apply StronglySorted_cons in Hdec as [[Hxy _]%Forall_cons _].
    rewrite (proj2 (Nat.ltb_ge x y)) in Hadds by lia. destruct Hadds as [-> ->].
    split; [done|]. by exists e.
  - intros [Hlt (e & He & Hve)]. exists e. split.
    + apply list_elem_of_filter. split; [|done]. unfold dimension. by rewrite Hve.
    + rewrite Hve. by rewrite (proj2 (Nat.ltb_ge v u)) by lia.
Qed.

(** ** [intersect] *)

Lemma elem_of_iterate (X : gset nat) (x : nat) : x ∈ iterate X ↔ x ∈ X.
Proof. by rewrite iterate_elements, elem_of_elements. Qed.

Lemma NoDup_iterate (X : gset nat) : NoDup (iterate X).
Proof. rewrite iterate_elements. apply NoDup_elements. Qed.

Lemma intersect_spec (U V : gset nat) : intersect U V = U ∩ V.
Proof.
  assert (∀ (W : gset nat) (l : list nat) (r : gset nat) (x : nat),
            x ∈ foldl (λ result u, if decide (u ∈ W) then {[u]} ∪ result else result) r l
            ↔ x ∈ r ∨ (x ∈ l ∧ x ∈ W)) as Hloop.
  { intros W l. induction l as [|u l IH]; intros r x; cbn [foldl].
    - rewrite elem_of_nil. tauto.
    - rewrite IH, elem_of_cons. case_decide; set_solver. }
  apply set_eq. intros x. unfold intersect.
  case_decide; rewrite Hloop, elem_of_iterate; set_solver.
Qed.

(** ** The simplices that [addCofaces] appends *)

Lemma chain_spec (lower : gmap nat (gset nat)) (c : list nat) :
  ∀ N : gset nat,
  chain lower N c ↔
  Forall (λ n, n ∈ N) c ∧ StronglySorted (λ a b, b ∈ lower_of lower a) c.
Proof.
  induction c as [|n c IH]; intros N; cbn [chain].
  - split; [intros _; split; constructor|done].
  - rewrite IH, Forall_cons, StronglySorted_cons, !Forall_forall. set_solver.
Qed.

Lemma fmap_bind {A B C : Type} (f : B → C) (g : A → list B) (l : list A) :
  f <$> (l ≫= g) = l ≫= (λ x, f <$> g x).
Proof. induction l as [|x l IH]; cbn; [done|]. by rewrite fmap_app, IH. Qed.

Section Cofaces.

Variable lower : gmap nat (gset nat).
Hypothesis lower_below : ∀ v u, u ∈ lower_of lower v → (u < v)%nat.

Lemma Simplex_of_snoc (vs : list nat) (N : gset nat) (n : nat) :
  decreasing vs → below N vs → n ∈ N →
  vertices (Simplex_of (vs ++ [n])) = vs ++ [n] ∧ decreasing (vs ++ [n]).
Proof.
  intros Hvs HN Hn.
  assert (decreasing (vs ++ [n])) as Hdec.
  { apply decreasing_snoc; [done|]. intros x Hx. by apply (HN n x). }
  split; [|done]. cbn. by apply sort_desc_decreasing.
Qed.

Lemma below_snoc (vs : list nat) (N ln : gset nat) (n : nat) :
  below N vs → lower !! n = Some ln → below (intersect ln N) (vs ++ [n]).
Proof.
  intros HN Hln m x. rewrite intersect_spec.
  intros [Hm1 Hm2]%elem_of_intersection [Hx|Hx%list_elem_of_singleton]%elem_of_app.
  - by apply (HN m x).
  - subst x. apply lower_below. unfold lower_of. by rewrite Hln.
Qed.

Lemma cofaces_vertices (k : nat) :
  ∀ (vs : list nat) (N : gset nat) (x : list nat),
  decreasing vs → below N vs →
  x ∈ vertices <$> cofaces lower k vs N ↔
  ∃ c, x = vs ++ c ∧ c ≠ [] ∧ (length c ≤ k)%nat ∧ chain lower N c.
Proof.
  induction k as [|k IH]; intros vs N x Hvs HN; cbn [cofaces].
  - split; [by intros ?%elem_of_nil|].
    intros (c & _ & Hc & Hlen & _). destruct c; cbn in Hlen; [done|lia].
  - rewrite fmap_bind, list_elem_of_bind. split.
    + intros (n & Hx & Hn%elem_of_iterate).
      destruct (Simplex_of_snoc vs N n Hvs HN Hn) as [Hv Hdec].
      rewrite fmap_cons, Hv in Hx. apply elem_of_cons in Hx as [->|Hx].
      * exists [n]. split_and!; [done|done|cbn; lia|by cbn].
      * destruct (lower !! n) as [ln|] eqn:Hln; [|by apply elem_of_nil in Hx].
        apply IH in Hx as (c & -> & Hc & Hlen & Hchain);
          [|done|by apply below_snoc].
        exists (n :: c). rewrite <- (assoc_L (++)).
        split_and!; [done|done|cbn; lia|].
        cbn [chain]. split; [done|]. unfold lower_of. rewrite Hln. cbn.
        by rewrite <- intersect_spec.
    + intros ([|n c] & -> & Hc & Hlen & Hchain); [done|].
      cbn [chain] in Hchain. destruct Hchain as [Hn Hchain]. exists n.
      split; [|by apply elem_of_iterate].
      destruct (Simplex_of_snoc vs N n Hvs HN Hn) as [Hv Hdec].
      rewrite fmap_cons, Hv. destruct c as [|m c].
      * by left.
      * right. assert (m ∈ lower_of lower n) as Hm.
        { cbn [chain] in Hchain. set_solver. }
        unfold lower_of in Hm, Hchain.
        destruct (lower !! n) as [ln|] eqn:Hln; [|by apply elem_of_empty in Hm].
        cbn in Hchain. apply IH; [done|by apply below_snoc|].
        exists (m :: c). rewrite <- (assoc_L (++)).
        split_and!; [done|done|cbn in *; lia|by rewrite intersect_spec].
Qed.

Lemma cofaces_NoDup (k : nat) :
  ∀ (vs : list nat) (N : gset nat),
  decreasing vs → below N vs → NoDup (vertices <$> cofaces lower k vs N).
Proof.
  induction k as [|k IH]; intros vs N Hvs HN; cbn [cofaces]; [constructor|].
  rewrite fmap_bind.
  assert (∀ n y, n ∈ iterate N →
            y ∈ vertices <$> Simplex_of (vs ++ [n])
                  :: match lower !! n with
                     | Some ln => cofaces lower k (vertices (Simplex_of (vs ++ [n])))
                                          (intersect ln N)
                     | None => []
                     end →
            ∃ c, y = vs ++ n :: c ∧ (y = vs ++ [n] → c = [])) as Hshape.
  { intros n y Hn%elem_of_iterate Hy.
    destruct (Simplex_of_snoc vs N n Hvs HN Hn) as [Hv Hdec].
    rewrite fmap_cons, Hv in Hy. apply elem_of_cons in Hy as [->|Hy].
    - by exists [].
    - destruct (lower !! n) as [ln|] eqn:Hln; [|by apply elem_of_nil in Hy].
      apply cofaces_vertices in Hy as (c & -> & Hc & _); [|done|by apply below_snoc].
      exists c. rewrite <- (assoc_L (++)). split; [done|].
      intros Heq%app_inv_head. by simplify_eq/=. }
  apply NoDup_bind.
  - intros n1 n2 y Hn1 Hn2 Hy1 Hy2.
    destruct (Hshape n1 y Hn1 Hy1) as (c1 & -> & _).
    destruct (Hshape n2 _ Hn2 Hy2) as (c2 & Heq%app_inv_head & _). by simplify_eq.
  - intros n Hn. pose proof Hn as Hn'%elem_of_iterate.
    destruct (Simplex_of_snoc vs N n Hvs HN Hn') as [Hv Hdec].
    rewrite fmap_cons. constructor.
    + intros Hin. destruct (lower !! n) as [ln|] eqn:Hln; [|by apply elem_of_nil in Hin].
      rewrite Hv in Hin.
      apply cofaces_vertices in Hin as (c & Heq & Hc & _); [|done|by apply below_snoc].
      apply (f_equal length) in Heq. rewrite !length_app in Heq.
      destruct c; [done|]. cbn in Heq. lia.
    + destruct (lower !! n) as [ln|] eqn:Hln; [|constructor].
      rewrite Hv. apply IH; [done|by apply below_snoc].
  - apply NoDup_iterate.
Qed.

End Cofaces.

(** ** The expansion is the clique complex *)

Lemma StronglySorted_iff {A : Type} (R1 R2 : A → A → Prop) (l : list A) :
  (∀ a b, R1 a b ↔ R2 a b) → StronglySorted R1 l ↔ StronglySorted R2 l.
Proof.
  intros HR. induction l as [|a l IH]; [by split; constructor|].
  rewrite !StronglySorted_cons, IH, !Forall_forall. naive_solver.
Qed.

Lemma star_vertices (K : SimplicialComplex) (dim v : nat) (x : list nat) :
  skeleton K →
  x ∈ vertices <$> star (getLowerNeighbours K) dim v ↔
  ∃ c, x = v :: c ∧ (length c ≤ dim)%nat ∧
       chain (getLowerNeighbours K) (lower_of (getLowerNeighbours K) v) c.
Proof.
  intros Hsk.
  assert (∀ v u, u ∈ lower_of (getLowerNeighbours K) v → (u < v)%nat) as Hlow.
  { intros v' u Hu. by apply (lower_of_edge K v' u Hsk) in Hu as [? _]. }
  assert (decreasing [v]) as Hv by (repeat constructor).
  assert (below (lower_of (getLowerNeighbours K) v) [v]) as Hbelow.
  { intros n y Hn ->%list_elem_of_singleton. by apply Hlow. }
  unfold star. rewrite fmap_cons. cbn [Simplex_of vertices sort_desc foldr insert_desc].
  rewrite elem_of_cons. split.
  - intros [->|Hx].
    + exists []. split_and!; [done|cbn; lia|by cbn].
    + destruct (getLowerNeighbours K !! v) as [N|] eqn:HN; [|by apply elem_of_nil in Hx].
      assert (lower_of (getLowerNeighbours K) v = N) as HN'.
      { unfold lower_of. by rewrite HN. }
      rewrite HN' in *.
      apply (cofaces_vertices _ Hlow) in Hx as (c & -> & _ & ? & ?); [|done..].
      by exists c.
  - intros ([|n c] & -> & Hlen & Hchain); [by left|]. right.
    assert (n ∈ lower_of (getLowerNeighbours K) v) as Hn by (cbn in Hchain; tauto).
    destruct (getLowerNeighbours K !! v) as [N|] eqn:HN.
    + assert (lower_of (getLowerNeighbours K) v = N) as HN'.
      { unfold lower_of. by rewrite HN. }
      rewrite HN' in *.
      apply (cofaces_vertices _ Hlow); [done..|]. by exists (n :: c).
    + unfold lower_of in Hn. rewrite HN in Hn. by apply elem_of_empty in Hn.
Qed.

Lemma star_NoDup (K : SimplicialComplex) (dim v : nat) :
  skeleton K → NoDup (vertices <$> star (getLowerNeighbours K) dim v).
Proof.
  intros Hsk.
  assert (∀ v u, u ∈ lower_of (getLowerNeighbours K) v → (u < v)%nat) as Hlow.
  { intros v' u Hu. by apply (lower_of_edge K v' u Hsk) in Hu as [? _]. }
  assert (decreasing [v]) as Hv by (repeat constructor).
  unfold star. rewrite fmap_cons. cbn [Simplex_of vertices sort_desc foldr insert_desc].
  destruct (getLowerNeighbours K !! v) as [N|] eqn:HN; [|repeat constructor; set_solver].
  assert (below N [v]) as Hbelow.
  { intros n y Hn ->%list_elem_of_singleton. apply Hlow. unfold lower_of. by rewrite HN. }
  constructor; [|by apply (cofaces_NoDup _ Hlow)].
  intros (c & Heq & Hc & _)%(cofaces_vertices _ Hlow); [|done..].
  destruct c; [done|]. by apply (f_equal length) in Heq.
Qed.

Lemma expansion_cliques (K : SimplicialComplex) (dim : nat) :
  skeleton K →
  NoDup (vertices <$> expansion K dim) ∧
  ∀ x, x ∈ vertices <$> expansion K dim ↔ clique K dim x.
Proof.
  intros Hsk. destruct (vertices_of_spec K) as [Hinc HV].
  assert (∀ v, v ∈ vertices_of K ↔ vertex K v) as HV'.
  { intros v. rewrite HV. split.
    - intros (s & Hs & Hv). by apply (Hsk s Hs).
    - intros (s & Hs & Hv). exists s. split; [done|]. rewrite Hv. by left. }
  unfold expansion. rewrite fmap_bind. split.
  - apply NoDup_bind; [|intros; by apply star_NoDup|by apply increasing_NoDup].
    intros v1 v2 y _ _ (c1 & -> & _)%star_vertices (c2 & [= ->] & _)%star_vertices;
      done.
  - intros x. rewrite list_elem_of_bind. unfold clique. split.
    + intros (v & (c & -> & Hlen & [Hc1 Hc2]%chain_spec)%star_vertices & Hv); [|done].
      assert (Forall (λ u, (u < v)%nat ∧ edge K v u) c) as Hvc.
      { eapply Forall_impl; [exact Hc1|]. intros u Hu. by apply lower_of_edge. }
      split_and!; [done|cbn; lia| |].
      * constructor; [by apply HV'|]. eapply Forall_impl; [exact Hvc|].
        intros u [_ (e & He & Hve)]. apply (Hsk e He). rewrite Hve. set_solver.
      * constructor; [|done].
        eapply StronglySorted_iff; [|exact Hc2].
        intros a b. cbn. by rewrite lower_of_edge.
    + intros (Hne & Hlen & HVx & Hsorted). destruct x as [|v c]; [done|].
      apply Forall_cons in HVx as [Hv _].
      apply StronglySorted_cons in Hsorted as [Hvc Hsorted].
      exists v. split; [|by apply HV'].
      apply star_vertices; [done|]. exists c. split_and!; [done|cbn in Hlen; lia|].
      apply chain_spec. split.
      * eapply Forall_impl; [exact Hvc|]. intros u Hu. by apply lower_of_edge.
      * eapply StronglySorted_iff; [|exact Hsorted].
        intros a b. cbn. by rewrite lower_of_edge.
Qed.

(** C2: for the 0- and 1-skeleton [K] of a graph, [operator()] returns a
    complex in which no vertex set occurs twice and whose vertex sets,
    each listed in decreasing order, are the cliques of the graph that have
    at most [dim + 1] vertices. *)
Theorem expand_cliques (K : SimplicialComplex) (dim : nat) :
  skeleton K →
  ∃ R, expand K dim = Done R ∧
       NoDup (vertices <$> R) ∧
       ∀ x, x ∈ vertices <$> R ↔ clique K dim x.
Proof.
  intros Hsk. destruct (expansion_cliques K dim Hsk) as [Hnd Hcl].
  assert (vertices <$> (reassign K <$> expansion K dim) = vertices <$> expansion K dim)
    as Hv.
  { rewrite <- list_fmap_compose. apply list_fmap_ext. intros i s _. cbn.
    unfold reassign. case_decide; [|done]. by destruct (find K s). }
  exists (reassign K <$> expansion K dim). rewrite expand_eq, Hv.
  split_and!; [|done..]. f_equal. apply complex_of_NoDup. by rewrite Hv.
Qed.

(** ** Further properties of the expander *)

(** X14: [intersect] returns the vertices that the two sets have in
    common, whichever of the two is the smaller one and in whatever order
    the sets hand out their elements; so the order of its arguments does
    not matter, and the result is no larger than the smaller set. *)
Theorem intersect_common (U V : gset nat) :
  (∀ x, x ∈ intersect U V ↔ x ∈ U ∧ x ∈ V) ∧
  intersect U V = intersect V U ∧
  (size (intersect U V) ≤ size U `min` size V)%nat.
Proof.
  rewrite !intersect_spec. split_and!.
  - set_solver.
  - set_solver.
  - apply Nat.min_glb; apply subseteq_size; set_solver.
Qed.

Lemma sort_desc_singleton (v : nat) : sort_desc [v] = [v].
Proof. done. Qed.

Lemma reassign_vertices (K : SimplicialComplex) (s : Simplex) :
  vertices (reassign K s) = vertices s.
Proof. unfold reassign. case_decide; [|done]. by destruct (find K s). Qed.

(** X16: with [dimension] 0 [operator()] returns the vertices of [K] and
    nothing else: one 0-simplex for every vertex that occurs in a simplex
    of [K], in increasing order, with the weight that the 0-simplex has in
    [K], or [DataType()] when [K] does not have it.  The empty complex is
    expanded to the empty complex, whatever the dimension. *)
Theorem expand_dimension_zero (K : SimplicialComplex) :
  expand K 0 = Done ((λ v, reassign K (Simplex_of [v])) <$> vertices_of K) ∧
  (∀ R, expand K 0 = Done R → vertices <$> R = (λ v, [v]) <$> vertices_of K) ∧
  ∀ dim, expand [] dim = Done [].
Proof.
  assert (expand K 0 = Done ((λ v, reassign K (Simplex_of [v])) <$> vertices_of K)) as HR.
  { rewrite expand_eq. f_equal.
    assert (expansion K 0 = Simplex_of ∘ (λ v, [v]) <$> vertices_of K) as ->.
    { unfold expansion. induction (vertices_of K) as [|v l IH]; [done|].
      rewrite bind_cons, IH, fmap_cons. unfold star.
      by destruct (getLowerNeighbours K !! v). }
    rewrite <- list_fmap_compose. apply complex_of_NoDup.
    rewrite <- list_fmap_compose.
    apply (NoDup_fmap_2_strong _); [|apply increasing_NoDup, vertices_of_spec].
    intros x y _ _. cbn. rewrite !reassign_vertices. by intros [= ->]. }
  split_and!; [done| |].
  - rewrite HR. intros R [= <-]. rewrite <- list_fmap_compose. apply list_fmap_ext.
    intros i v _. cbn. by rewrite reassign_vertices.
  - intros dim. by rewrite expand_eq.
Qed.

Lemma StronglySorted_delete {A : Type} (R : A → A → Prop) (l : list A) (i : nat) :
  StronglySorted R l → StronglySorted R (delete i l).
Proof.
  intros Hl. revert i. induction Hl as [|x l Hl IH Hx]; intros [|i]; cbn; try done.
  - constructor.
  - constructor.
  - constructor; [apply IH|]. by apply Forall_delete.
Qed.

Lemma clique_face (K : SimplicialComplex) (dim : nat) (x f : list nat) :
  clique K dim x → f ∈ faces x → clique K dim f.
Proof.
  intros (Hne & Hlen & HV & Hsorted) Hf.
  destruct (length_face x f Hf) as [Hlf Hf1].
  unfold faces in Hf. destruct x as [|a [|b x]]; [by apply elem_of_nil in Hf..|].
  apply list_elem_of_fmap in Hf as (i & -> & _).
  split_and!.
  - intros Hnil. rewrite Hnil in Hf1. cbn in Hf1. lia.
  - lia.
  - by apply Forall_delete.
  - by apply StronglySorted_delete.
Qed.

(** X17: for the skeleton of a graph the complex that [operator()]
    returns is closed under taking faces: with a simplex it has every
    boundary face of the simplex. *)
Theorem expand_closed_under_faces (K : SimplicialComplex) (dim : nat) :
  skeleton K →
  ∃ R, expand K dim = Done R ∧
       ∀ s f, s ∈ R → f ∈ faces (vertices s) → ∃ t, t ∈ R ∧ vertices t = f.
Proof.
  intros Hsk. destruct (expansion_cliques K dim Hsk) as [Hnd Hcl].
  assert (vertices <$> (reassign K <$> expansion K dim) = vertices <$> expansion K dim)
    as Hv.
  { rewrite <- list_fmap_compose. apply list_fmap_ext. intros i s _. cbn.
    apply reassign_vertices. }
  exists (reassign K <$> expansion K dim). rewrite expand_eq. split.
  - f_equal. apply complex_of_NoDup. by rewrite Hv.
  - intros s f Hs Hf.
    assert (f ∈ vertices <$> (reassign K <$> expansion K dim)) as Hin.
    { rewrite Hv. apply Hcl. apply (clique_face K dim (vertices s)); [|done].
      apply Hcl. rewrite <- Hv. by apply list_elem_of_fmap_2. }
    apply list_elem_of_fmap in Hin as (t & -> & Ht). by exists t.
Qed.

(** ** Further properties of the weight assignments *)

Lemma value_of_unique (K : SimplicialComplex) (dataValues : list Z) (v : nat) (x y : Z) :
  value_of K dataValues v x → value_of K dataValues v y → x = y.
Proof.
  intros (i & Hi & Hx) (j & Hj & Hy).
  assert (i = j) as ->; [|congruence].
  apply (NoDup_lookup (vertices_of K) i j v); [|done..].
  apply increasing_NoDup, vertices_of_spec.
Qed.

(** X18: [assignMaximumData] gives weights that never decrease towards
    larger simplices: when the vertices of a simplex [f] of the result are
    among the vertices of a simplex [s] of the result, [f] weighs at most
    as much as [s].  There are at least as many values as [K] has
    vertices. *)
Theorem assignMaximumData_monotone (K : SimplicialComplex) (dataValues : list Z) :
  (length (vertices_of K) ≤ length dataValues)%nat →
  ∃ S, assignMaximumData K dataValues = Done S ∧
       ∀ s f, s ∈ S → f ∈ S → vertices f ⊆ vertices s → (data f ≤ data s)%Z.
Proof.
  intros Hlen.
  destruct (assignData_call_spec K dataValues lowest (λ a b, Z.max a b) Hlen)
    as (S & HS & _ & Hd).
  exists S. unfold assignMaximumData, assignMaximumData_call. rewrite HS.
  split; [done|]. intros s f Hs Hf Hsub.
  destruct (Hd s Hs) as (xs & Hxs & ->). destruct (Hd f Hf) as (ys & Hys & ->).
  change (λ a b, Z.max a b) with Z.max.
  destruct (foldl_max xs lowest) as (Hlow & Hge & _).
  assert (∀ y, y ∈ ys → y ∈ xs) as Hin.
  { intros y [j Hj]%list_elem_of_lookup.
    destruct (Forall2_lookup_r _ _ _ _ _ Hys Hj) as (v & Hv & Hvy).
    assert (v ∈ vertices s) as [i Hi]%list_elem_of_lookup
      by (apply Hsub; by eapply list_elem_of_lookup_2).
    destruct (Forall2_lookup_l _ _ _ _ _ Hxs Hi) as (x & Hx & Hvx).
    rewrite (value_of_unique K dataValues v y x Hvy Hvx).
    by eapply list_elem_of_lookup_2. }
  clear Hys Hxs. set (M := foldl Z.max lowest xs) in *. clearbody M.
  revert Hlow Hin. generalize lowest.
  induction ys as [|y ys IH]; intros a Ha Hin; cbn [foldl]; [done|].
  apply IH.
  - apply Z.max_lub; [done|]. apply Hge, Hin. by left.
  - intros y' Hy'. apply Hin. by right.
Qed.

(** X19: [assignData] reads [dataValues] at the positions of the vertices
    of [K], and at no other: the indices that it reads are exactly the
    indices below the number of vertices.  So all its reads are within
    [dataValues] exactly when there are at least as many values as vertices;
    with fewer values, one of the reads, which the code does not check, is
    past the end of the vector. *)
Theorem assignData_reads_indices (K : SimplicialComplex) (dataValues : list Z) :
  (∀ i, i ∈ assignData_reads K ↔ (i < length (vertices_of K))%nat) ∧
  (Forall (λ i, is_Some (dataValues !! i)) (assignData_reads K)
   ↔ (length (vertices_of K) ≤ length dataValues)%nat).
Proof.
  destruct (vertices_of_spec K) as [Hinc HV].
  pose proof (increasing_NoDup _ Hinc) as Hnd.
  assert (∀ i, i ∈ assignData_reads K ↔ (i < length (vertices_of K))%nat) as Hreads.
  { intros i. unfold assignData_reads. rewrite list_elem_of_bind. split.
    - intros (s & (v & -> & Hv)%list_elem_of_fmap & Hs).
      assert (v ∈ vertices_of K) as [j Hj]%list_elem_of_lookup by (apply HV; by exists s).
      rewrite (index_vertices_spec _ j v Hnd Hj). cbn. by eapply lookup_lt_Some.
    - intros [v Hv]%lookup_lt_is_Some_2.
      destruct (proj1 (HV v)) as (s & Hs & Hvs); [by eapply list_elem_of_lookup_2|].
      exists s. split; [|done]. apply list_elem_of_fmap. exists v. split; [|done].
      by rewrite (index_vertices_spec _ i v Hnd Hv). }
  split; [done|]. rewrite Forall_forall. split.
  - intros Hall. destruct (decide (length (vertices_of K) ≤ length dataValues)%nat) as [|Hlt];
      [done|].
    assert (length dataValues ∈ assignData_reads K) as Hin by (apply Hreads; lia).
    apply Hall, lookup_lt_is_Some in Hin. lia.
  - intros Hlen i Hi%Hreads. apply lookup_lt_is_Some. lia.
Qed.

Lemma insert_by_dimension_last (s : Simplex) (l : list Simplex) :
  Forall (λ t, dimension t ≤ dimension s)%nat l → insert_by_dimension s l = l ++ [s].
Proof.
  induction 1 as [|t l Ht _ IH]; [done|]. cbn [insert_by_dimension].
  rewrite (proj2 (Nat.ltb_ge _ _)) by done. by rewrite IH.
Qed.

Lemma by_dimension_sorted (l : list Simplex) :
  StronglySorted (λ a b, dimension a ≤ dimension b)%nat l → by_dimension l = l.
Proof.
  unfold by_dimension.
  assert (∀ K acc, StronglySorted (λ a b, dimension a ≤ dimension b)%nat (acc ++ K) →
            foldl (λ l s, insert_by_dimension s l) acc K = acc ++ K) as H.
  { clear l. induction K as [|s K IH]; intros acc Hs; cbn [foldl]; [by rewrite app_nil_r|].
    rewrite insert_by_dimension_last.
    - rewrite IH; [by rewrite <- (assoc_L (++))|]. by rewrite <- (assoc_L (++)).
    - apply StronglySorted_app in Hs as (Hs & _ & _).
      apply Forall_forall. intros t Ht. apply Hs; [done|by left]. }
  intros Hl. by apply (H l []).
Qed.

Lemma foldl_max_idem (ws : list Z) (a : Z) :
  foldl Z.max (foldl Z.max a ws) ws = foldl Z.max a ws.
Proof.
  destruct (foldl_max ws a) as (Ha & Hws & _).
  set (M := foldl Z.max a ws) in *. clearbody M.
  assert (∀ l b, b = M → (∀ x, x ∈ l → (x ≤ M)%Z) → foldl Z.max b l = M) as H.
  { induction l as [|x l IH]; intros b -> Hl; cbn [foldl]; [done|].
    apply IH; [|intros; apply Hl; by right].
    apply Z.max_l, Hl. by left. }
  by apply H.
Qed.

(** The equation of [maximum_weight_loop] has one solution only. *)
Lemma weight_fixpoint_unique (m : nat) (l : list Simplex) :
  StronglySorted (λ a b, dimension a ≤ dimension b)%nat l →
  ∀ X Y : SimplicialComplex,
  X = (λ s, setData s (new_weight m X s)) <$> l →
  Y = (λ s, setData s (new_weight m Y s)) <$> l →
  X = Y.
Proof.
  induction l as [|s l IH] using rev_ind; intros Hsorted X Y HX HY;
    [cbn in HX, HY; by subst|].
  apply StronglySorted_app in Hsorted as (Hls & Hsorted & _).
  assert (∀ Z : SimplicialComplex,
    Z = (λ s, setData s (new_weight m Z s)) <$> l ++ [s] →
    ∃ Z1, Z = Z1 ++ [setData s (new_weight m Z1 s)] ∧
          Z1 = (λ s, setData s (new_weight m Z1 s)) <$> l) as Hsplit.
  { intros Z HZ. rewrite fmap_app in HZ. cbn [fmap list_fmap] in HZ.
    set (Z1 := (λ s, setData s (new_weight m Z s)) <$> l) in *.
    assert (∀ t, t ∈ l ++ [s] → new_weight m Z t = new_weight m Z1 t) as Hsame.
    { intros t Ht. unfold new_weight. case_decide; [|done]. f_equal.
      apply face_weights_ext. intros face Hface. rewrite HZ.
      apply (find_snoc_face Z1 _ t); [|done]. rewrite setData_dimension.
      apply elem_of_app in Ht as [Ht|Ht%list_elem_of_singleton]; [|by subst].
      apply Hls; [done|by left]. }
    exists Z1. split.
    - rewrite HZ at 1. rewrite (Hsame s); [done|]. apply elem_of_app. right. by left.
    - unfold Z1 at 1. apply list_fmap_ext. intros i t Ht. cbn. f_equal.
      apply Hsame, elem_of_app. left. by eapply list_elem_of_lookup_2. }
  destruct (Hsplit X HX) as (X1 & -> & HX1).
  destruct (Hsplit Y HY) as (Y1 & -> & HY1).
  by rewrite (IH Hsorted X1 Y1 HX1 HY1).
Qed.

(** X20: for a complex without repeated vertex sets the complex that
    [assignMaximumWeight] returns lists the simplices by dimension, and a
    second pass changes nothing: the returned complex is a fixed point of
    [assignMaximumWeight]. *)
Theorem assignMaximumWeight_idempotent (K : SimplicialComplex) (minDimension : nat) :
  NoDup (vertices <$> K) →
  StronglySorted (λ a b, dimension a ≤ dimension b)%nat
    (assignMaximumWeight K minDimension) ∧
  assignMaximumWeight (assignMaximumWeight K minDimension) minDimension
  = assignMaximumWeight K minDimension.
Proof.
  intros Hnd. destruct (by_dimension_spec K) as [Hperm Hsorted].
  destruct (maximum_weight_loop minDimension K (by_dimension K)) as (S & HS & Hfix);
    [by rewrite Hperm|done|].
  assert (assignMaximumWeight K minDimension = S) as ->.
  { unfold assignMaximumWeight, assignMaximumWeight_call. cbn [caller_K]. by rewrite HS. }
  assert (vertices <$> S = vertices <$> by_dimension K) as Hv.
  { rewrite Hfix at 1. rewrite <- list_fmap_compose. by apply list_fmap_ext. }
  assert (StronglySorted (λ a b, dimension a ≤ dimension b)%nat S) as HsS.
  { rewrite Hfix. eapply StronglySorted_fmap; [|exact Hsorted].
    intros x y Hxy. by rewrite !setData_dimension. }
  split; [done|].
  destruct (maximum_weight_loop minDimension S S) as (S2 & HS2 & Hfix2);
    [by rewrite Hv, Hperm|done|].
  unfold assignMaximumWeight, assignMaximumWeight_call. cbn [caller_K].
  rewrite by_dimension_sorted, HS2 by done. cbn [built].
  apply (weight_fixpoint_unique minDimension S HsS); [done|].
  rewrite <- (list_fmap_id S) at 1. apply list_fmap_ext. intros i s' Hs'. cbn.
  apply list_elem_of_lookup_2 in Hs'. rewrite Hfix in Hs'.
  apply list_elem_of_fmap in Hs' as (s & -> & Hs).
  set (w := new_weight minDimension S s).
  assert (new_weight minDimension S (setData s w) = w) as ->; [|done].
  unfold new_weight at 1. rewrite setData_dimension. subst w. unfold new_weight.
  case_decide; [|done]. cbn [data setData].
  change (face_weights S (mkSimplex (vertices s) _)) with (face_weights S s).
  by rewrite foldl_max_idem.
Qed.

(** ** The expansion as a set, and its weights after [assignMaximumWeight] *)

Lemma expand_members (K : SimplicialComplex) (dim : nat) :
  skeleton K →
  ∃ R, expand K dim = Done R ∧ NoDup (vertices <$> R) ∧
       (∀ x, x ∈ vertices <$> R ↔ clique K dim x) ∧
       ∀ s, s ∈ R → s = reassign K (mkSimplex (vertices s) 0).
Proof.
  intros Hsk. destruct (expansion_cliques K dim Hsk) as [Hnd Hcl].
  assert (vertices <$> (reassign K <$> expansion K dim) = vertices <$> expansion K dim)
    as Hv.
  { rewrite <- list_fmap_compose. apply list_fmap_ext. intros i s _. cbn.
    apply reassign_vertices. }
  exists (reassign K <$> expansion K dim). rewrite expand_eq, Hv.
  split_and!; [|done..|].
  - f_equal. apply complex_of_NoDup. by rewrite Hv.
  - intros s (s0 & -> & Hs0)%list_elem_of_fmap. rewrite reassign_vertices.
    apply expansion_data in Hs0. destruct s0 as [vs d]. cbn in *. by subst.
Qed.

Lemma elem_of_delete_ne {A : Type} (l : list A) (i : nat) (x c : A) :
  x ∈ l → l !! i = Some c → x ≠ c → x ∈ delete i l.
Proof.
  revert i. induction l as [|a l IH]; intros [|i] Hx Hi Hne; cbn in *; try done.
  - simplify_eq. by apply elem_of_cons in Hx as [->|Hx].
  - apply elem_of_cons in Hx as [->|Hx]; [by left|]. right. by eapply IH.
Qed.

Lemma third_vertex (vs : list nat) (x y : nat) :
  NoDup vs → (3 ≤ length vs)%nat → ∃ i c, vs !! i = Some c ∧ c ≠ x ∧ c ≠ y.
Proof.
  destruct vs as [|a [|b [|c vs]]]; cbn; try lia. intros Hnd _.
  apply NoDup_cons in Hnd as [Ha Hnd]. apply NoDup_cons in Hnd as [Hb Hnd].
  assert (a ≠ b) by set_solver. assert (a ≠ c) by set_solver.
  assert (b ≠ c) by set_solver.
  destruct (decide (a = x ∨ a = y)); [|exists 0%nat, a; split; [done|lia]].
  destruct (decide (b = x ∨ b = y)); [|exists 1%nat, b; split; [done|lia]].
  exists 2%nat, c. split; [done|lia].
Qed.

Lemma face_delete (vs : list nat) (i : nat) :
  (2 ≤ length vs)%nat → (i < length vs)%nat → delete i vs ∈ faces vs.
Proof.
  intros H2 Hi. unfold faces. destruct vs as [|a [|b vs]]; cbn in H2; try lia.
  apply (list_elem_of_fmap_2 (λ i, delete i (a :: b :: vs))). apply elem_of_seq. lia.
Qed.

Lemma clique_decreasing (K : SimplicialComplex) (dim : nat) (x : list nat) :
  clique K dim x → decreasing x.
Proof.
  intros (_ & _ & _ & Hs). unfold decreasing.
  induction Hs as [|a l _ IH Ha]; constructor; [done|].
  eapply Forall_impl; [exact Ha|]. by intros b [? _].
Qed.

Lemma same_edge (K : SimplicialComplex) (e e0 : Simplex) :
  skeleton K → NoDup (vertices <$> K) → e ∈ K → e0 ∈ K →
  dimension e = 1%nat → dimension e0 = 1%nat → vertices e ⊆ vertices e0 → e = e0.
Proof.
  intros Hsk Hnd He He0 Hd Hd0 Hsub.
  assert (vertices e = vertices e0) as Hv.
  { destruct (Hsk e He) as (Hdec & _ & _). destruct (Hsk e0 He0) as (Hdec0 & _ & _).
    unfold dimension in Hd, Hd0.
    destruct (vertices e) as [|x [|y [|? ?]]]; cbn in Hd; try done.
    destruct (vertices e0) as [|a [|b [|? ?]]]; cbn in Hd0; try done.
    apply StronglySorted_cons in Hdec as [[Hxy _]%Forall_cons _].
    apply StronglySorted_cons in Hdec0 as [[Hab _]%Forall_cons _].
    assert (x ∈ [a; b]) as Hx by (apply Hsub; by left).
    assert (y ∈ [a; b]) as Hy by (apply Hsub; right; by left).
    apply elem_of_cons in Hx as [->|Hx%list_elem_of_singleton];
      apply elem_of_cons in Hy as [->|Hy%list_elem_of_singleton]; subst; try lia; done. }
  pose proof (find_unique K e e Hnd He eq_refl) as H1.
  pose proof (find_unique K e e0 Hnd He0 (eq_sym Hv)) as H2. congruence.
Qed.

(** X21: the expansion followed by [assignMaximumWeight] with its default
    [minDimension] of 1, for the skeleton [K] of a graph in which no vertex
    set is stored twice.  The complex still consists of the cliques; the
    vertices and edges keep the weights they got from [K]; a simplex of
    dimension 2 or more gets the largest weight among the edges of [K]
    between its vertices, or 0 when all of these weights are below 0. *)
Theorem expand_then_maximum_weight (K : SimplicialComplex) (dim : nat) :
  skeleton K → NoDup (vertices <$> K) →
  ∃ R, expand K dim = Done R ∧
       vertices <$> assignMaximumWeight R 1 ≡ₚ vertices <$> R ∧
       ∀ s, s ∈ assignMaximumWeight R 1 →
         ((dimension s ≤ 1)%nat → s ∈ R) ∧
         ((2 ≤ dimension s)%nat →
            (0 ≤ data s)%Z ∧
            (∀ e, e ∈ K → dimension e = 1%nat → vertices e ⊆ vertices s →
                  (data e ≤ data s)%Z) ∧
            (data s = 0%Z ∨
             ∃ e, e ∈ K ∧ dimension e = 1%nat ∧ vertices e ⊆ vertices s ∧
                  data s = data e)).
Proof.
  intros Hsk HndK. destruct (expand_members K dim Hsk) as (R & HR & HndR & Hcl & Hre).
  exists R. split; [done|].
  destruct (by_dimension_spec R) as [Hperm Hsorted].
  destruct (maximum_weight_loop 1 R (by_dimension R)) as (S & HS & Hfix);
    [by rewrite Hperm|done|].
  assert (assignMaximumWeight R 1 = S) as ->.
  { unfold assignMaximumWeight, assignMaximumWeight_call. cbn [caller_K]. by rewrite HS. }
  assert (vertices <$> S = vertices <$> by_dimension R) as Hv.
  { rewrite Hfix at 1. rewrite <- list_fmap_compose. by apply list_fmap_ext. }
  split; [by rewrite Hv, Hperm|].
  assert (∀ s', s' ∈ S → ∃ s, s ∈ R ∧ s' = setData s (new_weight 1 S s)) as Hfrom.
  { intros s' Hs'. rewrite Hfix in Hs'.
    apply list_elem_of_fmap in Hs' as (s & -> & Hs). exists s.
    split; [by rewrite <- Hperm|done]. }
  assert (∀ s, s ∈ R → clique K dim (vertices s)) as HclR.
  { intros s Hs. apply Hcl. by apply list_elem_of_fmap_2. }
  assert (∀ s f, s ∈ R → f ∈ faces (vertices s) →
            ∃ t, find S (mkSimplex f 0) = Some t ∧ t ∈ S ∧ vertices t = f) as Hface.
  { intros s f Hs Hf.
    assert (f ∈ vertices <$> S) as Hin.
    { rewrite Hv, Hperm. apply Hcl, (clique_face K dim (vertices s)); [|done].
      by apply HclR. }
    destruct (find S (mkSimplex f 0)) as [t|] eqn:Hfind.
    - apply find_Some in Hfind as [Ht Hvt]. by exists t.
    - by apply find_None in Hfind. }
  assert (∀ s, s ∈ R → dimension s = 1%nat →
            ∃ e, e ∈ K ∧ vertices e = vertices s ∧ data s = data e) as Hedge.
  { intros s Hs Hdim. pose proof (HclR s Hs) as (_ & _ & _ & Hsorted').
    rewrite (f_equal data (Hre s Hs)). unfold reassign.
    change (dimension (mkSimplex (vertices s) 0)) with (dimension s).
    rewrite decide_True by lia. unfold dimension in Hdim.
    destruct (vertices s) as [|a [|b [|? ?]]] eqn:Hvs; cbn in Hdim; try done.
    apply StronglySorted_cons in Hsorted' as [[[_ (e & He & Hve)] _]%Forall_cons _].
    destruct (find K (mkSimplex [a; b] 0)) as [e'|] eqn:Hfind.
    - apply find_Some in Hfind as [He' Hve']. by exists e'.
    - apply find_None in Hfind. exfalso. apply Hfind. cbn. rewrite <- Hve.
      by apply list_elem_of_fmap_2. }
  assert (∀ s, s ∈ R → (2 ≤ dimension s)%nat → data s = 0%Z) as Hzero.
  { intros s Hs Hdim. rewrite (f_equal data (Hre s Hs)). unfold reassign.
    change (dimension (mkSimplex (vertices s) 0)) with (dimension s).
    by rewrite decide_False by lia. }
  assert (∀ n s, s ∈ S → dimension s = Datatypes.S n →
            (∀ e, e ∈ K → dimension e = 1%nat → vertices e ⊆ vertices s →
                  (data e ≤ data s)%Z) ∧
            ((2 ≤ dimension s)%nat ∧ data s = 0%Z ∨
             ∃ e, e ∈ K ∧ dimension e = 1%nat ∧ vertices e ⊆ vertices s ∧
                  data s = data e) ∧
            ((2 ≤ dimension s)%nat → (0 ≤ data s)%Z)) as Hall.
  { induction n as [|n IH]; intros s' Hs' Hdim.
    - destruct (Hfrom s' Hs') as (s & Hs & ->). rewrite setData_dimension in Hdim.
      unfold new_weight. rewrite decide_False by lia.
      destruct (Hedge s Hs Hdim) as (e0 & He0 & Hve0 & Hde0).
      assert (dimension e0 = 1%nat) as Hd0 by (unfold dimension in *; by rewrite Hve0).
      cbn [data vertices setData]. split_and!.
      + intros e He Hd Hsub. rewrite <- Hve0 in Hsub.
        by rewrite (same_edge K e e0 Hsk HndK He He0 Hd Hd0 Hsub), Hde0.
      + right. exists e0. split_and!; [done..| |done]. by rewrite Hve0.
      + rewrite setData_dimension. lia.
    - destruct (Hfrom s' Hs') as (s & Hs & ->). rewrite setData_dimension in Hdim.
      rewrite setData_dimension. unfold new_weight. rewrite decide_True by lia.
      rewrite (Hzero s Hs) by lia. cbn [data vertices setData].
      assert (length (vertices s) = Datatypes.S (Datatypes.S (Datatypes.S n))) as Hlen.
      { unfold dimension in Hdim. destruct (vertices s); cbn in *; lia. }
      assert (∀ f, f ∈ faces (vertices s) →
                ∃ t, t ∈ S ∧ vertices t = f ∧ dimension t = Datatypes.S n ∧
                     data t ∈ face_weights S s) as Hfs.
      { intros f Hf. destruct (Hface s f Hs Hf) as (t & Hfind & Ht & Hvt).
        exists t. split_and!; [done..| |].
        - destruct (length_face _ _ Hf) as [Hlf _]. unfold dimension. rewrite Hvt. lia.
        - unfold face_weights. apply list_elem_of_omap. exists (mkSimplex f 0).
          split; [by apply (list_elem_of_fmap_2 (λ vs, mkSimplex vs 0%Z))|].
          by rewrite Hfind. }
      assert (∀ w, w ∈ face_weights S s →
                ∃ t, t ∈ S ∧ vertices t ∈ faces (vertices s) ∧
                     dimension t = Datatypes.S n ∧ data t = w) as Hws.
      { intros w (face & (f & -> & Hf)%list_elem_of_fmap & Hw)%list_elem_of_omap.
        destruct (Hface s f Hs Hf) as (t & Hfind & Ht & Hvt).
        rewrite Hfind in Hw. cbn in Hw. simplify_eq. exists t.
        split_and!; [done..| |done].
        destruct (length_face _ _ Hf) as [Hlf _]. unfold dimension. lia. }
      destruct (foldl_max (face_weights S s) 0) as (H0 & Hge & Hatt).
      split_and!.
      + intros e He Hd Hsub.
        assert (∃ x y, vertices e = [x; y]) as (x & y & Hve).
        { unfold dimension in Hd. destruct (vertices e) as [|x [|y [|? ?]]]; cbn in Hd;
            try done. by eauto. }
        destruct (third_vertex (vertices s) x y) as (i & c & Hi & Hcx & Hcy).
        { eapply decreasing_NoDup, clique_decreasing. by apply HclR. }
        { lia. }
        destruct (Hfs (delete i (vertices s))) as (t & Ht & Hvt & Hdt & Hdata).
        { apply face_delete; [lia|]. by eapply lookup_lt_Some. }
        destruct (IH t Ht Hdt) as (Hup & _ & _).
        etrans; [|by apply Hge]. apply Hup; [done..|].
        rewrite Hvt, Hve. intros z Hz.
        apply (elem_of_delete_ne _ i z c); [apply Hsub; by rewrite Hve|done|].
        apply elem_of_cons in Hz as [->|Hz%list_elem_of_singleton]; [done|by subst].
      + destruct Hatt as [Hatt|Hatt]; [left; split; [lia|done]|].
        destruct (Hws _ Hatt) as (t & Ht & Hvt & Hdt & Hdata).
        destruct (IH t Ht Hdt) as (_ & [[_ Hz]|(e & He & Hd & Hsub & Hde)] & _).
        * left. split; [lia|]. by rewrite <- Hdata.
        * right. exists e. split_and!; [done..| |by rewrite <- Hdata].
          intros z Hz%Hsub. unfold faces in Hvt.
          destruct (vertices s) as [|a [|b vs]]; [by apply elem_of_nil in Hvt..|].
          apply list_elem_of_fmap in Hvt as (i & Hvt & _). rewrite Hvt in Hz.
          by eapply list_elem_of_delete_inv.
      + done. }
  intros s' Hs'. split.
  - intros Hdim. destruct (Hfrom s' Hs') as (s & Hs & ->).
    rewrite setData_dimension in Hdim. unfold new_weight.
    rewrite decide_False by lia. by destruct s.
  - intros Hdim. destruct (dimension s') as [|n] eqn:Hn; [lia|].
    destruct (Hall n s' Hs' Hn) as (Hup & Hatt & H0). split_and!; [apply H0; lia|done|].
    destruct Hatt as [[_ ?]|?]; by eauto.
Qed.


(** ** What the expansion reads of [K] *)

Lemma expand_members_iff (K : SimplicialComplex) (dim : nat) :
  skeleton K →
  ∃ R, expand K dim = Done R ∧
       ∀ s, s ∈ R ↔ clique K dim (vertices s) ∧ s = reassign K (mkSimplex (vertices s) 0).
Proof.
  intros Hsk. destruct (expand_members K dim Hsk) as (R & HR & _ & Hcl & Hre).
  exists R. split; [done|]. intros s. split.
  - intros Hs. split; [|by apply Hre]. apply Hcl. by apply list_elem_of_fmap_2.
  - intros [(t & Hvt & Ht)%Hcl%list_elem_of_fmap ->]. by rewrite Hvt, <- (Hre t Ht).
Qed.

(** X24: for the skeleton of a graph, raising the dimension only adds
    simplices: the complex for the dimension [d] consists of the simplices
    of dimension at most [d] of the complex for any dimension above [d],
    with the same weights. *)
Theorem expand_monotone (K : SimplicialComplex) (d d' : nat) :
  skeleton K → (d ≤ d')%nat →
  ∃ R R', expand K d = Done R ∧ expand K d' = Done R' ∧
          ∀ s, s ∈ R ↔ s ∈ R' ∧ (dimension s ≤ d)%nat.
Proof.
  intros Hsk Hd.
  destruct (expand_members_iff K d Hsk) as (R & HR & Hin).
  destruct (expand_members_iff K d' Hsk) as (R' & HR' & Hin').
  exists R, R'. split_and!; [done..|]. intros s. rewrite Hin, Hin'. unfold clique, dimension.
  split.
  - intros [(Hne & Hlen & HV & Hs) Hre]. split_and!; [done|lia|done..|lia].
  - intros [[(Hne & Hlen & HV & Hs) Hre] Hdim]. split_and!; [done| |done..].
    destruct (vertices s); [done|]. cbn in *. lia.
Qed.

Lemma increasing_ext (l1 l2 : list nat) :
  StronglySorted lt l1 → StronglySorted lt l2 → (∀ x, x ∈ l1 ↔ x ∈ l2) → l1 = l2.
Proof.
  intros H1. revert l2. induction H1 as [|a l1 H1 IH Ha]; intros l2 H2 Hext.
  - destruct l2 as [|b l2]; [done|]. exfalso. apply (elem_of_nil b), Hext. by left.
  - destruct H2 as [|b l2 H2 Hb].
    { exfalso. apply (elem_of_nil a), Hext. by left. }
    rewrite Forall_forall in Ha, Hb.
    assert (a = b) as <-.
    { assert (a ∈ b :: l2) as [->|Ha2%Hb]%elem_of_cons by (apply Hext; by left); [done|].
      assert (b ∈ a :: l1) as [->|Hb1%Ha]%elem_of_cons by (apply Hext; by left); [done|].
      lia. }
    f_equal. apply IH; [done|]. intros x. split; intros Hx.
    + assert (x ∈ a :: l2) as [->|?]%elem_of_cons by (apply Hext; by right); [|done].
      apply Ha in Hx. lia.
    + assert (x ∈ a :: l1) as [->|?]%elem_of_cons by (apply Hext; by right); [|done].
      apply Hb in Hx. lia.
Qed.

Lemma find_filter (P : Simplex → Prop) `{∀ t, Decision (P t)} (K : list Simplex)
    (s : Simplex) :
  (∀ t, t ∈ K → vertices t = vertices s → P t) → find (filter P K) s = find K s.
Proof.
  induction K as [|t K IH]; intros HP; [done|]. rewrite filter_cons. cbn [find].
  destruct (decide (vertices t = vertices s)) as [Hv|Hv].
  - rewrite decide_True by (apply HP; [by left|done]). cbn [find].
    by rewrite decide_True by done.
  - destruct (decide (P t)); cbn [find]; rewrite ?decide_False by done;
      apply IH; intros t' Ht'; apply HP; by right.
Qed.

(** X25: [operator()] reads the vertices and the edges of [K] and nothing
    else: when every vertex of [K] occurs in a simplex of dimension at most
    1, the simplices of higher dimension that [K] may hold make no
    difference to the result. *)
Theorem expand_reads_skeleton (K : SimplicialComplex) (dim : nat) :
  (∀ s v, s ∈ K → v ∈ vertices s →
     ∃ t, t ∈ K ∧ (dimension t ≤ 1)%nat ∧ v ∈ vertices t) →
  expand K dim = expand (filter (λ s, dimension s ≤ 1)%nat K) dim.
Proof.
  intros Hlow. rewrite !expand_eq. do 2 f_equal.
  change SimplicialComplex with (list Simplex) in *.
  assert (vertices_of (filter (λ s, dimension s ≤ 1)%nat K) = vertices_of K) as Hvs.
  { destruct (vertices_of_spec K) as [Hinc HV].
    destruct (vertices_of_spec (filter (λ s, dimension s ≤ 1)%nat K)) as [Hinc' HV'].
    apply increasing_ext; [done..|]. intros v. rewrite HV, HV'. split.
    - intros (s & [_ Hs]%list_elem_of_filter & Hv). by exists s.
    - intros (s & Hs & Hv). destruct (Hlow s v Hs Hv) as (t & Ht & Hdim & Hvt).
      exists t. split; [|done]. by apply list_elem_of_filter. }
  assert (getLowerNeighbours (filter (λ s, dimension s ≤ 1)%nat K) = getLowerNeighbours K)
    as Hlower.
  { unfold getLowerNeighbours, range. change SimplicialComplex with (list Simplex).
    f_equal. rewrite list_filter_filter.
    apply list_filter_iff. intros s. lia. }
  unfold expansion. rewrite Hvs, Hlower.
  apply list_fmap_ext. intros i s _. unfold reassign. case_decide; [|done].
  rewrite find_filter; [done|]. intros t _ Hv. unfold dimension in *. by rewrite Hv.
Qed.

(** ** The calls on the memory *)

Lemma run_bind_Done {A B : Type} (c : run A) (f : A → run B) (m m' : memory) (a : A) :
  c m = Done (a, m') → (c ≫= f) m = f a m'.
Proof. unfold mbind, run_bind. by intros ->. Qed.

Lemma run_bind_outcome {A B C : Type} (c : run A) (f : A → run B) (m : memory)
    (x : outcome C) (g : C → A) (h : C → memory) :
  c m = (x ≫= λ a, Done (g a, h a)) → (c ≫= f) m = (x ≫= λ a, f (g a) (h a)).
Proof. unfold mbind at 2, run_bind. intros ->. by destruct x. Qed.

Lemma deref_eq (m : memory) (a : nat) (l : list Simplex) :
  m !! a = Some l → deref a m = Done (l, m).
Proof. unfold deref. by intros ->. Qed.

Lemma read_eq (m : memory) (a i : nat) (l : list Simplex) (s : Simplex) :
  m !! a = Some l → l !! i = Some s → read (a, i) m = Done (s, m).
Proof.
  intros Ha Hi. unfold read. cbn [fst snd].
  rewrite (run_bind_Done _ _ _ _ _ (deref_eq m a l Ha)). by rewrite Hi.
Qed.

Lemma assign_eq (m : memory) (a : nat) (l0 l : list Simplex) :
  m !! a = Some l0 → assign a l m = Done ((), <[a := l]> m).
Proof. unfold assign. by intros ->. Qed.

Lemma setData_at_eq (m : memory) (a i : nat) (l : list Simplex) (s : Simplex) (w : Z) :
  m !! a = Some l → l !! i = Some s →
  setData_at (a, i) w m = Done ((), <[a := <[i := setData s w]> l]> m).
Proof.
  intros Ha Hi. unfold setData_at. cbn [fst snd].
  rewrite (run_bind_Done _ _ _ _ _ (deref_eq m a l Ha)), Hi. by apply assign_eq with l.
Qed.

Lemma list_push_back_at_eq (m : memory) (a : nat) (l : list Simplex) (s : Simplex) :
  m !! a = Some l → list_push_back_at a s m = Done ((), <[a := l ++ [s]]> m).
Proof.
  intros Ha. unfold list_push_back_at.
  rewrite (run_bind_Done _ _ _ _ _ (deref_eq m a l Ha)). by apply assign_eq with l.
Qed.

Lemma push_back_at_eq (m : memory) (a : nat) (l : list Simplex) (s : Simplex) :
  m !! a = Some l → push_back_at a s m = Done ((), <[a := push_back l s]> m).
Proof.
  intros Ha. unfold push_back_at.
  rewrite (run_bind_Done _ _ _ _ _ (deref_eq m a l Ha)). by apply assign_eq with l.
Qed.

Lemma back_eq (m : memory) (a : nat) (l : list Simplex) :
  m !! a = Some l → back a m = Done ((a, pred (length l)), m).
Proof.
  intros Ha. unfold back. by rewrite (run_bind_Done _ _ _ _ _ (deref_eq m a l Ha)).
Qed.

Lemma fresh_unused (m : memory) : m !! fresh (dom m) = None.
Proof. apply not_elem_of_dom, is_fresh. Qed.

(** The end of the scope of a local object. *)
Lemma delete_local (m : memory) (a b : nat) (x y : list Simplex) :
  m !! a = None → b ≠ a → delete a (<[b := x]> (<[a := y]> m)) = <[b := x]> m.
Proof. intros Ha Hne. by rewrite delete_insert_ne, delete_insert_id. Qed.

Tactic Notation "run_step" uconstr(H) :=
  rewrite (run_bind_Done _ _ _ _ _ H); cbn beta zeta.

(** [addCofaces] appends to the list behind [simplices]. *)
Lemma addCofaces_at_cofaces (lower : gmap nat (gset nat)) (dim fuel a : nat) :
  ∀ (i : nat) (N : gset nat) (m : memory) (l : list Simplex) (s : Simplex),
  m !! a = Some l → l !! i = Some s → vertices s ≠ [] → (dim - dimension s ≤ fuel)%nat →
  addCofaces_at fuel (a, i) lower N a dim m
  = Done ((), <[a := l ++ cofaces lower (dim - dimension s) (vertices s) N]> m).
Proof.
  induction fuel as [|fuel IH]; intros i N m l s Ha Hi Hs Hfuel; cbn [addCofaces_at];
    run_step (read_eq m a i l s Ha Hi); case_decide as Hd;
    try (replace (dim - dimension s)%nat with 0%nat by lia; cbn [cofaces];
         by rewrite app_nil_r, insert_id);
    [lia|].
  destruct (dim - dimension s)%nat as [|k] eqn:Hk; [lia|]. cbn [cofaces].
  assert (∀ n, (dim - dimension (Simplex_of (vertices s ++ [n])))%nat = k) as Hdim.
  { intros n. rewrite dimension_Simplex_of, length_app. unfold dimension in Hk.
    destruct (vertices s); [done|]. cbn in *. lia. }
  assert (∀ n, vertices (Simplex_of (vertices s ++ [n])) ≠ []) as Hne.
  { intros n Heq%(f_equal length). cbn in Heq.
    rewrite length_sort_desc, length_app in Heq. cbn in Heq. lia. }
  match goal with |- for_each_at ?body _ _ _ = _ => set (b := body) end.
  match goal with |- _ = Done (_, <[_ := _ ++ (_ ≫= ?f)]> _) => set (g := f) end.
  assert (∀ n acc, b () n (<[a := l ++ acc]> m) = Done ((), <[a := l ++ acc ++ g n]> m))
    as Hbody.
  { intros n acc. unfold b, g.
    run_step (read_eq _ a i (l ++ acc) s (lookup_insert_eq _ _ _)
                (lookup_app_l_Some _ _ _ _ Hi)).
    run_step (list_push_back_at_eq _ a (l ++ acc) (Simplex_of (vertices s ++ [n]))
                (lookup_insert_eq _ _ _)).
    rewrite insert_insert_eq. destruct (lower !! n) as [ln|].
    - run_step (back_eq _ a _ (lookup_insert_eq m a
                  ((l ++ acc) ++ [Simplex_of (vertices s ++ [n])]))).
      rewrite (IH _ _ _ _ (Simplex_of (vertices s ++ [n])) (lookup_insert_eq _ _ _)).
      + rewrite insert_insert_eq, Hdim. by rewrite <- !(assoc_L (++)).
      + by rewrite <- last_lookup, last_snoc.
      + apply Hne.
      + rewrite Hdim. lia.
    - cbn. by rewrite <- !(assoc_L (++)). }
  assert (∀ ns acc, for_each_at b ns () (<[a := l ++ acc]> m)
                    = Done ((), <[a := l ++ acc ++ (ns ≫= g)]> m)) as Hloop.
  { induction ns as [|n ns IHns]; intros acc; cbn [for_each_at].
    - cbn. by rewrite app_nil_r.
    - run_step (Hbody n acc). rewrite (IHns (acc ++ g n)).
      change ((n :: ns) ≫= g) with (g n ++ (ns ≫= g)). by rewrite <- !(assoc_L (++)). }
  specialize (Hloop (iterate N) []). cbn [app] in Hloop.
  by rewrite app_nil_r, insert_id in Hloop.
Qed.

Lemma expand_vertex_at_loop (lower : gmap nat (gset nat)) (dim a : nat) (m : memory)
    (vs : list nat) :
  ∀ acc : list Simplex,
  for_each_at (expand_vertex_at lower dim a) vs () (<[a := acc]> m)
  = Done ((), <[a := acc ++ (vs ≫= star lower dim)]> m).
Proof.
  assert (∀ v acc, expand_vertex_at lower dim a () v (<[a := acc]> m)
                   = Done ((), <[a := acc ++ star lower dim v]> m)) as Hbody.
  { intros v acc. unfold expand_vertex_at, star.
    run_step (list_push_back_at_eq _ a acc (Simplex_of [v]) (lookup_insert_eq _ _ _)).
    rewrite insert_insert_eq. destruct (lower !! v) as [N|].
    - run_step (back_eq _ a _ (lookup_insert_eq m a (acc ++ [Simplex_of [v]]))).
      rewrite (addCofaces_at_cofaces lower dim dim a _ N _ _ (Simplex_of [v])
                 (lookup_insert_eq _ _ _)).
      + rewrite insert_insert_eq, dimension_Simplex_of. cbn [length pred].
        rewrite Nat.sub_0_r. by rewrite <- !(assoc_L (++)).
      + by rewrite <- last_lookup, last_snoc.
      + by cbn.
      + rewrite dimension_Simplex_of. cbn. lia.
    - done. }
  induction vs as [|v vs IH]; intros acc; cbn [for_each_at].
  - cbn. by rewrite app_nil_r.
  - run_step (Hbody v acc). rewrite IH.
    change ((v :: vs) ≫= star lower dim) with (star lower dim v ++ (vs ≫= star lower dim)).
    by rewrite <- !(assoc_L (++)).
Qed.

(** The second loop of [operator()] writes to the list, and reads [K]. *)
Lemma reassign_at_eq (K a i : nat) (k l : list Simplex) (s : Simplex) (m : memory) :
  m !! K = Some k → m !! a = Some l → l !! i = Some s →
  reassign_at K a () i m = Done ((), <[a := <[i := reassign k s]> l]> m).
Proof.
  intros HK Ha Hi. unfold reassign_at, reassign.
  run_step (read_eq m a i l s Ha Hi). case_decide.
  - run_step (deref_eq m K k HK). destruct (find k s) as [found|].
    + by apply setData_at_eq.
    + cbn. by rewrite list_insert_id, insert_id.
  - cbn. by rewrite list_insert_id, insert_id.
Qed.

Lemma reassign_at_loop (K a : nat) (k : list Simplex) (m : memory) :
  m !! K = Some k → K ≠ a →
  ∀ todo finished : list Simplex,
  for_each_at (reassign_at K a) (seq (length finished) (length todo)) ()
              (<[a := finished ++ todo]> m)
  = Done ((), <[a := finished ++ (reassign k <$> todo)]> m).
Proof.
  intros HK Hne. induction todo as [|s todo IH]; intros finished;
    cbn [length seq for_each_at fmap list_fmap]; [done|].
  rewrite (run_bind_Done _ _ _ _ _
             (reassign_at_eq K a (length finished) k (finished ++ s :: todo) s _
                ltac:(by rewrite lookup_insert_ne) (lookup_insert_eq _ _ _)
                (list_lookup_middle _ _ _ _ eq_refl))).
  rewrite insert_insert_eq, insert_app_r_alt, Nat.sub_diag by done. cbn [insert list_insert].
  rewrite (cons_middle (reassign k s)), (assoc_L (++)).
  specialize (IH (finished ++ [reassign k s])).
  rewrite length_app, Nat.add_1_r in IH. cbn [length] in IH. rewrite IH.
  by rewrite <- !(assoc_L (++)).
Qed.

Lemma expand_at_eq (K dim : nat) (k : list Simplex) (m : memory) :
  m !! K = Some k →
  ∃ r, m !! r = None ∧
       expand_at K dim m
       = Done (r, <[r := complex_of (reassign k <$> expansion k dim)]> m).
Proof.
  intros HK. set (a := fresh (dom m)).
  assert (m !! a = None) as Ha by apply fresh_unused.
  assert (K ≠ a) as HKa by (intros Heq; rewrite Heq in HK; congruence).
  set (L := reassign k <$> expansion k dim).
  set (r := fresh (dom (<[a := L]> m))).
  assert (<[a := L]> m !! r = None) as Hr by apply fresh_unused.
  assert (a ≠ r) as Har by (intros Heq; rewrite <- Heq, lookup_insert_eq in Hr; done).
  rewrite lookup_insert_ne in Hr by done.
  exists r. split; [done|]. unfold expand_at.
  run_step (deref_eq m K k HK). run_step (deref_eq m K k HK).
  rewrite (run_bind_Done _ _ m (<[a := []]> m) a) by done. cbn beta zeta.
  run_step (expand_vertex_at_loop (getLowerNeighbours k) dim a m (vertices_of k) []).
  cbn [app]. fold (expansion k dim).
  run_step (deref_eq _ a _ (lookup_insert_eq m a (expansion k dim))).
  run_step (reassign_at_loop K a k m HK HKa (expansion k dim) []).
  cbn [app]. fold L.
  run_step (deref_eq _ a _ (lookup_insert_eq m a L)).
  rewrite (run_bind_Done _ _ (<[a := L]> m) (<[r := complex_of L]> (<[a := L]> m)) r)
    by done.
  cbn beta zeta. unfold destroy.
  rewrite (run_bind_Done _ _ _ (delete a (<[r := complex_of L]> (<[a := L]> m))) ())
    by done.
  cbn. by rewrite delete_local.
Qed.

(** [assignMaximumWeight]: the copy [s] lives at a new address; what the
    body writes, it writes to [s] and to [S]. *)
Lemma maximum_weight_step_at_eq (K S minDimension it : nat) (k : list Simplex)
    (o : objects) (element : Simplex) (m : memory) :
  m !! K = Some k → m !! S = Some (built o) → by_dimension k !! it = Some element →
  maximum_weight_step_at K S minDimension () it m
  = Done ((), <[S := built (maximum_weight_step minDimension o element)]> m).
Proof.
  intros HK HS Hit. unfold maximum_weight_step_at, maximum_weight_step.
  run_step (deref_eq m K k HK). rewrite Hit.
  set (a := fresh (dom m)). assert (m !! a = None) as Ha by apply fresh_unused.
  assert (S ≠ a) as HSa by (intros Heq; rewrite Heq in HS; congruence).
  rewrite (run_bind_Done _ _ m (<[a := [element]]> m) a) by done. cbn beta zeta.
  run_step (read_eq (<[a := [element]]> m) a 0 [element] element
              (lookup_insert_eq _ _ _) eq_refl).
  assert (∀ (fs : list Simplex) (w : Z),
            for_each_at
              (λ w face,
                 inS ← deref S;
                 match find inS face with
                 | Some faceInS => mret (Z.max w (data faceInS))
                 | None => mret w
                 end) fs w (<[a := [element]]> m)
            = Done (foldl (λ w face, match find (built o) face with
                                     | Some faceInS => Z.max w (data faceInS)
                                     | None => w
                                     end) w fs, <[a := [element]]> m)) as Hfaces.
  { induction fs as [|face fs IH]; intros w; cbn [for_each_at foldl]; [done|].
    rewrite (run_bind_Done _ _ _ (<[a := [element]]> m)
               (match find (built o) face with
                | Some faceInS => Z.max w (data faceInS)
                | None => w
                end)); [apply IH|].
    run_step (deref_eq (<[a := [element]]> m) S (built o)
                ltac:(by rewrite lookup_insert_ne)).
    by destruct (find (built o) face). }
  cbn [built]. case_decide.
  - rewrite (run_bind_Done _ _ _
               (<[a := [setData element
                          (foldl (λ w face, match find (built o) face with
                                            | Some faceInS => Z.max w (data faceInS)
                                            | None => w
                                            end) (data element) (boundary element))]]>
                  (<[a := [element]]> m)) ()).
    2:{ run_step (Hfaces (boundary element) (data element)).
        by rewrite (setData_at_eq _ a 0 [element] element _ (lookup_insert_eq _ _ _)). }
    cbn beta zeta. rewrite insert_insert_eq.
    run_step (read_eq _ a 0 _ _ (lookup_insert_eq m a [setData element _]) eq_refl).
    run_step (push_back_at_eq _ S (built o) _ ltac:(by rewrite lookup_insert_ne)).
    unfold destroy. by rewrite delete_local.
  - rewrite (run_bind_Done _ _ _ (<[a := [element]]> m) ()) by done. cbn beta zeta.
    run_step (read_eq _ a 0 _ _ (lookup_insert_eq m a [element]) eq_refl).
    run_step (push_back_at_eq _ S (built o) _ ltac:(by rewrite lookup_insert_ne)).
    unfold destroy. by rewrite delete_local.
Qed.

Lemma maximum_weight_at_loop (K S minDimension : nat) (k : list Simplex) (m : memory) :
  m !! K = Some k → K ≠ S →
  ∀ (n j : nat) (o : objects),
  (j + n = length (by_dimension k))%nat →
  for_each_at (maximum_weight_step_at K S minDimension) (seq j n) () (<[S := built o]> m)
  = Done ((), <[S := built (foldl (maximum_weight_step minDimension) o
                              (drop j (by_dimension k)))]> m).
Proof.
  intros HK Hne. induction n as [|n IH]; intros j o Hlen; cbn [seq for_each_at].
  - rewrite drop_ge by lia. done.
  - destruct (lookup_lt_is_Some_2 (by_dimension k) j) as [element Hj]; [lia|].
    rewrite (run_bind_Done _ _ _ _ _
               (maximum_weight_step_at_eq K S minDimension j k o element _
                  ltac:(by rewrite lookup_insert_ne) (lookup_insert_eq _ _ _) Hj)).
    rewrite insert_insert_eq, IH by lia.
    by rewrite (drop_S _ _ _ Hj).
Qed.

Lemma assignMaximumWeight_at_eq (K minDimension : nat) (k : list Simplex) (m : memory) :
  m !! K = Some k →
  ∃ r, m !! r = None ∧
       assignMaximumWeight_at K minDimension m
       = Done (r, <[r := assignMaximumWeight k minDimension]> m).
Proof.
  intros HK. set (S := fresh (dom m)).
  assert (m !! S = None) as HS by apply fresh_unused.
  assert (K ≠ S) as HKS by (intros Heq; rewrite Heq in HK; congruence).
  exists S. split; [done|]. unfold assignMaximumWeight_at.
  rewrite (run_bind_Done _ _ m (<[S := []]> m) S) by done. cbn beta zeta.
  run_step (deref_eq (<[S := []]> m) K k ltac:(by rewrite lookup_insert_ne)).
  run_step (maximum_weight_at_loop K S minDimension k m HK HKS
              (length (by_dimension k)) 0 (mkObjects k []) eq_refl).
  done.
Qed.

(** [assignData]. *)
Lemma assign_data_step_at_eq (K S i : nat) (dataValues : list Z)
    (vertexToIndex : gmap nat nat) (init : Z) (functor : Z → Z → Z) (k : list Simplex)
    (o : objects) (element : Simplex) (m : memory) :
  m !! K = Some k → m !! S = Some (built o) → k !! i = Some element →
  assign_data_step_at K S dataValues vertexToIndex init functor () i m
  = (assign_data_step dataValues vertexToIndex init functor o element
     ≫= λ o', Done ((), <[S := built o']> m)).
Proof.
  intros HK HS Hi. unfold assign_data_step_at, assign_data_step.
  run_step (deref_eq m K k HK). rewrite Hi.
  set (a := fresh (dom m)). assert (m !! a = None) as Ha by apply fresh_unused.
  assert (S ≠ a) as HSa by (intros Heq; rewrite Heq in HS; congruence).
  rewrite (run_bind_Done _ _ m (<[a := [element]]> m) a) by done. cbn beta zeta.
  run_step (read_eq (<[a := [element]]> m) a 0 [element] element
              (lookup_insert_eq _ _ _) eq_refl).
  set (body := λ (d : Z) (v : nat),
         match dataValues !! default O (vertexToIndex !! v) with
         | Some x => Done (functor d x)
         | None => OutOfRange
         end).
  assert (∀ (vs : list nat) (d : Z),
            for_each_at
              (λ d v, match dataValues !! default O (vertexToIndex !! v) with
                      | Some x => mret (functor d x)
                      | None => stop OutOfRange
                      end) vs d (<[a := [element]]> m)
            = (for_each body vs d ≫= λ d', Done (d', <[a := [element]]> m))) as Hvalues.
  { subst body. induction vs as [|v vs IH]; intros d; cbn [for_each_at for_each]; [done|].
    destruct (dataValues !! default O (vertexToIndex !! v)) as [x|]; [|done].
    rewrite (run_bind_Done _ _ _ (<[a := [element]]> m) (functor d x)) by done.
    apply IH. }
  rewrite (run_bind_outcome _ _ _ _ _ _ (Hvalues (vertices element) init)).
  fold body. destruct (for_each body (vertices element) init) as [d| | |]; [|done..].
  cbn [mbind outcome_bind built].
  run_step (setData_at_eq _ a 0 [element] element d (lookup_insert_eq _ _ _) eq_refl).
  rewrite insert_insert_eq. cbn [insert list_insert].
  run_step (read_eq _ a 0 _ _ (lookup_insert_eq m a [setData element d]) eq_refl).
  run_step (push_back_at_eq _ S (built o) _ ltac:(by rewrite lookup_insert_ne)).
  unfold destroy. by rewrite delete_local.
Qed.

Lemma assign_data_at_loop (K S : nat) (dataValues : list Z)
    (vertexToIndex : gmap nat nat) (init : Z) (functor : Z → Z → Z) (k : list Simplex)
    (m : memory) :
  m !! K = Some k → K ≠ S →
  ∀ (n j : nat) (o : objects),
  (j + n = length k)%nat →
  for_each_at (assign_data_step_at K S dataValues vertexToIndex init functor)
              (seq j n) () (<[S := built o]> m)
  = (for_each (assign_data_step dataValues vertexToIndex init functor) (drop j k) o
     ≫= λ o', Done ((), <[S := built o']> m)).
Proof.
  intros HK Hne. induction n as [|n IH]; intros j o Hlen; cbn [seq for_each_at].
  - rewrite drop_ge by lia. done.
  - destruct (lookup_lt_is_Some_2 k j) as [element Hj]; [lia|].
    rewrite (drop_S _ _ _ Hj). cbn [for_each].
    rewrite (run_bind_outcome _ _ _ _ _ _
               (assign_data_step_at_eq K S j dataValues vertexToIndex init functor k o
                  element _ ltac:(by rewrite lookup_insert_ne) (lookup_insert_eq _ _ _) Hj)).
    destruct (assign_data_step dataValues vertexToIndex init functor o element)
      as [o1| | |]; [|done..].
    cbn [mbind outcome_bind]. rewrite insert_insert_eq. apply IH. lia.
Qed.

Lemma assignData_at_eq (K : nat) (dataValues : list Z) (init : Z) (functor : Z → Z → Z)
    (k : list Simplex) (m : memory) :
  m !! K = Some k →
  ∃ r, m !! r = None ∧
       assignData_at K dataValues init functor m
       = (assignData k dataValues init functor ≫= λ R, Done (r, <[r := R]> m)).
Proof.
  intros HK. set (S := fresh (dom m)).
  assert (m !! S = None) as HS by apply fresh_unused.
  assert (K ≠ S) as HKS by (intros Heq; rewrite Heq in HK; congruence).
  exists S. split; [done|]. unfold assignData_at, assignData, assignData_call.
  cbn [caller_K].
  rewrite (run_bind_Done _ _ m (<[S := []]> m) S) by done. cbn beta zeta.
  run_step (deref_eq (<[S := []]> m) K k ltac:(by rewrite lookup_insert_ne)).
  run_step (deref_eq (<[S := []]> m) K k ltac:(by rewrite lookup_insert_ne)).
  rewrite (run_bind_outcome _ _ _ _ _ _
             (assign_data_at_loop K S dataValues (index_vertices (vertices_of k)) init
                functor k m HK HKS (length k) 0 (mkObjects k []) eq_refl)).
  rewrite drop_0. by destruct (for_each _ k (mkObjects k [])).
Qed.

Lemma leaves_unchanged_intro (K r : nat) (k R : list Simplex) (m : memory)
    (call : run nat) :
  m !! K = Some k → m !! r = None → call m = Done (r, <[r := R]> m) →
  leaves_unchanged K m call (Done R).
Proof.
  intros HK Hr Hcall. exists r, R, (<[r := R]> m).
  assert (K ≠ r) as Hne by (intros Heq; rewrite Heq in HK; congruence).
  split_and!; [done..|by rewrite lookup_insert_ne|done|apply lookup_insert_eq|].
  intros a Ha. by rewrite lookup_insert_ne.
Qed.


(** ** The expansion under a schedule of iteration orders *)

Lemma lists_Permutation (order : list nat) (X : gset nat) :
  lists order X → order ≡ₚ elements X.
Proof.
  intros [Hnd <-]. apply NoDup_Permutation; [done|apply NoDup_elements|].
  intros x. by rewrite elem_of_elements, elem_of_list_to_set.
Qed.

Lemma next_order_iterate (X : gset nat) (orders : schedule) :
  (next_order X orders).1 ≡ₚ iterate X.
Proof.
  rewrite iterate_elements. destruct orders as [|order orders]; cbn; [done|].
  case_decide; [by apply lists_Permutation|done].
Qed.

Lemma intersect_in_spec (U V : gset nat) (orders : schedule) :
  ∃ orders', intersect_in U V orders = (U ∩ V, orders').
Proof.
  assert (∀ (W : gset nat) (l : list nat) (r : gset nat) (x : nat),
            x ∈ foldl (λ result u, if decide (u ∈ W) then {[u]} ∪ result else result) r l
            ↔ x ∈ r ∨ (x ∈ l ∧ x ∈ W)) as Hloop.
  { intros W l. induction l as [|u l IH]; intros r x; cbn [foldl].
    - rewrite elem_of_nil. tauto.
    - rewrite IH, elem_of_cons. case_decide; set_solver. }
  unfold intersect_in. case_decide.
  - pose proof (next_order_iterate V orders) as Hperm.
    destruct (next_order V orders) as [us orders']. exists orders'. f_equal.
    apply set_eq. intros x. cbn [fst] in Hperm.
    rewrite Hloop, Hperm, elem_of_iterate. set_solver.
  - pose proof (next_order_iterate U orders) as Hperm.
    destruct (next_order U orders) as [us orders']. exists orders'. f_equal.
    apply set_eq. intros x. cbn [fst] in Hperm.
    rewrite Hloop, Hperm, elem_of_iterate. set_solver.
Qed.

Lemma addCofaces_in_cofaces (lower : gmap nat (gset nat)) (dim fuel : nat) :
  ∀ (s : Simplex) (N : gset nat) (acc : list Simplex) (orders : schedule),
  vertices s ≠ [] → (dim - dimension s ≤ fuel)%nat →
  ∃ added orders',
    addCofaces_in fuel s lower N (acc, orders) dim = Done (acc ++ added, orders') ∧
    added ≡ₚ cofaces lower (dim - dimension s) (vertices s) N.
Proof.
  induction fuel as [|fuel IH]; intros s N acc orders Hs Hfuel; cbn [addCofaces_in];
    case_decide as Hd;
    try (exists [], orders; rewrite app_nil_r; split; [done|];
         by replace (dim - dimension s)%nat with 0%nat by lia);
    [lia|].
  destruct (dim - dimension s)%nat as [|k] eqn:Hk; [lia|]. cbn [cofaces].
  assert (∀ n, (dim - dimension (Simplex_of (vertices s ++ [n])))%nat = k) as Hdim.
  { intros n. rewrite dimension_Simplex_of, length_app. unfold dimension in Hk.
    destruct (vertices s); [done|]. cbn in *. lia. }
  assert (∀ n, vertices (Simplex_of (vertices s ++ [n])) ≠ []) as Hne.
  { intros n Heq%(f_equal length). cbn in Heq.
    rewrite length_sort_desc, length_app in Heq. cbn in Heq. lia. }
  cbn [fst snd]. pose proof (next_order_iterate N orders) as Hperm.
  destruct (next_order N orders) as [ns orders1]. cbn [fst] in Hperm.
  setoid_rewrite <- Hperm. clear Hperm. revert acc orders1.
  induction ns as [|n ns IHns]; intros acc orders1; cbn [for_each].
  - exists [], orders1. by rewrite app_nil_r.
  - change ((n :: ns) ≫= ?f) with (f n ++ (ns ≫= f)). cbn beta.
    destruct (lower !! n) as [ln|].
    + destruct (intersect_in_spec ln N orders1) as [orders2 ->].
      destruct (IH (Simplex_of (vertices s ++ [n])) (ln ∩ N)
                  (acc ++ [Simplex_of (vertices s ++ [n])]) orders2)
        as (added1 & orders3 & -> & Hadded1); [apply Hne|rewrite Hdim; lia|].
      cbn [mbind outcome_bind].
      destruct (IHns ((acc ++ [Simplex_of (vertices s ++ [n])]) ++ added1) orders3)
        as (added2 & orders4 & -> & Hadded2).
      exists (Simplex_of (vertices s ++ [n]) :: added1 ++ added2), orders4. split.
      * by rewrite <- !(assoc_L (++)).
      * rewrite intersect_spec, Hadded2, Hadded1, Hdim. done.
    + cbn [mbind outcome_bind].
      destruct (IHns (acc ++ [Simplex_of (vertices s ++ [n])]) orders1)
        as (added2 & orders4 & -> & Hadded2).
      exists (Simplex_of (vertices s ++ [n]) :: added2), orders4. split.
      * by rewrite <- !(assoc_L (++)).
      * by rewrite Hadded2.
Qed.

Lemma expand_vertex_in_star (lower : gmap nat (gset nat)) (dim v : nat)
    (acc : list Simplex) (orders : schedule) :
  ∃ added orders',
    expand_vertex_in lower dim (acc, orders) v = Done (acc ++ added, orders') ∧
    added ≡ₚ star lower dim v.
Proof.
  unfold expand_vertex_in, star. cbn [fst snd]. destruct (lower !! v) as [N|].
  - destruct (addCofaces_in_cofaces lower dim dim (Simplex_of [v]) N
                (acc ++ [Simplex_of [v]]) orders)
      as (added & orders1 & -> & Hadded);
      [by cbn|rewrite dimension_Simplex_of; cbn; lia|].
    exists (Simplex_of [v] :: added), orders1. split.
    + by rewrite <- (assoc_L (++)).
    + rewrite Hadded, dimension_Simplex_of. cbn [length pred]. by rewrite Nat.sub_0_r.
  - by exists [Simplex_of [v]], orders.
Qed.

Lemma expand_in_loop (lower : gmap nat (gset nat)) (dim : nat) (vs : list nat) :
  ∀ (acc : list Simplex) (orders : schedule),
  ∃ raw orders',
    for_each (expand_vertex_in lower dim) vs (acc, orders) = Done (acc ++ raw, orders') ∧
    raw ≡ₚ vs ≫= star lower dim.
Proof.
  induction vs as [|v vs IH]; intros acc orders; cbn [for_each].
  - exists [], orders. by rewrite app_nil_r.
  - change ((v :: vs) ≫= star lower dim)
      with (star lower dim v ++ (vs ≫= star lower dim)).
    destruct (expand_vertex_in_star lower dim v acc orders)
      as (added & orders1 & -> & Hadded).
    cbn [mbind outcome_bind].
    destruct (IH (acc ++ added) orders1) as (raw & orders2 & -> & Hraw).
    exists (added ++ raw), orders2. split.
    + by rewrite <- (assoc_L (++)).
    + by rewrite Hraw, Hadded.
Qed.

Lemma expand_in_expansion (orders : schedule) (K : SimplicialComplex) (dim : nat) :
  skeleton K →
  ∃ R, expand_in orders K dim = Done R ∧ R ≡ₚ reassign K <$> expansion K dim.
Proof.
  intros Hsk. destruct (expansion_cliques K dim Hsk) as [Hnd _].
  destruct (expand_in_loop (getLowerNeighbours K) dim (vertices_of K) [] orders)
    as (raw & orders' & Hloop & Hraw).
  exists (reassign K <$> raw). unfold expand_in. rewrite Hloop.
  cbn [mbind outcome_bind fst app]. split; [|by rewrite Hraw].
  f_equal. apply complex_of_NoDup.
  assert (vertices <$> (reassign K <$> raw) = vertices <$> raw) as ->.
  { rewrite <- list_fmap_compose. apply list_fmap_ext. intros i s _. cbn.
    apply reassign_vertices. }
  unfold expansion in Hnd. by rewrite Hraw.
Qed.

End Expander.

(** ** Examples *)

(** Scenario B: three vertices, three edges and the triangle. *)
Example scenario_B :
  expand elements triangle 2
  = Done [mkSimplex [1] 0; mkSimplex [2] 0; mkSimplex [2; 1] 5; mkSimplex [3] 0;
          mkSimplex [3; 2] 6; mkSimplex [3; 2; 1] 0; mkSimplex [3; 1] 7].
Proof. vm_compute. reflexivity. Qed.

(** Scenario C: four vertices, three edges, no triangle. *)
Example scenario_C :
  expand elements path_graph 2
  = Done [mkSimplex [1] 0; mkSimplex [2] 0; mkSimplex [2; 1] 5; mkSimplex [3] 0;
          mkSimplex [3; 2] 6; mkSimplex [4] 0; mkSimplex [4; 3] 7].
Proof. vm_compute. reflexivity. Qed.

(** The weights of the triangle after [assignMaximumWeight], and with the
    vertex values 10, 30, 20 after [assignMaximumData]. *)
Example triangle_weights :
  assignMaximumWeight
    [mkSimplex [1] 0; mkSimplex [2] 0; mkSimplex [2; 1] 5; mkSimplex [3] 0;
     mkSimplex [3; 2] 6; mkSimplex [3; 2; 1] 0; mkSimplex [3; 1] 7] 1
  = [mkSimplex [1] 0; mkSimplex [2] 0; mkSimplex [3] 0; mkSimplex [2; 1] 5;
     mkSimplex [3; 2] 6; mkSimplex [3; 1] 7; mkSimplex [3; 2; 1] 7] ∧
  assignMaximumData (-100) triangle [10; 30; 20]%Z
  = Done [mkSimplex [1] 10; mkSimplex [2] 30; mkSimplex [3] 20;
          mkSimplex [2; 1] 30; mkSimplex [3; 2] 30; mkSimplex [3; 1] 20].
Proof. split; vm_compute; reflexivity. Qed.

Lemma triangle_skeleton : skeleton triangle.
Proof.
  intros s Hs. unfold triangle in Hs.
  repeat (apply elem_of_cons in Hs as [->|Hs]); [..|by apply elem_of_nil in Hs].
  all: split_and!.
  all: lazymatch goal with
       | |- decreasing _ => unfold decreasing; cbn; repeat (constructor; try lia)
       | |- _ ∨ _ => cbn; lia
       | |- ∀ v, _ => intros v Hv; cbn in Hv
       end.
  all: repeat (apply elem_of_cons in Hv as [->|Hv]); [..|by apply elem_of_nil in Hv].
  all: lazymatch goal with
       | |- vertex _ ?v =>
           exists (mkSimplex [v] 0); split; [unfold triangle; set_solver|reflexivity]
       end.
Qed.

Lemma expand_cliques_witness :
  ((∀ X : gset nat, elements X ≡ₚ elements X) ∧ skeleton triangle) ∧
  ∃ R, expand elements triangle 2 = Done R ∧
       NoDup (vertices <$> R) ∧
       ∀ x, x ∈ vertices <$> R ↔ clique triangle 2 x.
Proof.
  split; [split; [done|apply triangle_skeleton]|].
  apply (expand_cliques elements (λ X, reflexivity (elements X)) triangle 2).
  apply triangle_skeleton.
Defined.

Lemma expand_weights_witness :
  ∃ R, expand elements triangle 2 = Done R ∧
       (mkSimplex [2; 1] 5 ∈ R ∧ data (mkSimplex [2; 1] 5) = 5%Z) ∧
       (mkSimplex [3; 2; 1] 0 ∈ R ∧ data (mkSimplex [3; 2; 1] 0) = 0%Z).
Proof.
  destruct (expand_weights elements triangle 2) as (R & HR & Hw).
  exists R. split; [exact HR|].
  assert (R = [mkSimplex [1] 0; mkSimplex [2] 0; mkSimplex [2; 1] 5; mkSimplex [3] 0;
               mkSimplex [3; 2] 6; mkSimplex [3; 2; 1] 0; mkSimplex [3; 1] 7]) as HR'.
  { rewrite scenario_B in HR. by injection HR. }
  assert (mkSimplex [2; 1] 5 ∈ R) as H1 by (rewrite HR'; set_solver).
  assert (mkSimplex [3; 2; 1] 0 ∈ R) as H2 by (rewrite HR'; set_solver).
  split; (split; [done|]).
  - apply (proj1 (Hw _ H1) (mkSimplex [2; 1] 5)); [cbn; lia|reflexivity].
  - apply (proj2 (Hw _ H2)). cbn. lia.
Defined.

(** The caller has the triangle at the address 0 and the path at the
    address 1; [operator()] for the triangle uses the address 2 for its
    list and returns the complex at the address 3. *)
Example expand_at_triangle :
  expand_at elements 0 2 {[0%nat := triangle; 1%nat := path_graph]}
  = Done (3%nat,
          {[0%nat := triangle; 1%nat := path_graph;
            3%nat := [mkSimplex [1] 0; mkSimplex [2] 0; mkSimplex [2; 1] 5;
                      mkSimplex [3] 0; mkSimplex [3; 2] 6; mkSimplex [3; 2; 1] 0;
                      mkSimplex [3; 1] 7]]}).
Proof. vm_compute. reflexivity. Qed.

(** Through a reference to a simplex of [K], [setData] changes [K]: the
    calls leave [K] as it is because they apply [setData] to the simplices
    of their own list and to copies. *)
Example setData_at_reference :
  setData_at (0%nat, 3%nat) 9 {[0%nat := triangle]}
  = Done ((), {[0%nat := [mkSimplex [1] 0; mkSimplex [2] 0; mkSimplex [3] 0;
                          mkSimplex [2; 1] 9; mkSimplex [3; 2] 6; mkSimplex [3; 1] 7]]}).
Proof. vm_compute. reflexivity. Qed.


Lemma assignData_weights_witness :
  ((length (vertices_of triangle) ≤ length [10; 30; 20]%Z)%nat ∧
   (∀ x, x ∈ [10; 30; 20]%Z → (-100 ≤ x)%Z)) ∧
  ∃ S, assignMaximumData (-100) triangle [10; 30; 20]%Z = Done S ∧
       (∀ s, s ∈ triangle → ∃ t, t ∈ S ∧ vertices t = vertices s) ∧
       ∀ t, t ∈ S → vertices t ≠ [] →
         ∃ xs, Forall2 (value_of triangle [10; 30; 20]%Z) (vertices t) xs ∧
               data t ∈ xs ∧ ∀ x, x ∈ xs → (x ≤ data t)%Z.
Proof.
  assert (length (vertices_of triangle) ≤ length [10; 30; 20]%Z)%nat as Hlen.
  { vm_compute. lia. }
  assert (∀ x, x ∈ [10; 30; 20]%Z → (-100 ≤ x)%Z) as Hlow.
  { intros x Hx. repeat (apply elem_of_cons in Hx as [->|Hx]); try lia.
    by apply elem_of_nil in Hx. }
  split; [by split_and!|].
  apply (proj2 (assignData_weights (-100) triangle [10; 30; 20]%Z 0 Z.max Hlen) Hlow).
Defined.

(** With fewer values than vertices [assignData] reads past the end of
    the vector of values. *)
Lemma assignData_too_few_values :
  assignData [mkSimplex [0] 0; mkSimplex [1] 0] [5%Z] 0 Z.max = OutOfRange ∧
  ¬ ∃ S, assignData [mkSimplex [0] 0; mkSimplex [1] 0] [5%Z] 0 Z.max = Done S.
Proof. split; [vm_compute; reflexivity|]. intros [S HS]. vm_compute in HS. discriminate. Qed.

Lemma assignMaximumWeight_weights_witness :
  NoDup (vertices <$> [mkSimplex [0] 1; mkSimplex [1] 2; mkSimplex [1; 0] 0]) ∧
  (mkSimplex [0] 1 ∈ assignMaximumWeight [mkSimplex [0] 1; mkSimplex [1] 2; mkSimplex [1; 0] 0] 0) ∧
  (∀ s f,
     s ∈ assignMaximumWeight [mkSimplex [0] 1; mkSimplex [1] 2; mkSimplex [1; 0] 0] 0 →
     f ∈ assignMaximumWeight [mkSimplex [0] 1; mkSimplex [1] 2; mkSimplex [1; 0] 0] 0 →
     (0 < dimension s)%nat → vertices f ∈ faces (vertices s) → (data f ≤ data s)%Z).
Proof.
  assert (NoDup (vertices <$> [mkSimplex [0] 1; mkSimplex [1] 2; mkSimplex [1; 0] 0]))
    as Hnd.
  { apply (bool_decide_unpack _). vm_compute. exact I. }
  split; [exact Hnd|].
  destruct (assignMaximumWeight_weights
              [mkSimplex [0] 1; mkSimplex [1] 2; mkSimplex [1; 0] 0] 0 Hnd)
    as (_ & H2 & _ & H4).
  split; [|exact H4]. apply H2; [set_solver|cbn; lia].
Defined.

(** A simplex of dimension at most [minDimension] keeps its weight even
    when a face weighs more, and a simplex of higher dimension keeps its own
    weight when that exceeds the weights of all its faces. *)
Lemma assignMaximumWeight_keeps_weights :
  (∃ s f, s ∈ assignMaximumWeight heavy_vertex 1 ∧
          f ∈ assignMaximumWeight heavy_vertex 1 ∧
          vertices f ∈ faces (vertices s) ∧ (data s < data f)%Z) ∧
  (∃ s, s ∈ assignMaximumWeight heavy_edge 0 ∧ (0 < dimension s)%nat ∧
        face_weights (assignMaximumWeight heavy_edge 0) s = [0; 0]%Z ∧
        data s = 7%Z).
Proof.
  split.
  - exists (mkSimplex [1; 0] 1), (mkSimplex [0] 5).
    split_and!; [vm_compute; set_solver..|cbn; lia].
  - exists (mkSimplex [1; 0] 7).
    split_and!; [vm_compute; set_solver|cbn; lia|vm_compute; reflexivity|reflexivity].
Qed.

Lemma add_edge_nonempty (lower : gmap nat (gset nat)) (e : Simplex) :
  (∀ v N, lower !! v = Some N → N ≠ ∅) →
  ∀ v N, add_edge lower e !! v = Some N → N ≠ ∅.
Proof.
  intros Hlower v N. unfold add_edge. destruct (vertices e) as [|x [|y l]]; [by eauto..|].
  destruct (x <? y)%nat.
  - destruct (decide (v = y)) as [->|Hne].
    + rewrite lookup_insert_eq. intros [= <-]. set_solver.
    + rewrite lookup_insert_ne by done. apply Hlower.
  - destruct (decide (v = x)) as [->|Hne].
    + rewrite lookup_insert_eq. intros [= <-]. set_solver.
    + rewrite lookup_insert_ne by done. apply Hlower.
Qed.

(** X15: the map of [getLowerNeighbours] for the skeleton of a graph: a
    vertex is a key of the map exactly when an edge joins it to a smaller
    vertex; its entry is then the set of all such smaller vertices and is
    never empty.  A vertex without a smaller neighbour is no key, which is
    why [operator()] and [addCofaces] test [find] before they call [at]. *)
Theorem getLowerNeighbours_entries (K : SimplicialComplex) (v : nat) :
  skeleton K →
  match getLowerNeighbours K !! v with
  | Some N => N ≠ ∅ ∧ ∀ u, u ∈ N ↔ (u < v)%nat ∧ edge K v u
  | None => ∀ u, ¬ ((u < v)%nat ∧ edge K v u)
  end.
Proof.
  intros Hsk.
  pose proof (λ u, lower_of_edge elements (λ X, reflexivity (elements X)) K v u Hsk) as Hlow.
  unfold lower_of in Hlow.
  destruct (getLowerNeighbours K !! v) as [N|] eqn:HN; cbn in Hlow.
  - split; [|done]. clear Hlow. revert v N HN. unfold getLowerNeighbours.
    apply (foldl_invariant (λ lower : gmap nat (gset nat), ∀ v N, lower !! v = Some N → N ≠ ∅)).
    + intros lower e. apply add_edge_nonempty.
    + intros v N. by rewrite lookup_empty.
  - intros u Hu%Hlow. set_solver.
Qed.

(** With an empty schedule every loop runs in the order of [elements]. *)
Lemma intersect_in_elements (U V : gset nat) :
  intersect_in U V [] = (intersect elements U V, []).
Proof. unfold intersect_in, intersect. by case_decide. Qed.

Lemma addCofaces_in_elements (lower : gmap nat (gset nat)) (dim fuel : nat) :
  ∀ (s : Simplex) (N : gset nat) (acc : list Simplex),
  addCofaces_in fuel s lower N (acc, []) dim
  = (addCofaces elements fuel s lower N acc dim ≫= λ simplices, Done (simplices, [])).
Proof.
  induction fuel as [|fuel IH]; intros s N acc; cbn [addCofaces_in addCofaces];
    case_decide; try done.
  cbn [fst snd next_order]. generalize (elements N). intros ns. revert acc.
  induction ns as [|n ns IHns]; intros acc; cbn [for_each]; [done|].
  destruct (lower !! n) as [ln|].
  - rewrite intersect_in_elements, IH.
    destruct (addCofaces elements fuel _ lower _ _ dim); cbn; [apply IHns|done..].
  - cbn. apply IHns.
Qed.

Lemma expand_vertex_in_elements (K0 : SimplicialComplex) (lower : gmap nat (gset nat))
    (dim v : nat) (acc : list Simplex) :
  expand_vertex_in lower dim (acc, []) v
  = (expand_vertex elements lower dim (mkObjects K0 acc) v ≫= λ o, Done (built o, [])).
Proof.
  unfold expand_vertex_in, expand_vertex. cbn [fst snd built caller_K].
  destruct (lower !! v) as [N|]; [|done].
  rewrite addCofaces_in_elements. by destruct (addCofaces elements dim _ _ _ _ dim).
Qed.

Lemma expand_in_elements (K : SimplicialComplex) (dim : nat) :
  expand_in [] K dim = expand elements K dim.
Proof.
  rewrite expand_eq. unfold expand_in.
  assert (∀ vs acc,
            for_each (expand_vertex_in (getLowerNeighbours K) dim) vs (acc, [])
            = Done (acc ++ (vs ≫= star elements (getLowerNeighbours K) dim), [])) as ->;
    [|done].
  induction vs as [|v vs IH]; intros acc; cbn [for_each].
  - cbn. by rewrite app_nil_r.
  - rewrite (expand_vertex_in_elements K).
    pose proof (expand_loop elements K (getLowerNeighbours K) dim [v] acc) as Hv.
    cbn [for_each] in Hv.
    destruct (expand_vertex elements (getLowerNeighbours K) dim (mkObjects K acc) v)
      as [o| | |]; cbn in Hv; [|done..].
    injection Hv as ->. cbn [mbind outcome_bind built]. rewrite IH.
    cbn. by rewrite app_nil_r, <- (assoc_L (++)).
Qed.

(** X22: whatever order each loop over an unordered set runs in, also
    when two loops over sets with the same elements run in different
    orders, [operator()] returns for the skeleton of a graph the same
    simplices with the same weights: two schedules change the order of the
    simplices in the complex and nothing else. *)
Theorem expand_any_order (orders1 orders2 : schedule) (K : SimplicialComplex)
    (dim : nat) :
  skeleton K →
  ∃ R1 R2, expand_in orders1 K dim = Done R1 ∧ expand_in orders2 K dim = Done R2 ∧
           R1 ≡ₚ R2.
Proof.
  intros Hsk.
  destruct (expand_in_expansion elements (λ X, reflexivity (elements X)) orders1 K dim Hsk)
    as (R1 & HR1 & Hperm1).
  destruct (expand_in_expansion elements (λ X, reflexivity (elements X)) orders2 K dim Hsk)
    as (R2 & HR2 & Hperm2).
  exists R1, R2. split_and!; [done..|]. by rewrite Hperm1, Hperm2.
Qed.

Lemma intersect_common_witness :
  (∀ X : gset nat, elements X ≡ₚ elements X) ∧
  (∀ x, x ∈ intersect elements {[1; 2; 3]} {[2; 3; 4; 5]} ↔
        x ∈ ({[1; 2; 3]} : gset nat) ∧ x ∈ ({[2; 3; 4; 5]} : gset nat)) ∧
  intersect elements {[1; 2; 3]} {[2; 3; 4; 5]}
  = intersect elements {[2; 3; 4; 5]} {[1; 2; 3]}.
Proof.
  split; [done|].
  destruct (intersect_common elements (λ X, reflexivity (elements X))
              {[1; 2; 3]} {[2; 3; 4; 5]}) as (H1 & H2 & _).
  by split.
Defined.

Lemma getLowerNeighbours_entries_witness :
  skeleton triangle ∧
  match getLowerNeighbours triangle !! 3%nat with
  | Some N => N ≠ ∅ ∧ ∀ u, u ∈ N ↔ (u < 3)%nat ∧ edge triangle 3 u
  | None => ∀ u, ¬ ((u < 3)%nat ∧ edge triangle 3 u)
  end.
Proof.
  split; [apply triangle_skeleton|].
  apply (getLowerNeighbours_entries triangle 3), triangle_skeleton.
Defined.

Lemma expand_closed_under_faces_witness :
  ((∀ X : gset nat, elements X ≡ₚ elements X) ∧ skeleton triangle) ∧
  ∃ R, expand elements triangle 2 = Done R ∧
       ∀ s f, s ∈ R → f ∈ faces (vertices s) → ∃ t, t ∈ R ∧ vertices t = f.
Proof.
  split; [split; [done|apply triangle_skeleton]|].
  apply (expand_closed_under_faces elements (λ X, reflexivity (elements X)) triangle 2).
  apply triangle_skeleton.
Defined.

Lemma assignMaximumData_monotone_witness :
  (length (vertices_of triangle) ≤ length [10; 30; 20]%Z)%nat ∧
  ∃ S, assignMaximumData (-100) triangle [10; 30; 20]%Z = Done S ∧
       ∀ s f, s ∈ S → f ∈ S → vertices f ⊆ vertices s → (data f ≤ data s)%Z.
Proof.
  assert (length (vertices_of triangle) ≤ length [10; 30; 20]%Z)%nat as Hlen.
  { vm_compute. lia. }
  split; [exact Hlen|].
  apply (assignMaximumData_monotone (-100) triangle [10; 30; 20]%Z Hlen).
Defined.

(** The reads of [assignData] for the triangle: one for each vertex of
    each simplex, and with two values the third vertex is read past the
    end. *)
Example assignData_reads_triangle :
  assignData_reads triangle = [0; 1; 2; 1; 0; 2; 1; 2; 0]%nat ∧
  ([10; 30]%Z !! 2%nat = None).
Proof. split; vm_compute; reflexivity. Qed.

Lemma assignMaximumWeight_idempotent_witness :
  NoDup (vertices <$> [mkSimplex [0] 1; mkSimplex [1; 0] 0; mkSimplex [1] 2]) ∧
  assignMaximumWeight
    (assignMaximumWeight [mkSimplex [0] 1; mkSimplex [1; 0] 0; mkSimplex [1] 2] 0) 0
  = assignMaximumWeight [mkSimplex [0] 1; mkSimplex [1; 0] 0; mkSimplex [1] 2] 0.
Proof.
  assert (NoDup (vertices <$> [mkSimplex [0] 1; mkSimplex [1; 0] 0; mkSimplex [1] 2]))
    as Hnd.
  { apply (bool_decide_unpack _). vm_compute. exact I. }
  split; [exact Hnd|].
  apply (assignMaximumWeight_idempotent
           [mkSimplex [0] 1; mkSimplex [1; 0] 0; mkSimplex [1] 2] 0 Hnd).
Defined.

(** The triangle of scenario B after the expansion and
    [assignMaximumWeight]: the 2-simplex weighs as much as the heaviest
    edge. *)
Example triangle_filtration :
  (expand elements triangle 2 ≫= λ R, Done (assignMaximumWeight R 1))
  = Done [mkSimplex [1] 0; mkSimplex [2] 0; mkSimplex [3] 0; mkSimplex [2; 1] 5;
          mkSimplex [3; 2] 6; mkSimplex [3; 1] 7; mkSimplex [3; 2; 1] 7].
Proof. vm_compute. reflexivity. Qed.

Lemma expand_then_maximum_weight_witness :
  ((∀ X : gset nat, elements X ≡ₚ elements X) ∧ skeleton triangle ∧
   NoDup (vertices <$> triangle)) ∧
  ∃ R, expand elements triangle 2 = Done R ∧
       vertices <$> assignMaximumWeight R 1 ≡ₚ vertices <$> R ∧
       ∀ s, s ∈ assignMaximumWeight R 1 →
         ((dimension s ≤ 1)%nat → s ∈ R) ∧
         ((2 ≤ dimension s)%nat →
            (0 ≤ data s)%Z ∧
            (∀ e, e ∈ triangle → dimension e = 1%nat → vertices e ⊆ vertices s →
                  (data e ≤ data s)%Z) ∧
            (data s = 0%Z ∨
             ∃ e, e ∈ triangle ∧ dimension e = 1%nat ∧ vertices e ⊆ vertices s ∧
                  data s = data e)).
Proof.
  assert (NoDup (vertices <$> triangle)) as Hnd.
  { apply (bool_decide_unpack _). vm_compute. exact I. }
  split; [split_and!; [done|apply triangle_skeleton|exact Hnd]|].
  apply (expand_then_maximum_weight elements (λ X, reflexivity (elements X)) triangle 2
           triangle_skeleton Hnd).
Defined.

(** The complete graph on 1, 2, 3, 4 has ten loops over unordered sets.
    The second, for the vertex 3, and the ninth, for the edge of 4 and 3,
    both run over the set of 1 and 2; here the second sees 1 first, the
    ninth 2. *)
Example equal_sets_in_two_orders :
  expand_in [[1]; [1; 2]; [1]; [1]; [1; 2; 3]; [1]; [1]; [1; 2]; [2; 1]; [1]]
            complete_graph 2
  = Done [mkSimplex [1] 0; mkSimplex [2] 0; mkSimplex [2; 1] 1; mkSimplex [3] 0;
          mkSimplex [3; 1] 2; mkSimplex [3; 2] 3; mkSimplex [3; 2; 1] 0;
          mkSimplex [4] 0; mkSimplex [4; 1] 4; mkSimplex [4; 2] 5;
          mkSimplex [4; 2; 1] 0; mkSimplex [4; 3] 6; mkSimplex [4; 3; 2] 0;
          mkSimplex [4; 3; 1] 0].
Proof. vm_compute. reflexivity. Qed.

Lemma expand_any_order_witness :
  skeleton triangle ∧
  ∃ R1 R2, expand_in [[1]; [2; 1]] triangle 2 = Done R1 ∧
           expand_in [[1]; [1; 2]] triangle 2 = Done R2 ∧ R1 ≡ₚ R2.
Proof.
  split; [apply triangle_skeleton|].
  apply (expand_any_order [[1]; [2; 1]] [[1]; [1; 2]] triangle 2), triangle_skeleton.
Defined.

Lemma expand_monotone_witness :
  ((∀ X : gset nat, elements X ≡ₚ elements X) ∧ skeleton triangle ∧ (1 ≤ 2)%nat) ∧
  ∃ R R', expand elements triangle 1 = Done R ∧ expand elements triangle 2 = Done R' ∧
          ∀ s, s ∈ R ↔ s ∈ R' ∧ (dimension s ≤ 1)%nat.
Proof.
  split; [split_and!; [done|apply triangle_skeleton|lia]|].
  apply (expand_monotone elements (λ X, reflexivity (elements X)) triangle 1 2).
  - apply triangle_skeleton.
  - lia.
Defined.

Lemma expand_reads_skeleton_witness :
  expand elements filled_triangle 2 = expand elements triangle 2.
Proof.
  apply (expand_reads_skeleton elements filled_triangle 2).
  intros s v Hs Hv. exists (mkSimplex [v] 0). unfold filled_triangle, triangle in *.
  cbn [app] in Hs. repeat (apply elem_of_cons in Hs as [->|Hs]);
    [..|by apply elem_of_nil in Hs]; cbn [vertices] in Hv;
    repeat (apply elem_of_cons in Hv as [->|Hv]); try (by apply elem_of_nil in Hv);
    (split_and!; [set_solver|cbn; lia|set_solver]).
Defined.

End Rips.
